(** * Workflow engine: graph execution with state, branching and looping

    A shallow embedding of [app/engine.py] (class [WorkflowGraph] and its
    [run] method) and of the code-review workflow of [app/workflows.py],
    followed by the properties of the traversal.

    The engine is embedded twice.  In the first part the values a state
    holds are immutable, and a dictionary is its content; this is the
    engine as far as control, counters, log entries and exceptions go.
    In the second part (module [Shared]) dictionaries and lists are
    objects of a heap, copies are shallow, and node functions and
    conditions may write to any object; for functions that work on the
    content of the state the two agree ([run_refines]).

    Conventions of the first part.
    - A Python [dict] with string keys is a [gmap string V]; [d.copy()] is
      the map itself (maps are values), [d.update(r)] is [r ∪ d] (the keys
      of [r] win).
    - A node function receives the live [state] dictionary
      ([node.fn(state)], engine.py:181), so it may modify it in place
      before it returns or raises: it is a function from the state to the
      state as the call left it, together with what the call produced
      (the message of the exception it raised, or the returned mapping).
    - Loop conditions and edge conditions are predicates on the state that
      may raise; in the first part they read the state and do not write
      into it.
    - The [while] loop of [run] may not terminate; it is given fuel, one
      unit per iteration of its body. *)

From Stdlib Require Import ZArith String Ascii List Bool Lia Floats.SpecFloat.
From stdpp Require Import gmap strings list pretty.

Open Scope string_scope.
Open Scope Z_scope.

(** ** Data model (engine.py:15-47) *)

Inductive NodeType := STANDARD | BRANCH | LOOP.

Definition is_loop (t : NodeType) : bool :=
  match t with LOOP => true | _ => false end.

(** Exceptions that leave [run], by the place that raises them. *)
Inductive Raised :=
| NoStartNode                                (* ValueError, engine.py:148 *)
| MissingNode (key : string)                 (* KeyError, engine.py:159 *)
| LoopLimit (node : string) (bound : Z)      (* RuntimeError, engine.py:175 *)
| UserExc (msg : string).                    (* raised by a node function or a predicate *)

(** [repr(s)] for a [str] (CPython's [unicode_repr], for code points
    below 256): the text between single quotes, or between double quotes
    when it holds a single quote and no double quote; the quote and the
    backslash are escaped, tab, line feed and carriage return are written
    with their letter, and the other characters that are not printable
    (below 32, from 127 to 160, and 173) as [\xhh]. *)
Fixpoint has_char (c : ascii) (s : string) : bool :=
  match s with
  | EmptyString => false
  | String d rest => Ascii.eqb c d || has_char c rest
  end.

Definition hex_digit (n : Z) : string :=
  String (ascii_of_N (Z.to_N (if n <? 10 then 48 + n else 87 + n))) EmptyString.

Definition backslash : ascii := "092"%char.

Definition repr_char (quote c : ascii) : string :=
  let n := Z.of_N (N_of_ascii c) in
  if Ascii.eqb c quote || Ascii.eqb c backslash
  then String backslash (String c EmptyString)
  else if n =? 9 then String backslash "t"
  else if n =? 10 then String backslash "n"
  else if n =? 13 then String backslash "r"
  else if (n <? 32) || ((127 <=? n) && (n <=? 160)) || (n =? 173)
  then String backslash "x" ++ hex_digit (n / 16) ++ hex_digit (n mod 16)
  else String c EmptyString.

Fixpoint repr_chars (quote : ascii) (s : string) : string :=
  match s with
  | EmptyString => EmptyString
  | String c rest => repr_char quote c ++ repr_chars quote rest
  end.

Definition repr (s : string) : string :=
  let quote :=
    if has_char "039"%char s && negb (has_char "034"%char s)
    then "034"%char else "039"%char in
  String quote (repr_chars quote s) ++ String quote EmptyString.

(** [str(e)] for the exception [e]; for a [KeyError] it is the [repr] of
    the key. *)
Definition str_of (e : Raised) : string :=
  match e with
  | NoStartNode => "No start node defined"
  | MissingNode key => repr key
  | LoopLimit node bound =>
      "Node '" ++ node ++ "' exceeded max iterations (" ++ pretty bound ++ ")"
  | UserExc msg => msg
  end.

(** Messages of [logger.warning] (engine.py:209 and engine.py:220). *)
Inductive Warning :=
| EndedOutsideEndNodes (node : string)
| MultipleNextNodes (node : string) (next_nodes : list string).

Section Engine.

Context {V : Type}.

Abbreviation State := (gmap string V).

Record ExecutionLog := {
  node_id : string;
  status : string;
  input_state : State;
  output_state : State;
  error : option string;
}.

Record WorkflowNode := {
  id : string;
  fn : State → State * (string + State);
  node_type : NodeType;
  loop_condition : option (State → string + bool);
  max_iterations : Z;
}.

Record WorkflowEdge := {
  from_node : string;
  to_node : string;
  condition : option (State → string + bool);
}.

Record WorkflowGraph := {
  nodes : gmap string WorkflowNode;
  edges : list WorkflowEdge;
  start_node : option string;
  end_nodes : gset string;
}.

(** ** Builder (engine.py:60-116); a [ValueError] is [inl] of its message *)

Definition new_graph : WorkflowGraph :=
  {| nodes := ∅; edges := []; start_node := None; end_nodes := ∅ |}.

Definition add_node (g : WorkflowGraph) (node_id : string)
    (fn : State → State * (string + State)) (node_type : NodeType)
    (loop_condition : option (State → string + bool))
    (max_iterations : Z) : string + WorkflowGraph :=
  match nodes g !! node_id with
  | Some _ => inl ("Node '" ++ node_id ++ "' already exists")
  | None =>
      inr {| nodes := <[node_id :=
                         {| id := node_id; fn := fn; node_type := node_type;
                            loop_condition := loop_condition;
                            max_iterations := max_iterations |}]> (nodes g);
             edges := edges g;
             start_node := match start_node g with
                           | None => Some node_id
                           | Some s => Some s
                           end;
             end_nodes := end_nodes g |}
  end.

Definition add_edge (g : WorkflowGraph) (from_node to_node : string)
    (condition : option (State → string + bool)) : string + WorkflowGraph :=
  match nodes g !! from_node with
  | None => inl ("From node '" ++ from_node ++ "' does not exist")
  | Some _ =>
      match nodes g !! to_node with
      | None => inl ("To node '" ++ to_node ++ "' does not exist")
      | Some _ =>
          inr {| nodes := nodes g;
                 edges := edges g ++
                            [{| from_node := from_node; to_node := to_node;
                                condition := condition |}];
                 start_node := start_node g;
                 end_nodes := end_nodes g |}
      end
  end.

Definition set_start_node (g : WorkflowGraph) (node_id : string)
    : string + WorkflowGraph :=
  match nodes g !! node_id with
  | None => inl ("Node '" ++ node_id ++ "' does not exist")
  | Some _ =>
      inr {| nodes := nodes g; edges := edges g;
             start_node := Some node_id; end_nodes := end_nodes g |}
  end.

Fixpoint first_missing (g : WorkflowGraph) (node_ids : list string)
    : option string :=
  match node_ids with
  | [] => None
  | node_id :: rest =>
      match nodes g !! node_id with
      | None => Some node_id
      | Some _ => first_missing g rest
      end
  end.

Definition set_end_nodes (g : WorkflowGraph) (node_ids : list string)
    : string + WorkflowGraph :=
  match first_missing g node_ids with
  | Some node_id => inl ("Node '" ++ node_id ++ "' does not exist")
  | None =>
      inr {| nodes := nodes g; edges := edges g;
             start_node := start_node g;
             end_nodes := list_to_set node_ids |}
  end.

(** ** Edge evaluation (engine.py:118-132) *)

Definition outgoing_edges (g : WorkflowGraph) (current_node : string)
    : list WorkflowEdge :=
  List.filter (λ e, bool_decide (from_node e = current_node)) (edges g).

(** The [for] loop over the outgoing edges; a condition that raises ends
    it at once. *)
Fixpoint collect_next (es : list WorkflowEdge) (state : State)
    (next_nodes : list string) : string + list string :=
  match es with
  | [] => inr next_nodes
  | edge :: rest =>
      match condition edge with
      | Some cond =>
          match cond state with
          | inl msg => inl msg
          | inr true => collect_next rest state (next_nodes ++ [to_node edge])
          | inr false => collect_next rest state next_nodes
          end
      | None => collect_next rest state (next_nodes ++ [to_node edge])
      end
  end.

Definition _get_next_nodes (g : WorkflowGraph) (current_node : string)
    (state : State) : string + list string :=
  collect_next (outgoing_edges g current_node) state [].

(** ** The local variables of [run] (engine.py:151-156)

    [warnings] collects what [run] passes to [logger.warning]; [fn_calls]
    records, in order, the node whose function has been invoked. *)
Record Frame := {
  state : State;
  logs : list ExecutionLog;
  visited_sequence : list string;
  current_node_id : option string;
  loop_counter : gmap string Z;
  warnings : list Warning;
  fn_calls : list string;
}.

Definition with_state (f : Frame) (s : State) : Frame :=
  {| state := s; logs := logs f; visited_sequence := visited_sequence f;
     current_node_id := current_node_id f; loop_counter := loop_counter f;
     warnings := warnings f; fn_calls := fn_calls f |}.

Definition push_log (f : Frame) (e : ExecutionLog) : Frame :=
  {| state := state f; logs := logs f ++ [e];
     visited_sequence := visited_sequence f;
     current_node_id := current_node_id f; loop_counter := loop_counter f;
     warnings := warnings f; fn_calls := fn_calls f |}.

Definition push_visited (f : Frame) (n : string) : Frame :=
  {| state := state f; logs := logs f;
     visited_sequence := visited_sequence f ++ [n];
     current_node_id := current_node_id f; loop_counter := loop_counter f;
     warnings := warnings f; fn_calls := fn_calls f |}.

Definition with_current (f : Frame) (c : option string) : Frame :=
  {| state := state f; logs := logs f; visited_sequence := visited_sequence f;
     current_node_id := c; loop_counter := loop_counter f;
     warnings := warnings f; fn_calls := fn_calls f |}.

Definition with_counter (f : Frame) (n : string) (k : Z) : Frame :=
  {| state := state f; logs := logs f; visited_sequence := visited_sequence f;
     current_node_id := current_node_id f;
     loop_counter := <[n := k]> (loop_counter f);
     warnings := warnings f; fn_calls := fn_calls f |}.

Definition push_warning (f : Frame) (w : Warning) : Frame :=
  {| state := state f; logs := logs f; visited_sequence := visited_sequence f;
     current_node_id := current_node_id f; loop_counter := loop_counter f;
     warnings := warnings f ++ [w]; fn_calls := fn_calls f |}.

Definition push_call (f : Frame) (n : string) : Frame :=
  {| state := state f; logs := logs f; visited_sequence := visited_sequence f;
     current_node_id := current_node_id f; loop_counter := loop_counter f;
     warnings := warnings f; fn_calls := fn_calls f ++ [n] |}.

(** [loop_counter.get(n, 0)] *)
Definition counter_get (f : Frame) (n : string) : Z :=
  default 0 (loop_counter f !! n).

(** What one pass through the body of the [while] loop leaves: the frame,
    and the exception when the pass raised. *)
Inductive Step :=
| Next (f : Frame)
| Raise (f : Frame) (e : Raised).

Definition success_entry (n : string) (input output : State) : ExecutionLog :=
  {| node_id := n; status := "success"; input_state := input;
     output_state := output; error := None |}.

Definition error_entry (n : string) (input output : State) (msg : string)
    : ExecutionLog :=
  {| node_id := n; status := "error"; input_state := input;
     output_state := output; error := Some msg |}.

(** The [except Exception as e] handler (engine.py:226-237). *)
Definition handler (f : Frame) (cur : string) (input : State) (e : Raised)
    : Step :=
  Raise (push_log f (error_entry cur input (state f) (str_of e))) e.

(** Edge evaluation and the choice of the next node (engine.py:203-224). *)
Definition route (g : WorkflowGraph) (f : Frame) (cur : string)
    (input : State) : Step :=
  match _get_next_nodes g cur (state f) with
  | inl msg => handler f cur input (UserExc msg)
  | inr [] =>
      if bool_decide (cur ∉ end_nodes g) && negb (bool_decide (end_nodes g = ∅))
      then Next (with_current (push_warning f (EndedOutsideEndNodes cur)) None)
      else Next (with_current f None)
  | inr [n] => Next (with_current f (Some n))
  | inr (n :: ns) =>
      Next (with_current (push_warning f (MultipleNextNodes cur (n :: ns)))
              (Some n))
  end.

(** The loop bookkeeping at the head of the [try] block
    (engine.py:166-169): a loop node counts one more attempt. *)
Definition count_attempt (node : WorkflowNode) (f : Frame) (cur : string)
    : Frame :=
  if is_loop (node_type node)
  then with_counter f cur (counter_get f cur + 1)
  else f.

(** The test that raises the [RuntimeError] (engine.py:171-174). *)
Definition limit_exceeded (node : WorkflowNode) (f : Frame) (cur : string)
    : bool :=
  is_loop (node_type node)
  && (counter_get f cur >? max_iterations node)%Z
  && match loop_condition node with None => true | Some _ => false end.

(** Calling the node function, merging its result and logging the
    success (engine.py:181-190). *)
Definition invoke (node : WorkflowNode) (f : Frame) (cur : string)
    (input : State) : Step :=
  let '(mutated, outcome) := fn node (state f) in
  let f3 := push_call (with_state f mutated) cur in
  match outcome with
  | inl msg => handler f3 cur input (UserExc msg)
  | inr result =>
      let f4 := with_state f3 (result ∪ state f3) in
      Next (push_log f4 (success_entry cur input (state f4)))
  end.

(** After the success entry: loop again, or leave the loop and follow an
    edge (engine.py:193-224). *)
Definition continue_or_route (g : WorkflowGraph) (node : WorkflowNode)
    (f : Frame) (cur : string) (input : State) : Step :=
  match (if is_loop (node_type node) then loop_condition node else None) with
  | Some cond =>
      match cond (state f) with
      | inl msg => handler f cur input (UserExc msg)
      | inr true => Next f
      | inr false => route g (with_counter f cur 0) cur input
      end
  | None => route g f cur input
  end.

(** The body of the [while] loop for the current node [cur]
    (engine.py:159-237). *)
Definition body (g : WorkflowGraph) (f0 : Frame) (cur : string) : Step :=
  match nodes g !! cur with
  | None => Raise f0 (MissingNode cur)
  | Some node =>
      let f1 := push_visited f0 cur in
      let input := state f1 in
      let f2 := count_attempt node f1 cur in
      if limit_exceeded node f2 cur
      then handler f2 cur input (LoopLimit cur (max_iterations node))
      else
        match invoke node f2 cur input with
        | Raise f' e => Raise f' e
        | Next f5 => continue_or_route g node f5 cur input
        end
  end.

(** Truth value of [current_node_id] in [while current_node_id:] and of
    [self.start_node] in [if not self.start_node:]: [None] and the empty
    string are false. *)
Definition truthy (o : option string) : option string :=
  match o with
  | Some EmptyString => None
  | Some s => Some s
  | None => None
  end.

(** The [while] loop (engine.py:158-237) with [fuel] passes available;
    [None] when the fuel runs out. *)
Fixpoint while_loop (fuel : nat) (g : WorkflowGraph) (f : Frame)
    : option Step :=
  match truthy (current_node_id f) with
  | None => Some (Next f)
  | Some cur =>
      match fuel with
      | O => None
      | S fuel' =>
          match body g f cur with
          | Next f' => while_loop fuel' g f'
          | Raise f' e => Some (Raise f' e)
          end
      end
  end.

Definition initial_frame (g : WorkflowGraph) (initial_state : State) : Frame :=
  {| state := initial_state; logs := []; visited_sequence := [];
     current_node_id := start_node g; loop_counter := ∅;
     warnings := []; fn_calls := [] |}.

(** [run] with its local variables kept (engine.py:134-240). *)
Definition run_frame (fuel : nat) (g : WorkflowGraph) (initial_state : State)
    : option Step :=
  match truthy (start_node g) with
  | None => Some (Raise (initial_frame g initial_state) NoStartNode)
  | Some _ => while_loop fuel g (initial_frame g initial_state)
  end.

(** What the caller of [run] receives: the returned pair, or the
    exception that propagates. *)
Definition run (fuel : nat) (g : WorkflowGraph) (initial_state : State)
    : option (Raised + State * list ExecutionLog) :=
  match run_frame fuel g initial_state with
  | None => None
  | Some (Next f) => Some (inr (state f, logs f))
  | Some (Raise _ e) => Some (inl e)
  end.

End Engine.

Arguments ExecutionLog : clear implicits.
Arguments WorkflowNode : clear implicits.
Arguments WorkflowEdge : clear implicits.
Arguments WorkflowGraph : clear implicits.
Arguments Frame : clear implicits.
Arguments Step : clear implicits.

(** ** Python values and the operations the workflow uses

    A [str] is a [string] whose characters are the code points below
    256; a [float] is an IEEE 754 binary64 number. *)

#[warnings="-register-all"]
Inductive Val :=
| VNone
| VBool (b : bool)
| VInt (n : Z)
| VFloat (x : spec_float)
| VStr (s : string)
| VList (l : list Val)
| VDict (d : list (string * Val)).

(** [type(v).__name__] *)
Definition type_name (v : Val) : string :=
  match v with
  | VNone => "NoneType"
  | VBool _ => "bool"
  | VInt _ => "int"
  | VFloat _ => "float"
  | VStr _ => "str"
  | VList _ => "list"
  | VDict _ => "dict"
  end.

Definition newline : string := String "010"%char EmptyString.
Definition dquote : string := String "034"%char EmptyString.

(** *** Strings *)

(** [str.isspace] on one character. *)
Definition is_space (c : ascii) : bool :=
  let n := nat_of_ascii c in
  ((9 <=? n) && (n <=? 13) || (28 <=? n) && (n <=? 32)
   || (n =? 133) || (n =? 160))%nat.

Fixpoint lstrip (s : string) : string :=
  match s with
  | EmptyString => EmptyString
  | String c rest => if is_space c then lstrip rest else s
  end.

Fixpoint rstrip (s : string) : string :=
  match s with
  | EmptyString => EmptyString
  | String c rest =>
      match rstrip rest with
      | EmptyString => if is_space c then EmptyString else String c EmptyString
      | kept => String c kept
      end
  end.

Definition strip (s : string) : string := rstrip (lstrip s).

Definition startswith (s p : string) : bool := String.prefix p s.

(** [s.split(sep)] for a separator that is not empty: the first piece and
    the pieces after it.  [skip] characters of a separator just found are
    still to be passed over. *)
Fixpoint split_from (sep : string) (skip : nat) (s : string)
    : string * list string :=
  match s with
  | EmptyString => (EmptyString, [])
  | String c rest =>
      match skip with
      | S k => split_from sep k rest
      | O =>
          if String.prefix sep s
          then let '(piece, pieces) := split_from sep (String.length sep - 1)%nat rest
               in (EmptyString, piece :: pieces)
          else let '(piece, pieces) := split_from sep 0 rest
               in (String c piece, pieces)
      end
  end.

Definition split (s sep : string) : list string :=
  let '(piece, pieces) := split_from sep 0 s in piece :: pieces.

(** [s.count(sub)]: occurrences that do not overlap, from the left. *)
Fixpoint count_from (sub : string) (skip : nat) (s : string) : Z :=
  match s with
  | EmptyString => 0
  | String c rest =>
      match skip with
      | S k => count_from sub k rest
      | O =>
          if String.prefix sub s
          then 1 + count_from sub (String.length sub - 1)%nat rest
          else count_from sub 0 rest
      end
  end.

Definition str_count (s sub : string) : Z := count_from sub 0 s.

(** [sub in s] *)
Fixpoint str_contains (s sub : string) : bool :=
  String.prefix sub s ||
  match s with
  | EmptyString => false
  | String _ rest => str_contains rest sub
  end.

Definition len_str (s : string) : Z := Z.of_nat (String.length s).

(** *** Numbers: [bool], [int] and [float] *)

Definition prec : Z := 53.
Definition emax : Z := 1024.

Inductive Num :=
| NInt (n : Z)
| NFloat (x : spec_float).

Definition to_num (v : Val) : option Num :=
  match v with
  | VBool b => Some (NInt (if b then 1 else 0))
  | VInt n => Some (NInt n)
  | VFloat x => Some (NFloat x)
  | _ => None
  end.

Definition of_num (n : Num) : Val :=
  match n with
  | NInt n => VInt n
  | NFloat x => VFloat x
  end.

(** [float(n)] for an [int]: the nearest binary64 number, ties to even;
    [OverflowError] when there is none. *)
Definition float_of_int (n : Z) : string + spec_float :=
  match binary_normalize prec emax n 0 false with
  | S754_infinity _ => inl "int too large to convert to float"
  | x => inr x
  end.

(** The literal [0.1]. *)
Definition float_0_1 : spec_float :=
  S754_finite false 7205759403792794 (-56).

(** Exact comparison of an [int] with a [float]; [None] for a NaN. *)
Definition compare_int_float (n : Z) (x : spec_float) : option comparison :=
  match x with
  | S754_zero _ => Some (n ?= 0)
  | S754_infinity false => Some Lt
  | S754_infinity true => Some Gt
  | S754_nan => None
  | S754_finite s m e =>
      let sm := if s then Z.neg m else Z.pos m in
      if (0 <=? e)%Z
      then Some (n ?= sm * 2 ^ e)
      else Some (n * 2 ^ (- e) ?= sm)
  end.

Definition num_compare (a b : Num) : option comparison :=
  match a, b with
  | NInt m, NInt n => Some (m ?= n)
  | NInt m, NFloat y => compare_int_float m y
  | NFloat x, NInt n => option_map CompOpp (compare_int_float n x)
  | NFloat x, NFloat y => SFcompare x y
  end.

(** [a < b] and [a > b] *)
Definition num_lt (a b : Num) : bool :=
  match num_compare a b with Some Lt => true | _ => false end.

Definition num_gt (a b : Num) : bool :=
  match num_compare a b with Some Gt => true | _ => false end.

(** Binary arithmetic: on two [int]s exact, otherwise on [float]s after
    converting the [int] operand. *)
Definition num_arith (fz : Z → Z → Z)
    (ff : spec_float → spec_float → spec_float) (a b : Num) : string + Num :=
  match a, b with
  | NInt m, NInt n => inr (NInt (fz m n))
  | NInt m, NFloat y =>
      match float_of_int m with
      | inl msg => inl msg
      | inr x => inr (NFloat (ff x y))
      end
  | NFloat x, NInt n =>
      match float_of_int n with
      | inl msg => inl msg
      | inr y => inr (NFloat (ff x y))
      end
  | NFloat x, NFloat y => inr (NFloat (ff x y))
  end.

Definition num_add := num_arith Z.add (SFadd prec emax).
Definition num_sub := num_arith Z.sub (SFsub prec emax).
Definition num_mul := num_arith Z.mul (SFmul prec emax).

(** *** Exceptions as [inl] of their message *)

Definition bind {A B : Type} (m : string + A) (k : A → string + B)
    : string + B :=
  match m with
  | inl msg => inl msg
  | inr a => k a
  end.

Notation "'do' x <- m ; k" := (bind m (λ x, k))
  (at level 10, x name, m at level 100, k at level 200,
   format "'[v' 'do'  x  <-  m ; '/' k ']'").

Definition attribute_error {A : Type} (v : Val) (attr : string) : string + A :=
  inl ("'" ++ type_name v ++ "' object has no attribute '" ++ attr ++ "'").

(** [v.split(sep)] *)
Definition method_split (v : Val) (sep : string) : string + list string :=
  match v with
  | VStr s => inr (split s sep)
  | _ => attribute_error v "split"
  end.

(** [v == s] for a [str] [s] *)
Definition eq_str (v : Val) (s : string) : bool :=
  match v with
  | VStr t => bool_decide (t = s)
  | _ => false
  end.

(** [v.count(s)] for a [str] [s]; a [list] has the method as well. *)
Definition method_count (v : Val) (s : string) : string + Z :=
  match v with
  | VStr t => inr (str_count t s)
  | VList l => inr (Z.of_nat (List.length (List.filter (λ x, eq_str x s) l)))
  | _ => attribute_error v "count"
  end.

(** [s in v] for a [str] [s] *)
Definition contains (s : string) (v : Val) : string + bool :=
  match v with
  | VStr t => inr (str_contains t s)
  | VList l => inr (existsb (λ x, eq_str x s) l)
  | VDict d => inr (existsb (λ kv, bool_decide (fst kv = s)) d)
  | _ => inl ("argument of type '" ++ type_name v ++ "' is not iterable")
  end.

Definition unsupported {A : Type} (op : string) (a b : Val) : string + A :=
  inl ("'" ++ op ++ "' not supported between instances of '"
       ++ type_name a ++ "' and '" ++ type_name b ++ "'").

(** [a < b] and [a > b]; the workflow compares with an [int] only, so two
    operands that are not numbers raise. *)
Definition lt (a b : Val) : string + bool :=
  match to_num a, to_num b with
  | Some x, Some y => inr (num_lt x y)
  | _, _ => unsupported "<" a b
  end.

Definition gt (a b : Val) : string + bool :=
  match to_num a, to_num b with
  | Some x, Some y => inr (num_gt x y)
  | _, _ => unsupported ">" a b
  end.

(** [v + 1] *)
Definition add_one (v : Val) : string + Val :=
  match to_num v with
  | Some x => do y <- num_add x (NInt 1); inr (of_num y)
  | None =>
      match v with
      | VStr _ | VList _ =>
          inl ("can only concatenate " ++ type_name v ++ " (not " ++ dquote
               ++ "int" ++ dquote ++ ") to " ++ type_name v)
      | _ =>
          inl ("unsupported operand type(s) for +: '" ++ type_name v
               ++ "' and 'int'")
      end
  end.

(** ** The code-review workflow (workflows.py) *)

Abbreviation State := (gmap string Val).

(** [state.get(key, default)] *)
Definition get (state : State) (key : string) (default : Val) : Val :=
  match state !! key with
  | Some v => v
  | None => default
  end.

(** [line.split("def ")[1].split("(")[0]] *)
Definition func_name (line : string) : string + string :=
  match split line "def " with
  | _ :: after :: _ =>
      match split after "(" with
      | name :: _ => inr name
      | [] => inl "list index out of range"
      end
  | _ => inl "list index out of range"
  end.

(** The [for] loop of [extract_functions] (workflows.py:42-45). *)
Fixpoint collect_functions (lines : list string) (functions : list string)
    : string + list string :=
  match lines with
  | [] => inr functions
  | line :: rest =>
      if startswith (strip line) "def "
      then do name <- func_name line;
           collect_functions rest (functions ++ [name])
      else collect_functions rest functions
  end.

Definition extract_functions (state : State) : string + State :=
  let code := get state "code" (VStr EmptyString) in
  do lines <- method_split code newline;
  do functions <- collect_functions lines [];
  do iteration <- add_one (get state "iteration" (VInt 0));
  inr (<["functions" := VList (VStr <$> functions)]>
       (<["function_count" := VInt (Z.of_nat (List.length functions))]>
        (<["iteration" := iteration]> ∅))).

(** The [for] loop of [check_complexity] (workflows.py:63-67). *)
Fixpoint count_deep (lines : list string) (complexity_issues : Z) : Z :=
  match lines with
  | [] => complexity_issues
  | line :: rest =>
      let indent_level := len_str line - len_str (lstrip line) in
      if indent_level >? 8
      then count_deep rest (complexity_issues + 1)
      else count_deep rest complexity_issues
  end.

Definition check_complexity (state : State) : string + State :=
  let code := get state "code" (VStr EmptyString) in
  do lines <- method_split code newline;
  let complexity_issues := count_deep lines 0 in
  let complexity_score := Z.max 0 (100 - complexity_issues * 5) in
  inr (<["complexity_issues" := VInt complexity_issues]>
       (<["complexity_score" := VInt complexity_score]> ∅)).

Definition detect_issues (state : State) : string + State :=
  let code := get state "code" (VStr EmptyString) in
  do newlines <- method_count code newline;
  let issues := if newlines >? 30 then ["Long function"] else [] in
  let func_count := get state "function_count" (VInt 0) in
  do docstring_count <- method_count code (dquote ++ dquote ++ dquote);
  do missing <- lt (VInt docstring_count) func_count;
  let issues := if missing then (issues ++ ["Missing docstrings"])%list else issues in
  do has_import <- contains "import" code;
  do unused <- (if has_import
                then do imports <- method_count code "import";
                     gt (VInt imports) func_count
                else inr false);
  let issues := if unused then (issues ++ ["Potential unused imports"])%list
                else issues in
  let issues_count := Z.of_nat (List.length issues) in
  inr (<["issues" := VList (VStr <$> issues)]>
       (<["issue_count" := VInt issues_count]> ∅)).

(** Arithmetic on values; the operands have passed a comparison with an
    [int] before, so they are numbers. *)
Definition arith (op : string) (f : Num → Num → string + Num) (a b : Val)
    : string + Val :=
  match to_num a, to_num b with
  | Some x, Some y => do r <- f x y; inr (of_num r)
  | _, _ =>
      inl ("unsupported operand type(s) for " ++ op ++ ": '" ++ type_name a
           ++ "' and '" ++ type_name b ++ "'")
  end.

Definition sub := arith "-" num_sub.
Definition mul := arith "*" num_mul.

(** [max(a, b)] keeps [a] unless [b > a]; [min(a, b)] keeps [a] unless
    [b < a]. *)
Definition max_val (a b : Val) : string + Val :=
  do above <- gt b a; inr (if above then b else a).

Definition min_val (a b : Val) : string + Val :=
  do below <- lt b a; inr (if below then b else a).

Definition suggest_improvements (state : State) : string + State :=
  let issues := get state "issues" (VList []) in
  let complexity_score := get state "complexity_score" (VInt 50) in
  let issue_count := get state "issue_count" (VInt 0) in
  do many <- gt issue_count (VInt 2);
  let suggestions := if many then ["Refactor into smaller functions"] else [] in
  do nested <- lt complexity_score (VInt 60);
  let suggestions := if nested then (suggestions ++ ["Reduce nesting depth"])%list
                     else suggestions in
  do undocumented <- contains "Missing docstrings" issues;
  let suggestions := if undocumented
                     then (suggestions ++ ["Add comprehensive docstrings"])%list
                     else suggestions in
  do imports <- contains "Potential unused imports" issues;
  let suggestions := if imports then (suggestions ++ ["Clean up imports"])%list
                     else suggestions in
  let quality_score := VInt 100 in
  do penalty <- mul issue_count (VInt 10);
  do quality_score <- sub quality_score penalty;
  do gap <- sub (VInt 100) complexity_score;
  do gap <- max_val (VInt 0) gap;
  do penalty <- mul gap (VFloat float_0_1);
  do quality_score <- sub quality_score penalty;
  do capped <- min_val (VInt 100) quality_score;
  do quality_score <- max_val (VInt 0) capped;
  inr (<["suggestions" := VList (VStr <$> suggestions)]>
       (<["quality_score" := quality_score]> ∅)).

(** A node function that leaves the dictionary it is given as it is. *)
Definition reading (f : State → string + State)
    : State → State * (string + State) :=
  λ state, (state, f state).

(** [setup_code_review_workflow] (workflows.py:141-156); the tool
    registry it receives is not used. *)
Definition setup_code_review_workflow : string + WorkflowGraph Val :=
  do g <- add_node new_graph "extract" (reading extract_functions)
            STANDARD None 10;
  do g <- add_node g "complexity" (reading check_complexity) STANDARD None 10;
  do g <- add_node g "detect_issues" (reading detect_issues) STANDARD None 10;
  do g <- add_node g "suggest" (reading suggest_improvements)
            STANDARD None 10;
  do g <- add_edge g "extract" "complexity" None;
  do g <- add_edge g "complexity" "detect_issues" None;
  do g <- add_edge g "detect_issues" "suggest" None;
  do g <- set_start_node g "extract";
  set_end_nodes g ["suggest"].

(** The number of lines of [code] whose stripped form starts with
    ["def "]. *)
Definition def_lines (code : string) : nat :=
  List.length (List.filter (λ line, startswith (strip line) "def ")
                 (split code newline)).

(** ** Runs as sequences of passes through the loop body *)

Section Passes.

Context {V : Type}.

(** [steps g n f f']: from the frame [f], [n] passes through the body of
    the [while] loop, none of which raises, lead to the frame [f']. *)
Inductive steps (g : WorkflowGraph V) : nat → Frame V → Frame V → Prop :=
| steps_O f : steps g 0 f f
| steps_S n f cur f1 f' :
    truthy (current_node_id f) = Some cur →
    body g f cur = Next f1 →
    steps g n f1 f' →
    steps g (S n) f f'.

(** The frames a run of [g] from [initial_state] goes through. *)
Definition reached (g : WorkflowGraph V) (initial_state : gmap string V)
    (n : nat) (f : Frame V) : Prop :=
  is_Some (truthy (start_node g)) ∧ steps g n (initial_frame g initial_state) f.

(** The number of attempts at the node [n] so far. *)
Definition attempts (f : Frame V) (n : string) : Z :=
  Z.of_nat (List.length (List.filter (λ m, bool_decide (m = n))
                           (visited_sequence f))).

(** The warning of engine.py:208-212, if any. *)
Definition end_warning (g : WorkflowGraph V) (cur : string) : list Warning :=
  if bool_decide (cur ∉ end_nodes g) && negb (bool_decide (end_nodes g = ∅))
  then [EndedOutsideEndNodes cur] else [].

(** The frame at the call of the node function: the visit is recorded
    and, for a loop node, the attempt counted (engine.py:160-169). *)
Definition entered (node : WorkflowNode V) (f : Frame V) (cur : string)
    : Frame V :=
  count_attempt node (push_visited f cur) cur.

(** During the pass at [cur] from the frame [f], the node function, the
    loop condition or an edge condition raises an exception with the
    message [msg]. *)
Definition raises_at (g : WorkflowGraph V) (f : Frame V) (cur msg : string)
    : Prop :=
  ∃ node,
    nodes g !! cur = Some node
    ∧ limit_exceeded node (entered node f cur) cur = false
    ∧ match fn node (state f) with
      | (_, inl m) => m = msg
      | (mutated, inr result) =>
          match (if is_loop (node_type node)
                 then loop_condition node else None) with
          | Some cond =>
              match cond (result ∪ mutated) with
              | inl m => m = msg
              | inr true => False
              | inr false =>
                  _get_next_nodes g cur (result ∪ mutated) = inl msg
              end
          | None => _get_next_nodes g cur (result ∪ mutated) = inl msg
          end
      end.

(** The graph [g] with other edges. *)
Definition with_edges (g : WorkflowGraph V) (es : list (WorkflowEdge V))
    : WorkflowGraph V :=
  {| nodes := nodes g; edges := es; start_node := start_node g;
     end_nodes := end_nodes g |}.

(** An edge without condition, or whose condition is true on [st]. *)
Definition eligible (st : gmap string V) (e : WorkflowEdge V) : bool :=
  match condition e with
  | None => true
  | Some cond =>
      match cond st with
      | inr true => true
      | _ => false
      end
  end.

(** The conditions of the edges [es] all evaluate on [st]. *)
Definition conditions_evaluate (st : gmap string V)
    (es : list (WorkflowEdge V)) : Prop :=
  ∀ e cond, In e es → condition e = Some cond → ∃ b, cond st = inr b.

(** After the node function, the pass at [node] goes on to the edges: the
    node is not a loop node with a condition, or the condition is false
    on [st]. *)
Definition leaves_loop (node : WorkflowNode V) (st : gmap string V) : Prop :=
  match (if is_loop (node_type node) then loop_condition node else None) with
  | Some cond => cond st = inr false
  | None => True
  end.

(** The frame after [n] passes from [f], and whether these passes all
    take place without raising. *)
Fixpoint advance (n : nat) (g : WorkflowGraph V) (f : Frame V) : Frame V :=
  match n with
  | O => f
  | S n' =>
      match truthy (current_node_id f) with
      | Some cur =>
          match body g f cur with
          | Next f' => advance n' g f'
          | Raise _ _ => f
          end
      | None => f
      end
  end.

Fixpoint advances (n : nat) (g : WorkflowGraph V) (f : Frame V) : bool :=
  match n with
  | O => true
  | S n' =>
      match truthy (current_node_id f) with
      | Some cur =>
          match body g f cur with
          | Next f' => advances n' g f'
          | Raise _ _ => false
          end
      | None => false
      end
  end.

End Passes.

(** ** Small graphs used as examples *)

Definition raising (msg : string)
    : gmap string Val → gmap string Val * (string + gmap string Val) :=
  λ state, (state, inl msg).

Definition returning (result : gmap string Val)
    : gmap string Val → gmap string Val * (string + gmap string Val) :=
  λ state, (state, inr result).

Definition standard_node (node_id : string)
    (fn : gmap string Val → gmap string Val * (string + gmap string Val))
    : WorkflowNode Val :=
  {| id := node_id; fn := fn; node_type := STANDARD;
     loop_condition := None; max_iterations := 10 |}.

Definition plain_edge (from_node to_node : string) : WorkflowEdge Val :=
  {| from_node := from_node; to_node := to_node; condition := None |}.

(** One node, [b], whose function raises. *)
Definition graph_b : WorkflowGraph Val :=
  {| nodes := {[ "b" := standard_node "b" (raising "boom") ]};
     edges := []; start_node := Some "b"; end_nodes := ∅ |}.

(** [a → b]: [a] returns, [b] raises the same exception. *)
Definition graph_ab : WorkflowGraph Val :=
  {| nodes := <["a" := standard_node "a" (returning ∅)]>
                {[ "b" := standard_node "b" (raising "boom") ]};
     edges := [plain_edge "a" "b"]; start_node := Some "a"; end_nodes := ∅ |}.

(** One node, [m], whose function writes into the dictionary it is given
    and returns an empty mapping. *)
Definition graph_m : WorkflowGraph Val :=
  {| nodes := {[ "m" := standard_node "m"
                          (λ state, (<["touched" := VBool true]> state,
                                     inr ∅)) ]};
     edges := []; start_node := Some "m"; end_nodes := ∅ |}.

(** A loop node [l] with an edge back to itself, with the bound
    [max_iterations] and the loop condition [loop_condition]. *)
Definition graph_loop (max_iterations : Z)
    (loop_condition : option (gmap string Val → string + bool))
    : WorkflowGraph Val :=
  {| nodes := {[ "l" := {| id := "l"; fn := returning ∅; node_type := LOOP;
                           loop_condition := loop_condition;
                           max_iterations := max_iterations |} ]};
     edges := [plain_edge "l" "l"]; start_node := Some "l"; end_nodes := ∅ |}.

(** The loop condition "the key [again] is in the state". *)
Definition has_again (state : gmap string Val) : string + bool :=
  inr (bool_decide (is_Some (state !! "again"))).

(** [a] with the edges [a → b] and [a → c], added in this order, both
    without condition. *)
Definition graph_branch : WorkflowGraph Val :=
  {| nodes := <["a" := standard_node "a" (returning ∅)]>
                (<["b" := standard_node "b" (returning {[ "at" := VStr "b" ]})]>
                   {[ "c" := standard_node "c"
                               (returning {[ "at" := VStr "c" ]}) ]});
     edges := [plain_edge "a" "b"; plain_edge "a" "c"];
     start_node := Some "a"; end_nodes := {[ "c" ]} |}.

(** The graph [setup_code_review_workflow] returns. *)
Definition code_review_graph : WorkflowGraph Val :=
  match setup_code_review_workflow with
  | inr g => g
  | inl _ => new_graph
  end.

(** A text with two function definitions. *)
Definition two_defs : string :=
  "def first(x):" ++ newline ++ "    return x" ++ newline
  ++ "def second(y):" ++ newline ++ "    return y" ++ newline.

(** The code reviewed in [test_workflow.py]. *)
Definition sample_code : string :=
  "def process_data(items):" ++ newline
  ++ "    for item in items:" ++ newline
  ++ "        if item[" ++ dquote ++ "type" ++ dquote ++ "] == "
  ++ dquote ++ "active" ++ dquote ++ ":" ++ newline
  ++ "            for sub_item in item[" ++ dquote ++ "children" ++ dquote
  ++ "]:" ++ newline
  ++ "                if sub_item[" ++ dquote ++ "value" ++ dquote
  ++ "] > 100:" ++ newline
  ++ "                    if sub_item[" ++ dquote ++ "valid" ++ dquote
  ++ "]:" ++ newline
  ++ "                        print(f" ++ dquote ++ "Processing {sub_item}"
  ++ dquote ++ ")" ++ newline
  ++ newline
  ++ "def clean_input(data):" ++ newline
  ++ "    return data.strip()" ++ newline.

(** What a finished run holds under [key] in its final state, and the
    nodes and statuses of its log. *)
Definition final_value (key : string)
    (r : option (Raised + gmap string Val * list (ExecutionLog Val)))
    : option Val :=
  match r with
  | Some (inr (final, _)) => final !! key
  | _ => None
  end.

Definition logged
    (r : option (Raised + gmap string Val * list (ExecutionLog Val)))
    : list (string * string) :=
  match r with
  | Some (inr (_, lg)) => (λ e, (node_id e, status e)) <$> lg
  | _ => []
  end.


(** ** Building a graph step by step (engine.py:66-116) *)

Section Building.

Context {V : Type}.

(** One call of a builder method. *)
Inductive Op :=
| AddNode (node_id : string)
    (fn : gmap string V → gmap string V * (string + gmap string V))
    (node_type : NodeType)
    (loop_condition : option (gmap string V → string + bool))
    (max_iterations : Z)
| AddEdge (from_node to_node : string)
    (condition : option (gmap string V → string + bool))
| SetStartNode (node_id : string)
| SetEndNodes (node_ids : list string).

Definition apply_op (g : WorkflowGraph V) (op : Op) : string + WorkflowGraph V :=
  match op with
  | AddNode node_id fn node_type loop_condition max_iterations =>
      add_node g node_id fn node_type loop_condition max_iterations
  | AddEdge from_node to_node condition =>
      add_edge g from_node to_node condition
  | SetStartNode node_id => set_start_node g node_id
  | SetEndNodes node_ids => set_end_nodes g node_ids
  end.

(** The calls [ops] made one after the other on [g]; the first
    [ValueError] ends the sequence. *)
Fixpoint build (g : WorkflowGraph V) (ops : list Op) : string + WorkflowGraph V :=
  match ops with
  | [] => inr g
  | op :: rest =>
      match apply_op g op with
      | inl msg => inl msg
      | inr g' => build g' rest
      end
  end.

Definition sets_start (op : Op) : bool :=
  match op with
  | SetStartNode _ => true
  | _ => false
  end.

(** Every id the graph refers to is the id of one of its nodes, a node
    is stored under its own id, and only a graph without nodes has no
    start node. *)
Definition well_formed (g : WorkflowGraph V) : Prop :=
  (∀ e, In e (edges g) →
        is_Some (nodes g !! from_node e) ∧ is_Some (nodes g !! to_node e))
  ∧ (∀ s, start_node g = Some s → is_Some (nodes g !! s))
  ∧ (∀ n, n ∈ end_nodes g → is_Some (nodes g !! n))
  ∧ (start_node g = None → nodes g = ∅)
  ∧ (∀ n node, nodes g !! n = Some node → id node = n).

(** The graph with its branch nodes declared standard. *)
Definition as_standard (node : WorkflowNode V) : WorkflowNode V :=
  {| id := id node; fn := fn node;
     node_type := match node_type node with
                  | BRANCH => STANDARD
                  | t => t
                  end;
     loop_condition := loop_condition node;
     max_iterations := max_iterations node |}.

Definition without_branch (g : WorkflowGraph V) : WorkflowGraph V :=
  {| nodes := as_standard <$> nodes g; edges := edges g;
     start_node := start_node g; end_nodes := end_nodes g |}.

(** The frame a finished run leaves, whether it returned or raised. *)
Definition last_frame (r : Step V) : Frame V :=
  match r with
  | Next f => f
  | Raise f _ => f
  end.

(** A log of successes only. *)
Definition successes (log : list (ExecutionLog V)) : Prop :=
  Forall (λ e, status e = "success" ∧ error e = None) log.

End Building.


(** ** Dictionaries whose key order is observed

    [list(d.keys())] and the iteration over [d.items()] give the keys in
    the order in which they were first inserted; assigning to a key that
    is there keeps its place. *)

Section OrderedDict.

Context {A : Type}.

(** [d.get(key)] *)
Fixpoint od_get (d : list (string * A)) (key : string) : option A :=
  match d with
  | [] => None
  | (k, v) :: rest => if bool_decide (k = key) then Some v else od_get rest key
  end.

(** [d[key] = value] *)
Fixpoint od_set (d : list (string * A)) (key : string) (value : A)
    : list (string * A) :=
  match d with
  | [] => [(key, value)]
  | (k, v) :: rest =>
      if bool_decide (k = key) then (key, value) :: rest
      else (k, v) :: od_set rest key value
  end.

(** [list(d.keys())] *)
Definition od_keys (d : list (string * A)) : list string := fst <$> d.

End OrderedDict.

(** The ids of [ids] that are not in [seen], each once, in the order of
    their first occurrence. *)
Fixpoint distinct (seen ids : list string) : list string :=
  match ids with
  | [] => []
  | i :: rest =>
      if bool_decide (i ∈ seen) then distinct seen rest
      else i :: distinct (seen ++ [i]) rest
  end.

(** ** The store of graphs and runs (engine.py:243-274) *)

Module GraphStore.

Section Store.

Context {V : Type}.

Record t := {
  graphs : list (string * WorkflowGraph V);
  runs : list (string * (gmap string V * list (ExecutionLog V)));
}.

Definition empty : t := {| graphs := []; runs := [] |}.

Definition save_graph (s : t) (graph_id : string) (graph : WorkflowGraph V) : t :=
  {| graphs := od_set (graphs s) graph_id graph; runs := runs s |}.

Definition load_graph (s : t) (graph_id : string) : option (WorkflowGraph V) :=
  od_get (graphs s) graph_id.

Definition save_run (s : t) (run_id : string) (state : gmap string V)
    (logs : list (ExecutionLog V)) : t :=
  {| graphs := graphs s; runs := od_set (runs s) run_id (state, logs) |}.

Definition load_run (s : t) (run_id : string)
    : option (gmap string V * list (ExecutionLog V)) :=
  od_get (runs s) run_id.

Definition list_graphs (s : t) : list string := od_keys (graphs s).

Definition list_runs (s : t) : list string := od_keys (runs s).

(** Graphs saved one after the other. *)
Fixpoint save_graphs (s : t) (gs : list (string * WorkflowGraph V)) : t :=
  match gs with
  | [] => s
  | (graph_id, graph) :: rest => save_graphs (save_graph s graph_id graph) rest
  end.

End Store.

Arguments t : clear implicits.

End GraphStore.

(** ** The tool registry (tools.py) *)

Module ToolRegistry.

Section Registry.

(** A tool is a function of its keyword arguments, which may raise, with
    its docstring [fn.__doc__]. *)
Context {Kwargs Result : Type}.

Record Tool := {
  doc : option string;
  apply : Kwargs → string + Result;
}.

(** Records of the module logger. *)
Inductive Record_ :=
| Warn (msg : string)
| Info (msg : string).

(** [self.tools] *)
Definition t := list (string * Tool).

Definition empty : t := [].

Definition exists_ (r : t) (name : string) : bool :=
  match od_get r name with
  | Some _ => true
  | None => false
  end.

(** [register]: the registry it leaves and what it logs. *)
Definition register (r : t) (name : string) (fn : Tool) : t * list Record_ :=
  (od_set r name fn,
   (if exists_ r name
    then [Warn ("Tool '" ++ name ++ "' is being overwritten")]
    else [])
   ++ [Info ("Registered tool: " ++ name)])%list.

Definition get (r : t) (name : string) : string + Tool :=
  match od_get r name with
  | Some fn => inr fn
  | None => inl ("Tool '" ++ name ++ "' not registered")
  end.

Definition call (r : t) (name : string) (kwargs : Kwargs) : string + Result :=
  match get r name with
  | inl msg => inl msg
  | inr fn => apply fn kwargs
  end.

(** [fn.__doc__ or "No description"] *)
Definition description (fn : Tool) : string :=
  match doc fn with
  | None => "No description"
  | Some EmptyString => "No description"
  | Some text => text
  end.

Definition list_tools (r : t) : list (string * string) :=
  (λ entry, (fst entry, description (snd entry))) <$> r.

End Registry.

Arguments Tool : clear implicits.
Arguments t : clear implicits.

End ToolRegistry.


(** ** The code-review workflow as a pipeline *)

(** Functions called one after the other, each on the state merged with
    what the ones before it returned, with the log this leaves; the first
    exception ends the sequence. *)
Fixpoint chain (fs : list (string * (gmap string Val → string + gmap string Val)))
    (state : gmap string Val) (log : list (ExecutionLog Val))
    : Raised + gmap string Val * list (ExecutionLog Val) :=
  match fs with
  | [] => inr (state, log)
  | (node_id, h) :: rest =>
      match h state with
      | inl msg => inl (UserExc msg)
      | inr result =>
          chain rest (result ∪ state)
            (log ++ [success_entry node_id state (result ∪ state)])
      end
  end.

Definition code_review_steps
    : list (string * (gmap string Val → string + gmap string Val)) :=
  [("extract", extract_functions); ("complexity", check_complexity);
   ("detect_issues", detect_issues); ("suggest", suggest_improvements)].

(** The keys the four node functions write. *)
Definition code_review_keys : list string :=
  ["functions"; "function_count"; "iteration";
   "complexity_issues"; "complexity_score";
   "issues"; "issue_count"; "suggestions"; "quality_score"].

(** The lines of [code] that start with more than eight blanks. *)
Definition deep_lines (code : string) : list string :=
  List.filter (λ line, len_str line - len_str (lstrip line) >? 8)
    (split code newline).

(** [setup_example_workflows] (workflows.py:159-171) *)
Definition setup_example_workflows
    : string + list (string * WorkflowGraph Val) :=
  do g <- setup_code_review_workflow; inr [("code_review", g)].


(** ** The HTTP handlers (main.py), with the records of schemas.py

    A handler is a function of the store and the request; it gives the
    store it leaves and the response, or the [HTTPException] it raises.
    What FastAPI does with the returned record (validation,
    serialization) is not part of it. *)

Module NodeDefinition.
Record t := { id : string; node_type : string }.
End NodeDefinition.

Module EdgeDefinition.
Record t := { from_node : string; to_node : string; conditional : bool }.
End EdgeDefinition.

Module GraphCreateRequest.
Record t := {
  graph_id : string;
  nodes : list NodeDefinition.t;
  edges : list EdgeDefinition.t;
  start_node : string;
  end_nodes : list string;
}.
End GraphCreateRequest.

Module GraphCreateResponse.
Record t := { graph_id : string; status : string }.
End GraphCreateResponse.

Module GraphRunRequest.
Record t := { graph_id : string; initial_state : gmap string Val }.
End GraphRunRequest.

Module ExecutionLogItem.
Record t := { node_id : string; status : string; error : option string }.
End ExecutionLogItem.

Module GraphRunResponse.
Record t := {
  run_id : string;
  final_state : gmap string Val;
  execution_logs : list ExecutionLogItem.t;
  status : string;
}.
End GraphRunResponse.

Module GraphStateResponse.
Record t := {
  run_id : string;
  state : gmap string Val;
  logs : list ExecutionLogItem.t;
}.
End GraphStateResponse.

Record HTTPException := { status_code : Z; detail : string }.

(** The checks of [create_graph] on the end nodes and on the edges
    (main.py:79-87): the message of the first [ValueError], if any. *)
Fixpoint check_end_nodes (node_ids end_nodes : list string) : option string :=
  match end_nodes with
  | [] => None
  | end_node :: rest =>
      if bool_decide (end_node ∈ node_ids) then check_end_nodes node_ids rest
      else Some ("End node '" ++ end_node ++ "' not in nodes")
  end.

Fixpoint check_edges (node_ids : list string) (edges : list EdgeDefinition.t)
    : option string :=
  match edges with
  | [] => None
  | edge :: rest =>
      if bool_decide (EdgeDefinition.from_node edge ∈ node_ids)
      then if bool_decide (EdgeDefinition.to_node edge ∈ node_ids)
           then check_edges node_ids rest
           else Some ("Edge references unknown node: "
                      ++ EdgeDefinition.to_node edge)
      else Some ("Edge references unknown node: "
                 ++ EdgeDefinition.from_node edge)
  end.

(** [POST /graph/create] (main.py:58-97); the store is not among what
    the handler uses. *)
Definition create_graph (request : GraphCreateRequest.t)
    : HTTPException + GraphCreateResponse.t :=
  let node_ids := NodeDefinition.id <$> GraphCreateRequest.nodes request in
  let checked :=
    if bool_decide (GraphCreateRequest.start_node request ∈ node_ids)
    then match check_end_nodes node_ids
                 (GraphCreateRequest.end_nodes request) with
         | Some msg => Some msg
         | None => check_edges node_ids (GraphCreateRequest.edges request)
         end
    else Some ("Start node '" ++ GraphCreateRequest.start_node request
               ++ "' not in nodes") in
  match checked with
  | Some msg => inl {| status_code := 400; detail := msg |}
  | None =>
      inr {| GraphCreateResponse.graph_id :=
               GraphCreateRequest.graph_id request;
             GraphCreateResponse.status := "created" |}
  end.

(** The list comprehension that turns the log into response items. *)
Definition log_items (logs : list (ExecutionLog Val))
    : list ExecutionLogItem.t :=
  (λ log, {| ExecutionLogItem.node_id := node_id log;
             ExecutionLogItem.status := status log;
             ExecutionLogItem.error := error log |}) <$> logs.

Section Handlers.

(** Whether the exception a node function or a condition raised with
    this message is a [ValueError]: the engine keeps the message of such
    an exception only, the handler looks at its class. *)
Variable value_error : string → bool.

(** [isinstance(e, ValueError)] for what [run] lets out. *)
Definition is_value_error (e : Raised) : bool :=
  match e with
  | NoStartNode => true
  | MissingNode _ => false
  | LoopLimit _ _ => false
  | UserExc msg => value_error msg
  end.

(** [POST /graph/run] (main.py:100-146); [run_id] is the identifier
    [uuid.uuid4()] gives, [None] a run that does not end within the
    fuel. *)
Definition run_graph (fuel : nat) (store : GraphStore.t Val) (run_id : string)
    (request : GraphRunRequest.t)
    : option (GraphStore.t Val * (HTTPException + GraphRunResponse.t)) :=
  match GraphStore.load_graph store (GraphRunRequest.graph_id request) with
  | None =>
      Some (store,
            inl {| status_code := 400;
                   detail := "Graph '" ++ GraphRunRequest.graph_id request
                             ++ "' not found" |})
  | Some graph =>
      match run fuel graph (GraphRunRequest.initial_state request) with
      | None => None
      | Some (inl e) =>
          Some (store,
                inl (if is_value_error e
                     then {| status_code := 400; detail := str_of e |}
                     else {| status_code := 500;
                             detail := "Internal server error: "
                                       ++ str_of e |}))
      | Some (inr (final_state, execution_logs)) =>
          Some (GraphStore.save_run store run_id final_state execution_logs,
                inr {| GraphRunResponse.run_id := run_id;
                       GraphRunResponse.final_state := final_state;
                       GraphRunResponse.execution_logs :=
                         log_items execution_logs;
                       GraphRunResponse.status := "completed" |})
      end
  end.

End Handlers.

(** [GET /graph/state/{run_id}] (main.py:149-178) *)
Definition get_graph_state (store : GraphStore.t Val) (run_id : string)
    : HTTPException + GraphStateResponse.t :=
  match GraphStore.load_run store run_id with
  | None =>
      inl {| status_code := 404;
             detail := "Run '" ++ run_id ++ "' not found" |}
  | Some (final_state, execution_logs) =>
      inr {| GraphStateResponse.run_id := run_id;
             GraphStateResponse.state := final_state;
             GraphStateResponse.logs := log_items execution_logs |}
  end.

(** [GET /graphs] and [GET /runs] (main.py:181-198): the ids and their
    number. *)
Definition list_graphs (store : GraphStore.t Val) : list string * Z :=
  let graphs := GraphStore.list_graphs store in
  (graphs, Z.of_nat (List.length graphs)).

Definition list_runs (store : GraphStore.t Val) : list string * Z :=
  let runs := GraphStore.list_runs store in
  (runs, Z.of_nat (List.length runs)).

(** The store when the module is loaded (main.py:39-46): the example
    workflows, saved one after the other. *)
Definition graph_store : string + GraphStore.t Val :=
  do example_workflows <- setup_example_workflows;
  inr (GraphStore.save_graphs GraphStore.empty example_workflows).

(** The requests that reach the store, and the store after a sequence of
    them. *)
Inductive Request :=
| PostGraphCreate (request : GraphCreateRequest.t)
| PostGraphRun (run_id : string) (request : GraphRunRequest.t)
| GetGraphState (run_id : string)
| GetGraphs
| GetRuns.

Section Server.

Variable value_error : string → bool.

Definition serve (fuel : nat) (store : GraphStore.t Val) (r : Request)
    : option (GraphStore.t Val) :=
  match r with
  | PostGraphRun run_id request =>
      match run_graph value_error fuel store run_id request with
      | Some (store', _) => Some store'
      | None => None
      end
  | _ => Some store
  end.

Fixpoint serve_all (fuel : nat) (store : GraphStore.t Val) (rs : list Request)
    : option (GraphStore.t Val) :=
  match rs with
  | [] => Some store
  | r :: rest =>
      match serve fuel store r with
      | Some store' => serve_all fuel store' rest
      | None => None
      end
  end.

End Server.

(** Every id the request refers to is the id of one of its nodes. *)
Definition references_declared (request : GraphCreateRequest.t) : Prop :=
  let node_ids := NodeDefinition.id <$> GraphCreateRequest.nodes request in
  GraphCreateRequest.start_node request ∈ node_ids
  ∧ (∀ end_node, end_node ∈ GraphCreateRequest.end_nodes request →
                 end_node ∈ node_ids)
  ∧ (∀ edge, edge ∈ GraphCreateRequest.edges request →
             EdgeDefinition.from_node edge ∈ node_ids
             ∧ EdgeDefinition.to_node edge ∈ node_ids).

(** ** The run over shared objects

    Python dictionaries and lists are objects: [initial_state.copy()]
    (engine.py:151) and the snapshots [state.copy()] (engine.py:163, 188
    and 232) make new dictionaries that hold the same values, and a value
    that is itself a list or a dictionary is shared between the copy and
    the original.  Here the objects live in a heap, a value is immutable
    or a reference to an object, and a node function or a condition
    receives the heap and the reference to the live [state] and gives
    the objects it wrote: it may write into the state, into the values
    the state holds and into any other object it knows of, and it may
    create objects.  [run] is embedded a second time over this heap; its
    statements are those of [body] above with the heap threaded through
    them. *)

Module Shared.

Abbreviation Ref := nat.

Inductive Value :=
| Plain (v : Val)
| At (r : Ref).

Inductive Object :=
| Dict (d : gmap string Value)
| List_ (xs : list Value).

Abbreviation Heap := (gmap nat Object).

(** The content of the dictionary [r]. *)
Definition dict_at (h : Heap) (r : Ref) : gmap string Value :=
  match h !! r with
  | Some (Dict d) => d
  | _ => ∅
  end.

(** [d.copy()]: a new dictionary with the keys and values of [d]. *)
Definition copy (h : Heap) (d : Ref) : Heap * Ref :=
  let r := fresh (dom h) in
  (<[r := Dict (dict_at h d)]> h, r).

(** [d.update(result)] *)
Definition update (h : Heap) (d : Ref) (result : gmap string Value) : Heap :=
  <[d := Dict (result ∪ dict_at h d)]> h.

(** What [d[key] = value] and [del d[key]] on the dictionary [d], and
    [xs.append(value)] on the list [xs], write. *)
Definition setitem (h : Heap) (d : Ref) (key : string) (value : Value) : Heap :=
  match h !! d with
  | Some (Dict content) => {[ d := Dict (<[key := value]> content) ]}
  | _ => ∅
  end.

Definition delitem (h : Heap) (d : Ref) (key : string) : Heap :=
  match h !! d with
  | Some (Dict content) => {[ d := Dict (delete key content) ]}
  | _ => ∅
  end.

Definition append (h : Heap) (xs : Ref) (value : Value) : Heap :=
  match h !! xs with
  | Some (List_ content) => {[ xs := List_ (content ++ [value]) ]}
  | _ => ∅
  end.

(** The list a reader finds under [key] in the dictionary [d]. *)
Definition list_at (h : Heap) (d : Ref) (key : string) : option (list Value) :=
  match dict_at h d !! key with
  | Some (At xs) =>
      match h !! xs with
      | Some (List_ content) => Some content
      | _ => None
      end
  | _ => None
  end.

(** A node function: from the heap and the reference to [state], the
    objects the call wrote or created, with their content when it ended,
    and the exception it raised or the content of the mapping it
    returned.  A condition likewise.  The heap after the call is the
    written objects over the heap before it. *)
Definition NodeFn : Type :=
  Heap → Ref → Heap * (string + gmap string Value).
Definition Predicate : Type := Heap → Ref → Heap * (string + bool).

Record ExecutionLog := {
  node_id : string;
  status : string;
  input_state : Ref;
  output_state : Ref;
  error : option string;
}.

Record WorkflowNode := {
  id : string;
  fn : NodeFn;
  node_type : NodeType;
  loop_condition : option Predicate;
  max_iterations : Z;
}.

Record WorkflowEdge := {
  from_node : string;
  to_node : string;
  condition : option Predicate;
}.

Record WorkflowGraph := {
  nodes : gmap string WorkflowNode;
  edges : list WorkflowEdge;
  start_node : option string;
  end_nodes : gset string;
}.

(** The local variables of [run], the heap, and [calls]: what every call
    of a node function or of a condition so far wrote. *)
Record Frame := {
  heap : Heap;
  state : Ref;
  logs : list ExecutionLog;
  visited_sequence : list string;
  current_node_id : option string;
  loop_counter : gmap string Z;
  warnings : list Warning;
  calls : list Heap;
}.

Definition with_heap (f : Frame) (h : Heap) : Frame :=
  {| heap := h; state := state f; logs := logs f;
     visited_sequence := visited_sequence f;
     current_node_id := current_node_id f; loop_counter := loop_counter f;
     warnings := warnings f; calls := calls f |}.

Definition push_log (f : Frame) (e : ExecutionLog) : Frame :=
  {| heap := heap f; state := state f; logs := logs f ++ [e];
     visited_sequence := visited_sequence f;
     current_node_id := current_node_id f; loop_counter := loop_counter f;
     warnings := warnings f; calls := calls f |}.

Definition push_visited (f : Frame) (n : string) : Frame :=
  {| heap := heap f; state := state f; logs := logs f;
     visited_sequence := visited_sequence f ++ [n];
     current_node_id := current_node_id f; loop_counter := loop_counter f;
     warnings := warnings f; calls := calls f |}.

Definition with_current (f : Frame) (c : option string) : Frame :=
  {| heap := heap f; state := state f; logs := logs f;
     visited_sequence := visited_sequence f;
     current_node_id := c; loop_counter := loop_counter f;
     warnings := warnings f; calls := calls f |}.

Definition with_counter (f : Frame) (n : string) (k : Z) : Frame :=
  {| heap := heap f; state := state f; logs := logs f;
     visited_sequence := visited_sequence f;
     current_node_id := current_node_id f;
     loop_counter := <[n := k]> (loop_counter f);
     warnings := warnings f; calls := calls f |}.

Definition push_warning (f : Frame) (w : Warning) : Frame :=
  {| heap := heap f; state := state f; logs := logs f;
     visited_sequence := visited_sequence f;
     current_node_id := current_node_id f; loop_counter := loop_counter f;
     warnings := warnings f ++ [w]; calls := calls f |}.

(** The frame after a call that wrote [written]. *)
Definition called (f : Frame) (written : Heap) : Frame :=
  {| heap := written ∪ heap f; state := state f; logs := logs f;
     visited_sequence := visited_sequence f;
     current_node_id := current_node_id f; loop_counter := loop_counter f;
     warnings := warnings f; calls := calls f ++ [written] |}.

Definition counter_get (f : Frame) (n : string) : Z :=
  default 0 (loop_counter f !! n).

Inductive Step :=
| Next (f : Frame)
| Raise (f : Frame) (e : Raised).

Definition success_entry (n : string) (input output : Ref) : ExecutionLog :=
  {| node_id := n; status := "success"; input_state := input;
     output_state := output; error := None |}.

Definition error_entry (n : string) (input output : Ref) (msg : string)
    : ExecutionLog :=
  {| node_id := n; status := "error"; input_state := input;
     output_state := output; error := Some msg |}.

(** [state.copy()] into a snapshot. *)
Definition snapshot (f : Frame) : Frame * Ref :=
  (with_heap f (fst (copy (heap f) (state f))),
   snd (copy (heap f) (state f))).

(** The [except Exception as e] handler (engine.py:226-237). *)
Definition handler (f : Frame) (cur : string) (input : Ref) (e : Raised)
    : Step :=
  Raise (push_log (fst (snapshot f))
           (error_entry cur input (snd (snapshot f)) (str_of e))) e.

(** Edge evaluation (engine.py:118-132): the conditions are called on
    the live state, one after the other. *)
Definition outgoing_edges (g : WorkflowGraph) (current_node : string)
    : list WorkflowEdge :=
  List.filter (λ e, bool_decide (from_node e = current_node)) (edges g).

Fixpoint collect_next (es : list WorkflowEdge) (f : Frame)
    (next_nodes : list string) : Frame * (string + list string) :=
  match es with
  | [] => (f, inr next_nodes)
  | edge :: rest =>
      match condition edge with
      | Some cond =>
          let f' := called f (fst (cond (heap f) (state f))) in
          match snd (cond (heap f) (state f)) with
          | inl msg => (f', inl msg)
          | inr true => collect_next rest f' (next_nodes ++ [to_node edge])
          | inr false => collect_next rest f' next_nodes
          end
      | None => collect_next rest f (next_nodes ++ [to_node edge])
      end
  end.

Definition _get_next_nodes (g : WorkflowGraph) (current_node : string)
    (f : Frame) : Frame * (string + list string) :=
  collect_next (outgoing_edges g current_node) f [].

(** Edge evaluation and the choice of the next node (engine.py:203-224). *)
Definition route (g : WorkflowGraph) (f0 : Frame) (cur : string)
    (input : Ref) : Step :=
  let f := fst (_get_next_nodes g cur f0) in
  match snd (_get_next_nodes g cur f0) with
  | inl msg => handler f cur input (UserExc msg)
  | inr [] =>
      if bool_decide (cur ∉ end_nodes g) && negb (bool_decide (end_nodes g = ∅))
      then Next (with_current (push_warning f (EndedOutsideEndNodes cur)) None)
      else Next (with_current f None)
  | inr [n] => Next (with_current f (Some n))
  | inr (n :: ns) =>
      Next (with_current (push_warning f (MultipleNextNodes cur (n :: ns)))
              (Some n))
  end.

(** The loop bookkeeping (engine.py:166-169) and the test that raises
    the [RuntimeError] (engine.py:171-174). *)
Definition count_attempt (node : WorkflowNode) (f : Frame) (cur : string)
    : Frame :=
  if is_loop (node_type node)
  then with_counter f cur (counter_get f cur + 1)
  else f.

Definition limit_exceeded (node : WorkflowNode) (f : Frame) (cur : string)
    : bool :=
  is_loop (node_type node)
  && (counter_get f cur >? max_iterations node)%Z
  && match loop_condition node with None => true | Some _ => false end.

(** Calling the node function, merging its result and logging the
    success (engine.py:181-190). *)
Definition invoke (node : WorkflowNode) (f : Frame) (cur : string)
    (input : Ref) : Step :=
  let f3 := called f (fst (fn node (heap f) (state f))) in
  match snd (fn node (heap f) (state f)) with
  | inl msg => handler f3 cur input (UserExc msg)
  | inr result =>
      let f4 := with_heap f3 (update (heap f3) (state f3) result) in
      Next (push_log (fst (snapshot f4))
              (success_entry cur input (snd (snapshot f4))))
  end.

(** After the success entry: loop again, or leave the loop and follow an
    edge (engine.py:193-224). *)
Definition continue_or_route (g : WorkflowGraph) (node : WorkflowNode)
    (f : Frame) (cur : string) (input : Ref) : Step :=
  match (if is_loop (node_type node) then loop_condition node else None) with
  | Some cond =>
      let f' := called f (fst (cond (heap f) (state f))) in
      match snd (cond (heap f) (state f)) with
      | inl msg => handler f' cur input (UserExc msg)
      | inr true => Next f'
      | inr false => route g (with_counter f' cur 0) cur input
      end
  | None => route g f cur input
  end.

(** The frame at the call of the node function: the visit is recorded,
    the input snapshot taken and, for a loop node, the attempt counted
    (engine.py:160-169). *)
Definition entered (node : WorkflowNode) (f : Frame) (cur : string) : Frame :=
  count_attempt node (fst (snapshot (push_visited f cur))) cur.

(** The body of the [while] loop for the current node [cur]
    (engine.py:159-237). *)
Definition body (g : WorkflowGraph) (f0 : Frame) (cur : string) : Step :=
  match nodes g !! cur with
  | None => Raise f0 (MissingNode cur)
  | Some node =>
      let input := snd (snapshot (push_visited f0 cur)) in
      let f2 := entered node f0 cur in
      if limit_exceeded node f2 cur
      then handler f2 cur input (LoopLimit cur (max_iterations node))
      else
        match invoke node f2 cur input with
        | Raise f' e => Raise f' e
        | Next f5 => continue_or_route g node f5 cur input
        end
  end.

Fixpoint while_loop (fuel : nat) (g : WorkflowGraph) (f : Frame)
    : option Step :=
  match truthy (current_node_id f) with
  | None => Some (Next f)
  | Some cur =>
      match fuel with
      | O => None
      | S fuel' =>
          match body g f cur with
          | Next f' => while_loop fuel' g f'
          | Raise f' e => Some (Raise f' e)
          end
      end
  end.

(** The frame at the call of [run], where [state] is not bound yet, and
    the frame at the head of the loop, after [initial_state.copy()]. *)
Definition entry_frame (g : WorkflowGraph) (h : Heap) (initial_state : Ref)
    : Frame :=
  {| heap := h; state := initial_state; logs := []; visited_sequence := [];
     current_node_id := start_node g; loop_counter := ∅;
     warnings := []; calls := [] |}.

Definition initial_frame (g : WorkflowGraph) (h : Heap) (initial_state : Ref)
    : Frame :=
  {| heap := fst (copy h initial_state); state := snd (copy h initial_state);
     logs := []; visited_sequence := [];
     current_node_id := start_node g; loop_counter := ∅;
     warnings := []; calls := [] |}.

(** [run] with its local variables kept (engine.py:134-240). *)
Definition run_frame (fuel : nat) (g : WorkflowGraph) (h : Heap)
    (initial_state : Ref) : option Step :=
  match truthy (start_node g) with
  | None => Some (Raise (entry_frame g h initial_state) NoStartNode)
  | Some _ => while_loop fuel g (initial_frame g h initial_state)
  end.

(** The heap [run] leaves and what its caller receives: the references
    to the final state and the log entries, or the exception. *)
Definition run (fuel : nat) (g : WorkflowGraph) (h : Heap)
    (initial_state : Ref)
    : option (Heap * (Raised + Ref * list ExecutionLog)) :=
  match run_frame fuel g h initial_state with
  | None => None
  | Some (Next f) => Some (heap f, inr (state f, logs f))
  | Some (Raise f e) => Some (heap f, inl e)
  end.

Definition last_frame (r : Step) : Frame :=
  match r with
  | Next f => f
  | Raise f _ => f
  end.

(** [n] passes through the body, none of which raises. *)
Inductive steps (g : WorkflowGraph) : nat → Frame → Frame → Prop :=
| steps_O f : steps g 0 f f
| steps_S n f cur f1 f' :
    truthy (current_node_id f) = Some cur →
    body g f cur = Next f1 →
    steps g n f1 f' →
    steps g (S n) f f'.

Fixpoint advance (n : nat) (g : WorkflowGraph) (f : Frame) : Frame :=
  match n with
  | O => f
  | S n' =>
      match truthy (current_node_id f) with
      | Some cur =>
          match body g f cur with
          | Next f' => advance n' g f'
          | Raise _ _ => f
          end
      | None => f
      end
  end.

Fixpoint advances (n : nat) (g : WorkflowGraph) (f : Frame) : bool :=
  match n with
  | O => true
  | S n' =>
      match truthy (current_node_id f) with
      | Some cur =>
          match body g f cur with
          | Next f' => advances n' g f'
          | Raise _ _ => false
          end
      | None => false
      end
  end.

(** The frames a run of [g] on the dictionary [initial_state] of the
    heap [h] goes through. *)
Definition reached (g : WorkflowGraph) (h : Heap) (initial_state : Ref)
    (n : nat) (f : Frame) : Prop :=
  is_Some (truthy (start_node g))
  ∧ steps g n (initial_frame g h initial_state) f.

(** None of the calls [cs] wrote to the object [r]. *)
Definition kept (cs : list Heap) (r : Ref) : Prop :=
  ∀ written, written ∈ cs → written !! r = None.

(** The frame [f2] comes after [f1] in a run: [state] is the same
    object, the log and the calls have grown at their end, no object is
    lost, and an object other than [state] holds what it held unless a
    call in between wrote to it. *)
Definition follows (f1 f2 : Frame) : Prop :=
  state f2 = state f1
  ∧ (∃ entries, logs f2 = (logs f1 ++ entries)%list)
  ∧ dom (heap f1) ⊆ dom (heap f2)
  ∧ ∃ cs, calls f2 = (calls f1 ++ cs)%list
          ∧ ∀ r, r ∈ dom (heap f1) → r ≠ state f1 → kept cs r →
                 heap f2 !! r = heap f1 !! r.

(** The entry [e] is the one that the pass from the frame [fi] appends
    when it does not raise, as the later frame [f'] shows it: the entry
    of a success at the current node; its input state is a dictionary
    made in this pass, with the content of [state] before the node
    function is called, and its output state a dictionary made after the
    call, with the mapping the function returned over the content of
    [state] as the call left it; they hold this content in [f'] unless a
    call made since wrote to them. *)
Definition entry_of (g : WorkflowGraph) (fi f' : Frame) (e : ExecutionLog)
    : Prop :=
  ∃ cur node result,
    truthy (current_node_id fi) = Some cur
    ∧ nodes g !! cur = Some node
    ∧ let before := heap (entered node fi cur) in
      let written := fst (fn node before (state fi)) in
      snd (fn node before (state fi)) = inr result
      ∧ node_id e = cur ∧ status e = "success" ∧ error e = None
      ∧ (input_state e ∉ dom (heap fi))
      ∧ dict_at before (input_state e) = dict_at (heap fi) (state fi)
      ∧ (output_state e ∉ dom (written ∪ before))
      ∧ (kept (drop (length (calls fi)) (calls f')) (input_state e) →
           dict_at (heap f') (input_state e) = dict_at (heap fi) (state fi))
      ∧ (kept (drop (S (length (calls fi))) (calls f')) (output_state e) →
           dict_at (heap f') (output_state e)
           = result ∪ dict_at (written ∪ before) (state fi)).

(** No node function and no condition of [g] removes a key from the
    dictionary it is given. *)
Definition keeps_keys (g : WorkflowGraph) : Prop :=
  (∀ n node h s, nodes g !! n = Some node →
     dom (dict_at h s) ⊆ dom (dict_at (fst (fn node h s) ∪ h) s))
  ∧ (∀ n node cond h s, nodes g !! n = Some node →
       loop_condition node = Some cond →
       dom (dict_at h s) ⊆ dom (dict_at (fst (cond h s) ∪ h) s))
  ∧ (∀ e cond h s, In e (edges g) → condition e = Some cond →
       dom (dict_at h s) ⊆ dom (dict_at (fst (cond h s) ∪ h) s)).

End Shared.

(** *** Functions that work on the content of [state] only

    A function of the engine of the first part, which takes the content
    of the state and gives the content the call left, is a function on
    the heap that reads the dictionary [state] and writes into it and
    nowhere else; a condition of the first part reads it and writes
    nothing. *)
Definition lift_fn
    (fn : gmap string Shared.Value
          → gmap string Shared.Value * (string + gmap string Shared.Value))
    : Shared.NodeFn :=
  λ h s, ({[ s := Shared.Dict (fst (fn (Shared.dict_at h s))) ]},
          snd (fn (Shared.dict_at h s))).

Definition lift_predicate (cond : gmap string Shared.Value → string + bool)
    : Shared.Predicate :=
  λ h s, (∅, cond (Shared.dict_at h s)).

Definition lift_node (node : WorkflowNode Shared.Value) : Shared.WorkflowNode :=
  {| Shared.id := id node; Shared.fn := lift_fn (fn node);
     Shared.node_type := node_type node;
     Shared.loop_condition := lift_predicate <$> loop_condition node;
     Shared.max_iterations := max_iterations node |}.

Definition lift_edge (e : WorkflowEdge Shared.Value) : Shared.WorkflowEdge :=
  {| Shared.from_node := from_node e; Shared.to_node := to_node e;
     Shared.condition := lift_predicate <$> condition e |}.

Definition lift (g : WorkflowGraph Shared.Value) : Shared.WorkflowGraph :=
  {| Shared.nodes := lift_node <$> nodes g;
     Shared.edges := lift_edge <$> edges g;
     Shared.start_node := start_node g; Shared.end_nodes := end_nodes g |}.

(** What a reader finds in a log entry: the content of its two
    dictionaries. *)
Definition read_entry (h : Shared.Heap) (e : Shared.ExecutionLog)
    : ExecutionLog Shared.Value :=
  {| node_id := Shared.node_id e; status := Shared.status e;
     input_state := Shared.dict_at h (Shared.input_state e);
     output_state := Shared.dict_at h (Shared.output_state e);
     error := Shared.error e |}.

(** The frame [f0] of the first part is what the frame [f] over the heap
    shows to a reader: the content of [state] and of the logged
    dictionaries, which are objects of the heap other than [state]. *)
Definition shows (f : Shared.Frame) (f0 : Frame Shared.Value) : Prop :=
  state f0 = Shared.dict_at (Shared.heap f) (Shared.state f)
  ∧ logs f0 = read_entry (Shared.heap f) <$> Shared.logs f
  ∧ visited_sequence f0 = Shared.visited_sequence f
  ∧ current_node_id f0 = Shared.current_node_id f
  ∧ loop_counter f0 = Shared.loop_counter f
  ∧ warnings f0 = Shared.warnings f
  ∧ Shared.state f ∈ dom (Shared.heap f)
  ∧ ∀ e, e ∈ Shared.logs f →
      Shared.input_state e ∈ dom (Shared.heap f)
      ∧ Shared.input_state e ≠ Shared.state f
      ∧ Shared.output_state e ∈ dom (Shared.heap f)
      ∧ Shared.output_state e ≠ Shared.state f.

(** The dictionary [input] of the heap of [f] is a snapshot with the
    content [input0]. *)
Definition pinned (f : Shared.Frame) (input : nat)
    (input0 : gmap string Shared.Value) : Prop :=
  input ∈ dom (Shared.heap f) ∧ input ≠ Shared.state f
  ∧ Shared.dict_at (Shared.heap f) input = input0.

(** What the caller of [run] over the heap reads in what it receives. *)
Definition read_outcome
    (r : option (Shared.Heap * (Raised + nat * list Shared.ExecutionLog)))
    : option (Raised + gmap string Shared.Value
                       * list (ExecutionLog Shared.Value)) :=
  match r with
  | None => None
  | Some (h, inl e) => Some (inl e)
  | Some (h, inr (final, lg)) =>
      Some (inr (Shared.dict_at h final, read_entry h <$> lg))
  end.

(** *** Small graphs over shared objects *)

Definition shared_node (node_id : string) (fn : Shared.NodeFn)
    : Shared.WorkflowNode :=
  {| Shared.id := node_id; Shared.fn := fn; Shared.node_type := STANDARD;
     Shared.loop_condition := None; Shared.max_iterations := 10 |}.

(** The caller's dictionary at 0, which holds under [items] the list at
    1, empty. *)
Definition heap_items : Shared.Heap :=
  <[0%nat := Shared.Dict {[ "items" := Shared.At 1 ]}]>
    {[ 1%nat := Shared.List_ [] ]}.

(** The node function
    [state["touched"] = True; state["items"].append(1); return {}];
    without a list under [items] the second statement raises. *)
Definition touch_and_append : Shared.NodeFn :=
  λ h state,
    let touched :=
      Shared.setitem h state "touched" (Shared.Plain (VBool true)) in
    match Shared.list_at (touched ∪ h) state "items",
          Shared.dict_at h state !! "items" with
    | Some _, Some (Shared.At items) =>
        (Shared.append (touched ∪ h) items (Shared.Plain (VInt 1)) ∪ touched,
         inr ∅)
    | _, _ => (touched, inl "no list under items")
    end.

(** [a → b], both with this function. *)
Definition graph_appending : Shared.WorkflowGraph :=
  {| Shared.nodes := <["a" := shared_node "a" touch_and_append]>
                       {[ "b" := shared_node "b" touch_and_append ]};
     Shared.edges := [{| Shared.from_node := "a"; Shared.to_node := "b";
                         Shared.condition := None |}];
     Shared.start_node := Some "a"; Shared.end_nodes := ∅ |}.

(** One node whose function writes nothing and returns a mapping. *)
Definition graph_reading : Shared.WorkflowGraph :=
  {| Shared.nodes :=
       {[ "a" := shared_node "a"
                   (λ h state, (∅, inr {[ "seen" := Shared.Plain (VBool true) ]})) ]};
     Shared.edges := []; Shared.start_node := Some "a";
     Shared.end_nodes := ∅ |}.

(** A loop node whose function returns an empty mapping and whose loop
    condition is [lambda s: s.pop("again", False)], for values under
    [again] that are [True] or [False]. *)
Definition pop_again : Shared.Predicate :=
  λ h state,
    (Shared.delitem h state "again",
     inr match Shared.dict_at h state !! "again" with
         | Some (Shared.Plain (VBool b)) => b
         | _ => false
         end).

Definition graph_popping : Shared.WorkflowGraph :=
  {| Shared.nodes :=
       {[ "l" := {| Shared.id := "l"; Shared.fn := λ h state, (∅, inr ∅);
                    Shared.node_type := LOOP;
                    Shared.loop_condition := Some pop_again;
                    Shared.max_iterations := 10 |} ]};
     Shared.edges := []; Shared.start_node := Some "l";
     Shared.end_nodes := ∅ |}.

(** The caller's dictionary [{"again": True}] at 0. *)
Definition heap_again : Shared.Heap :=
  {[ 0%nat := Shared.Dict {[ "again" := Shared.Plain (VBool true) ]} ]}.

(** * Properties *)

Section EngineFacts.

Context {V : Type}.

Implicit Types (g : WorkflowGraph V) (f : Frame V) (node : WorkflowNode V).
Implicit Types (cur : string) (st input : gmap string V).

Lemma truthy_Some o s : truthy o = Some s → o = Some s ∧ s ≠ EmptyString.
Proof.
  destruct o as [[|c t]|]; simpl; intros H; inversion H; subst.
  split; [reflexivity | discriminate].
Qed.

Lemma truthy_nonempty s : s ≠ EmptyString → truthy (Some s) = Some s.
Proof. destruct s; [congruence | reflexivity]. Qed.

(** *** The loop and its fuel *)

Lemma while_loop_done fuel g f :
  truthy (current_node_id f) = None → while_loop fuel g f = Some (Next f).
Proof. intros H. destruct fuel; simpl; rewrite H; reflexivity. Qed.

Lemma while_loop_pass fuel g f cur :
  truthy (current_node_id f) = Some cur →
  while_loop (S fuel) g f =
    match body g f cur with
    | Next f' => while_loop fuel g f'
    | Raise f' e => Some (Raise f' e)
    end.
Proof. intros H. simpl. rewrite H. reflexivity. Qed.

Lemma while_loop_steps g n f f' :
  steps g n f f' → ∀ k, while_loop (n + k) g f = while_loop k g f'.
Proof.
  induction 1 as [f | n f cur f1 f' Hcur Hbody _ IH]; intros k.
  - reflexivity.
  - change (S n + k)%nat with (S (n + k)).
    rewrite (while_loop_pass _ _ _ _ Hcur), Hbody. apply IH.
Qed.

Lemma steps_snoc g n f f1 cur f' :
  steps g n f f1 →
  truthy (current_node_id f1) = Some cur →
  body g f1 cur = Next f' →
  steps g (S n) f f'.
Proof.
  induction 1 as [f | n f c f2 f1 Hc Hb _ IH]; intros Hcur Hbody.
  - eapply steps_S; [exact Hcur | exact Hbody | constructor].
  - eapply steps_S; [exact Hc | exact Hb | apply IH; assumption].
Qed.

(** A run whose pass number [n + 1] raises stops there, whatever fuel is
    left. *)
Lemma run_frame_raise g initial_state n f cur f' e k :
  reached g initial_state n f →
  truthy (current_node_id f) = Some cur →
  body g f cur = Raise f' e →
  run_frame (n + S k) g initial_state = Some (Raise f' e).
Proof.
  intros [[s Hs] Hsteps] Hcur Hbody. unfold run_frame. rewrite Hs.
  rewrite (while_loop_steps _ _ _ _ Hsteps).
  rewrite (while_loop_pass _ _ _ _ Hcur), Hbody. reflexivity.
Qed.

(** A run whose pass number [n + 1] clears [current_node_id] returns
    there. *)
Lemma run_frame_return g initial_state n f k :
  reached g initial_state n f →
  truthy (current_node_id f) = None →
  run_frame (n + k) g initial_state = Some (Next f).
Proof.
  intros [[s Hs] Hsteps] Hcur. unfold run_frame. rewrite Hs.
  rewrite (while_loop_steps _ _ _ _ Hsteps).
  apply while_loop_done, Hcur.
Qed.

(** *** What each part of the body does *)

Lemma invoke_returns node f cur input mutated result :
  fn node (state f) = (mutated, inr result) →
  invoke node f cur input =
    Next (push_log
            (with_state (push_call (with_state f mutated) cur)
               (result ∪ mutated))
            (success_entry cur input (result ∪ mutated))).
Proof. intros H. unfold invoke. rewrite H. reflexivity. Qed.

Lemma invoke_raises node f cur input mutated msg :
  fn node (state f) = (mutated, inl msg) →
  invoke node f cur input =
    Raise (push_log (push_call (with_state f mutated) cur)
             (error_entry cur input mutated msg))
      (UserExc msg).
Proof. intros H. unfold invoke. rewrite H. reflexivity. Qed.

Lemma route_empty g f cur input :
  _get_next_nodes g cur (state f) = inr [] →
  route g f cur input =
    Next (with_current
            {| state := state f; logs := logs f;
               visited_sequence := visited_sequence f;
               current_node_id := current_node_id f;
               loop_counter := loop_counter f;
               warnings := (warnings f ++ end_warning g cur)%list;
               fn_calls := fn_calls f |} None).
Proof.
  intros H. unfold route, end_warning. rewrite H.
  destruct (bool_decide (cur ∉ end_nodes g) &&
            negb (bool_decide (end_nodes g = ∅))); simpl.
  - reflexivity.
  - unfold with_current; simpl. rewrite app_nil_r. reflexivity.
Qed.

Lemma route_first g f cur input n ns :
  _get_next_nodes g cur (state f) = inr (n :: ns) →
  ∃ f', route g f cur input = Next f'
        ∧ current_node_id f' = Some n
        ∧ state f' = state f ∧ logs f' = logs f
        ∧ visited_sequence f' = visited_sequence f
        ∧ loop_counter f' = loop_counter f
        ∧ fn_calls f' = fn_calls f
        ∧ warnings f' = (warnings f ++
            match ns with
            | [] => []
            | _ => [MultipleNextNodes cur (n :: ns)]
            end)%list.
Proof.
  intros H. unfold route. rewrite H. destruct ns; eexists; split;
    try reflexivity; simpl; rewrite ?app_nil_r; auto 10.
Qed.

Lemma route_raises g f cur input msg :
  _get_next_nodes g cur (state f) = inl msg →
  route g f cur input =
    Raise (push_log f (error_entry cur input (state f) msg)) (UserExc msg).
Proof. intros H. unfold route. rewrite H. reflexivity. Qed.

(** Whatever [route] does, it leaves the state, the log, the counters,
    the visits and the calls of a pass that goes on as they are, and it
    raises nothing but what a condition raised. *)
Lemma route_inv g f cur input :
  (∃ f' next_nodes,
      route g f cur input = Next f'
      ∧ _get_next_nodes g cur (state f) = inr next_nodes
      ∧ current_node_id f' = head next_nodes
      ∧ state f' = state f ∧ logs f' = logs f
      ∧ visited_sequence f' = visited_sequence f
      ∧ loop_counter f' = loop_counter f
      ∧ fn_calls f' = fn_calls f)
  ∨ (∃ msg,
      _get_next_nodes g cur (state f) = inl msg
      ∧ route g f cur input =
          Raise (push_log f (error_entry cur input (state f) msg))
            (UserExc msg)).
Proof.
  destruct (_get_next_nodes g cur (state f)) as [msg | [| n ns]] eqn:E.
  - right. exists msg. split; [reflexivity | apply route_raises, E].
  - left. eexists _, []. split; [apply route_empty, E |]. simpl. auto 10.
  - left. destruct (route_first g f cur input n ns E)
      as (f' & Hr & Hc & Hs & Hl & Hv & Hk & Hf & _).
    exists f', (n :: ns). simpl. auto 10.
Qed.

Lemma entered_state node f cur : state (entered node f cur) = state f.
Proof. unfold entered, count_attempt. destruct (is_loop _); reflexivity. Qed.

Lemma entered_logs node f cur : logs (entered node f cur) = logs f.
Proof. unfold entered, count_attempt. destruct (is_loop _); reflexivity. Qed.

Lemma entered_visited node f cur :
  visited_sequence (entered node f cur) = (visited_sequence f ++ [cur])%list.
Proof. unfold entered, count_attempt. destruct (is_loop _); reflexivity. Qed.

Lemma entered_calls node f cur : fn_calls (entered node f cur) = fn_calls f.
Proof. unfold entered, count_attempt. destruct (is_loop _); reflexivity. Qed.

Lemma entered_warnings node f cur :
  warnings (entered node f cur) = warnings f.
Proof. unfold entered, count_attempt. destruct (is_loop _); reflexivity. Qed.

Lemma body_unfold g f cur node :
  nodes g !! cur = Some node →
  body g f cur =
    if limit_exceeded node (entered node f cur) cur
    then handler (entered node f cur) cur (state f)
           (LoopLimit cur (max_iterations node))
    else match invoke node (entered node f cur) cur (state f) with
         | Raise f' e => Raise f' e
         | Next f5 => continue_or_route g node f5 cur (state f)
         end.
Proof. intros H. unfold body. rewrite H. reflexivity. Qed.

Lemma body_missing g f cur :
  nodes g !! cur = None → body g f cur = Raise f (MissingNode cur).
Proof. intros H. unfold body. rewrite H. reflexivity. Qed.

(** A pass that does not raise: the node exists, its bound is not
    exceeded, its function returned, and exactly one entry, a success
    entry, was appended. *)
Lemma body_next g f cur f' :
  body g f cur = Next f' →
  ∃ node mutated result,
    nodes g !! cur = Some node
    ∧ limit_exceeded node (entered node f cur) cur = false
    ∧ fn node (state f) = (mutated, inr result)
    ∧ state f' = result ∪ mutated
    ∧ logs f' = (logs f ++ [success_entry cur (state f) (result ∪ mutated)])%list
    ∧ visited_sequence f' = (visited_sequence f ++ [cur])%list
    ∧ fn_calls f' = (fn_calls f ++ [cur])%list
    ∧ (loop_counter f' = loop_counter (entered node f cur)
       ∨ (is_loop (node_type node) = true ∧ is_Some (loop_condition node)
          ∧ loop_counter f' = <[cur := 0]> (loop_counter (entered node f cur)))).
Proof.
  intros H. destruct (nodes g !! cur) as [node|] eqn:Hn;
    [| rewrite (body_missing _ _ _ Hn) in H; discriminate].
  rewrite (body_unfold _ _ _ _ Hn) in H.
  destruct (limit_exceeded node (entered node f cur) cur) eqn:Hl;
    [discriminate |].
  destruct (fn node (state f)) as [mutated [msg | result]] eqn:Hf.
  - rewrite (invoke_raises _ _ _ _ mutated msg) in H;
      [discriminate | rewrite entered_state; exact Hf].
  - rewrite (invoke_returns _ _ _ _ mutated result) in H;
      [| rewrite entered_state; exact Hf].
    exists node, mutated, result. do 3 (split; [first [reflexivity | assumption] |]).
    unfold continue_or_route in H.
    set (f5 := push_log _ _) in H.
    assert (Hst : state f5 = result ∪ mutated) by reflexivity.
    assert (Hlg : logs f5 =
              (logs f ++ [success_entry cur (state f) (result ∪ mutated)])%list)
      by (subst f5; simpl; rewrite entered_logs; reflexivity).
    assert (Hvs : visited_sequence f5 = (visited_sequence f ++ [cur])%list)
      by (subst f5; simpl; apply entered_visited).
    assert (Hfc : fn_calls f5 = (fn_calls f ++ [cur])%list)
      by (subst f5; simpl; rewrite entered_calls; reflexivity).
    assert (Hlc : loop_counter f5 = loop_counter (entered node f cur))
      by reflexivity.
    clearbody f5.
    destruct (is_loop (node_type node)) eqn:Hloop;
      [destruct (loop_condition node) as [cond|] eqn:Hcond |].
    + destruct (cond (state f5)) as [msg | [|]]; [discriminate | |].
      * inversion H; subst f'. auto 10.
      * destruct (route_inv g (with_counter f5 cur 0) cur (state f))
          as [(f1 & nn & Hr & _ & _ & Hs1 & Hl1 & Hv1 & Hc1 & Hk1)
             | (msg & _ & Hr)];
          rewrite Hr in H; [| discriminate].
        inversion H; subst f1. rewrite Hs1, Hl1, Hv1, Hc1, Hk1. simpl.
        rewrite Hlc. repeat (split; [assumption |]).
        right. split; [reflexivity |]. split; [eexists; reflexivity |].
        reflexivity.
    + destruct (route_inv g f5 cur (state f))
        as [(f1 & nn & Hr & _ & _ & Hs1 & Hl1 & Hv1 & Hc1 & Hk1)
           | (msg & _ & Hr)];
        rewrite Hr in H; [| discriminate].
      inversion H; subst f1. rewrite Hs1, Hl1, Hv1, Hc1, Hk1. auto 10.
    + destruct (route_inv g f5 cur (state f))
        as [(f1 & nn & Hr & _ & _ & Hs1 & Hl1 & Hv1 & Hc1 & Hk1)
           | (msg & _ & Hr)];
        rewrite Hr in H; [| discriminate].
      inversion H; subst f1. rewrite Hs1, Hl1, Hv1, Hc1, Hk1. auto 10.
Qed.

(** A pass that raises: the node is missing (no entry is written), or
    its bound is exceeded, or its function or a condition raised; in the
    last two cases the log ends with the error entry of the node. *)
Lemma body_raise g f cur f' e :
  body g f cur = Raise f' e →
  (nodes g !! cur = None ∧ e = MissingNode cur ∧ f' = f)
  ∨ (∃ node,
        nodes g !! cur = Some node
        ∧ limit_exceeded node (entered node f cur) cur = true
        ∧ e = LoopLimit cur (max_iterations node)
        ∧ f' = push_log (entered node f cur)
                 (error_entry cur (state f) (state f) (str_of e)))
  ∨ (∃ node msg earlier,
        nodes g !! cur = Some node
        ∧ limit_exceeded node (entered node f cur) cur = false
        ∧ e = UserExc msg
        ∧ logs f' = (logs f ++ earlier
                       ++ [error_entry cur (state f) (state f') msg])%list
        ∧ (earlier = [] ∨ ∃ out, earlier = [success_entry cur (state f) out])
        ∧ visited_sequence f' = (visited_sequence f ++ [cur])%list).
Proof.
  intros H. destruct (nodes g !! cur) as [node|] eqn:Hn.
  2: { rewrite (body_missing _ _ _ Hn) in H. inversion H. auto. }
  right. rewrite (body_unfold _ _ _ _ Hn) in H.
  destruct (limit_exceeded node (entered node f cur) cur) eqn:Hl.
  { left. exists node. unfold handler in H. inversion H; subst.
    rewrite entered_state. auto. }
  right.
  destruct (fn node (state f)) as [mutated [msg | result]] eqn:Hf.
  - rewrite (invoke_raises _ _ _ _ mutated msg) in H;
      [| rewrite entered_state; exact Hf].
    inversion H; subst. exists node, msg, []. simpl.
    rewrite entered_logs, entered_visited.
    split; [first [reflexivity | assumption] |].
    split; [first [reflexivity | assumption] |]. auto 10.
  - rewrite (invoke_returns _ _ _ _ mutated result) in H;
      [| rewrite entered_state; exact Hf].
    unfold continue_or_route in H.
    set (f5 := push_log _ _) in H.
    assert (Hlg : logs f5 =
              (logs f ++ [success_entry cur (state f) (result ∪ mutated)])%list)
      by (subst f5; simpl; rewrite entered_logs; reflexivity).
    assert (Hvs : visited_sequence f5 = (visited_sequence f ++ [cur])%list)
      by (subst f5; simpl; apply entered_visited).
    clearbody f5.
    assert (Hroute : ∀ fr, logs fr = logs f5 →
              visited_sequence fr = visited_sequence f5 →
              route g fr cur (state f) = Raise f' e →
              ∃ msg earlier,
                e = UserExc msg
                ∧ logs f' = (logs f ++ earlier
                       ++ [error_entry cur (state f) (state f') msg])%list
                ∧ (earlier = [] ∨
                   ∃ out, earlier = [success_entry cur (state f) out])
                ∧ visited_sequence f' = (visited_sequence f ++ [cur])%list).
    { intros fr Hl1 Hv1 Hr.
      destruct (route_inv g fr cur (state f))
        as [(f1 & nn & Hr' & _) | (msg & _ & Hr')];
        rewrite Hr' in Hr; [discriminate |].
      inversion Hr; subst. exists msg, [success_entry cur (state f)
                                          (result ∪ mutated)].
      simpl. rewrite Hl1, Hlg, Hv1, Hvs, <- app_assoc. simpl.
      split; [reflexivity |]. split; [reflexivity |].
      split; [right; eauto | reflexivity]. }
    assert (Hfinal : ∃ msg earlier,
                e = UserExc msg
                ∧ logs f' = (logs f ++ earlier
                       ++ [error_entry cur (state f) (state f') msg])%list
                ∧ (earlier = [] ∨
                   ∃ out, earlier = [success_entry cur (state f) out])
                ∧ visited_sequence f' = (visited_sequence f ++ [cur])%list).
    { destruct (is_loop (node_type node));
        [destruct (loop_condition node) as [cond|] |].
      + destruct (cond (state f5)) as [msg | [|]] eqn:Hc.
        * unfold handler in H. inversion H; subst.
          exists msg, [success_entry cur (state f) (result ∪ mutated)].
          simpl. rewrite Hlg, <- app_assoc. simpl.
          split; [reflexivity |]. split; [reflexivity |].
          split; [right; eauto | assumption].
        * discriminate.
        * apply (Hroute (with_counter f5 cur 0)); [reflexivity .. | exact H].
      + apply (Hroute f5); [reflexivity .. | exact H].
      + apply (Hroute f5); [reflexivity .. | exact H]. }
    destruct Hfinal as (msg & earlier & Hfinal).
    exists node, msg, earlier.
    split; [first [reflexivity | assumption] |].
    split; [first [reflexivity | assumption] |]. exact Hfinal.
Qed.

Lemma raises_at_body g f cur msg :
  raises_at g f cur msg ↔ ∃ f', body g f cur = Raise f' (UserExc msg).
Proof.
  split.
  - intros (node & Hn & Hl & H). rewrite (body_unfold _ _ _ _ Hn), Hl.
    destruct (fn node (state f)) as [mutated [m | result]] eqn:Hf.
    + subst m. rewrite (invoke_raises _ _ _ _ mutated msg);
        [eauto | rewrite entered_state; exact Hf].
    + rewrite (invoke_returns _ _ _ _ mutated result);
        [| rewrite entered_state; exact Hf].
      unfold continue_or_route. simpl state at 1.
      destruct (if is_loop (node_type node) then loop_condition node else None)
        as [cond|].
      * simpl state at 1.
        destruct (cond (result ∪ mutated)) as [m | [|]]; [subst m | tauto |].
        -- unfold handler. eauto.
        -- rewrite (route_raises _ _ _ _ msg); [eauto | exact H].
      * rewrite (route_raises _ _ _ _ msg); [eauto | exact H].
  - intros [f' H].
    destruct (nodes g !! cur) as [node|] eqn:Hn;
      [| rewrite (body_missing _ _ _ Hn) in H; discriminate].
    exists node. split; [exact Hn |].
    rewrite (body_unfold _ _ _ _ Hn) in H.
    destruct (limit_exceeded node (entered node f cur) cur);
      [unfold handler in H; discriminate |].
    split; [reflexivity |].
    destruct (fn node (state f)) as [mutated [m | result]] eqn:Hf.
    + rewrite (invoke_raises _ _ _ _ mutated m) in H;
        [congruence | rewrite entered_state; exact Hf].
    + rewrite (invoke_returns _ _ _ _ mutated result) in H;
        [| rewrite entered_state; exact Hf].
      unfold continue_or_route in H. simpl state at 1 in H.
      assert (Hroute : ∀ fr, state fr = result ∪ mutated →
                route g fr cur (state f) = Raise f' (UserExc msg) →
                _get_next_nodes g cur (result ∪ mutated) = inl msg).
      { intros fr Hs Hr.
        destruct (route_inv g fr cur (state f))
          as [(f1 & nn & Hr' & _) | (m & Hg & Hr')];
          rewrite Hr' in Hr; [discriminate |].
        rewrite <- Hs. inversion Hr; subst. exact Hg. }
      destruct (if is_loop (node_type node) then loop_condition node else None)
        as [cond|].
      * simpl state at 1 in H.
        destruct (cond (result ∪ mutated)) as [m | [|]].
        -- unfold handler in H. congruence.
        -- discriminate.
        -- eapply Hroute; [| exact H]. reflexivity.
      * eapply Hroute; [| exact H]. reflexivity.
Qed.

(** *** Loop counters *)

Lemma attempts_visit f f' cur n :
  visited_sequence f' = (visited_sequence f ++ [cur])%list →
  attempts f' n = attempts f n + (if bool_decide (cur = n) then 1 else 0).
Proof.
  intros H. unfold attempts. rewrite H, List.filter_app, List.length_app.
  simpl. destruct (bool_decide (cur = n)); simpl; lia.
Qed.

Lemma counter_entered_same node f cur :
  counter_get (entered node f cur) cur =
    if is_loop (node_type node) then counter_get f cur + 1
    else counter_get f cur.
Proof.
  unfold entered, count_attempt, counter_get.
  destruct (is_loop (node_type node)); simpl; [| reflexivity].
  rewrite lookup_insert_eq. reflexivity.
Qed.

Lemma counter_entered_other node f cur n :
  cur ≠ n → counter_get (entered node f cur) n = counter_get f n.
Proof.
  intros H. unfold entered, count_attempt, counter_get.
  destruct (is_loop (node_type node)); simpl; [| reflexivity].
  rewrite lookup_insert_ne by assumption. reflexivity.
Qed.

(** The pass at a loop node without condition raises the [RuntimeError]
    exactly when its counter has reached the bound. *)
Lemma limit_exceeded_unbounded node f cur :
  node_type node = LOOP → loop_condition node = None →
  limit_exceeded node (entered node f cur) cur =
    (counter_get f cur + 1 >? max_iterations node).
Proof.
  intros Ht Hc. unfold limit_exceeded.
  rewrite counter_entered_same, Ht, Hc. simpl.
  rewrite andb_true_r. reflexivity.
Qed.

(** For a loop node without condition the counter is the number of
    attempts, and it never passes the bound (or zero, for a negative
    bound). *)
Lemma counter_is_attempts g n node :
  nodes g !! n = Some node →
  node_type node = LOOP → loop_condition node = None →
  ∀ k f f',
    steps g k f f' →
    counter_get f n = attempts f n →
    attempts f n ≤ Z.max 0 (max_iterations node) →
    counter_get f' n = attempts f' n
    ∧ attempts f' n ≤ Z.max 0 (max_iterations node).
Proof.
  intros Hn Ht Hc k f f' Hsteps.
  induction Hsteps as [f | k f cur f1 f' Hcur Hbody _ IH]; intros Heq Hle.
  - auto.
  - destruct (body_next _ _ _ _ Hbody)
      as (node' & mutated & result & Hn' & Hlim & _ & _ & _ & Hvis & _ & Hcnt).
    pose proof (attempts_visit f f1 cur n Hvis) as Hatt.
    destruct (decide (cur = n)) as [-> | Hne].
    + rewrite Hn in Hn'. inversion Hn'; subst node'.
      rewrite (limit_exceeded_unbounded _ _ _ Ht Hc) in Hlim.
      rewrite bool_decide_eq_true_2 in Hatt by reflexivity.
      destruct Hcnt as [Hcnt | (_ & [c Hsome] & _)]; [| congruence].
      assert (Hc1 : counter_get f1 n = counter_get f n + 1).
      { unfold counter_get at 1. rewrite Hcnt.
        change (default 0 (loop_counter (entered node f n) !! n))
          with (counter_get (entered node f n) n).
        rewrite counter_entered_same, Ht. reflexivity. }
      apply IH; lia.
    + rewrite bool_decide_eq_false_2 in Hatt by assumption.
      assert (Hc1 : counter_get f1 n = counter_get f n).
      { unfold counter_get at 1.
        destruct Hcnt as [Hcnt | (_ & _ & Hcnt)]; rewrite Hcnt.
        - change (default 0 (loop_counter (entered node' f cur) !! n))
            with (counter_get (entered node' f cur) n).
          apply counter_entered_other, Hne.
        - rewrite lookup_insert_ne by assumption.
          change (default 0 (loop_counter (entered node' f cur) !! n))
            with (counter_get (entered node' f cur) n).
          apply counter_entered_other, Hne. }
      apply IH; lia.
Qed.

Lemma reached_counter g initial_state k f n node :
  nodes g !! n = Some node →
  node_type node = LOOP → loop_condition node = None →
  reached g initial_state k f →
  counter_get f n = attempts f n
  ∧ attempts f n ≤ Z.max 0 (max_iterations node).
Proof.
  intros Hn Ht Hc [_ Hsteps].
  eapply (counter_is_attempts g n node Hn Ht Hc); [exact Hsteps | |].
  - reflexivity.
  - unfold attempts. simpl. lia.
Qed.

(** The pass at a loop node without condition whose counter has reached
    the bound: the error entry is written with the state of the start of
    the attempt on both sides, and the node function is not called. *)
Lemma body_limit g f cur node :
  nodes g !! cur = Some node →
  node_type node = LOOP → loop_condition node = None →
  max_iterations node < counter_get f cur + 1 →
  body g f cur =
    Raise (push_log (entered node f cur)
             (error_entry cur (state f) (state f)
                (str_of (LoopLimit cur (max_iterations node)))))
      (LoopLimit cur (max_iterations node)).
Proof.
  intros Hn Ht Hc Hlt. rewrite (body_unfold _ _ _ _ Hn).
  rewrite (limit_exceeded_unbounded _ _ _ Ht Hc).
  replace (counter_get f cur + 1 >? max_iterations node) with true
    by (symmetry; apply Z.gtb_lt; lia).
  unfold handler. rewrite entered_state. reflexivity.
Qed.

(** C2.  In a run of a graph with a loop node [n] that has no loop
    condition and the bound [K] (a count, so not negative): no attempt at
    [n] after number [K + 1] ever starts, the attempts up to number [K]
    do not fail with the loop-limit error, and attempt number [K + 1]
    fails with it, without calling the node function. *)
Theorem loop_limit_on_attempt_after_bound g initial_state k f n node K :
  nodes g !! n = Some node →
  node_type node = LOOP → loop_condition node = None →
  max_iterations node = K → 0 ≤ K →
  reached g initial_state k f →
  truthy (current_node_id f) = Some n →
  attempts f n + 1 ≤ K + 1
  ∧ (attempts f n + 1 ≤ K →
       ∀ f' e, body g f n = Raise f' e → ∃ msg, e = UserExc msg)
  ∧ (attempts f n + 1 = K + 1 →
       ∃ f', body g f n = Raise f' (LoopLimit n K)
             ∧ fn_calls f' = fn_calls f
             ∧ ∀ j, run (k + S j) g initial_state = Some (inl (LoopLimit n K))).
Proof.
  intros Hn Ht Hc HK Hpos Hreach Hcur.
  destruct (reached_counter _ _ _ _ _ _ Hn Ht Hc Hreach) as [Heq Hle].
  rewrite HK in Hle. split; [lia |]. split.
  - intros Hatt f' e Hbody.
    destruct (body_raise _ _ _ _ _ Hbody)
      as [(Hnone & _) | [(node' & Hn' & Hlim & _)
                        | (node' & msg & _ & _ & _ & He & _)]].
    + congruence.
    + rewrite Hn in Hn'. inversion Hn'; subst node'.
      rewrite (limit_exceeded_unbounded _ _ _ Ht Hc) in Hlim.
      apply Z.gtb_lt in Hlim. lia.
    + eauto.
  - intros Hatt.
    pose proof (body_limit g f n node Hn Ht Hc ltac:(lia)) as Hbody.
    rewrite HK in Hbody. eexists. split; [exact Hbody |].
    split; [simpl; apply entered_calls |].
    intros j. unfold run.
    rewrite (run_frame_raise _ _ _ _ _ _ _ j Hreach Hcur Hbody). reflexivity.
Qed.

(** C10.  When the counter of a loop node without loop condition passes
    its bound, the pass appends an error entry for that node whose input
    and output states are both the state at the start of the attempt,
    the node function is not called, and the run stops with the
    loop-limit error, this entry being the last of the log. *)
Theorem loop_limit_is_logged g initial_state k f cur node :
  nodes g !! cur = Some node →
  node_type node = LOOP → loop_condition node = None →
  max_iterations node < counter_get f cur + 1 →
  reached g initial_state k f →
  truthy (current_node_id f) = Some cur →
  ∃ f' entry,
    body g f cur = Raise f' (LoopLimit cur (max_iterations node))
    ∧ logs f' = (logs f ++ [entry])%list
    ∧ node_id entry = cur ∧ status entry = "error"
    ∧ error entry = Some (str_of (LoopLimit cur (max_iterations node)))
    ∧ input_state entry = state f ∧ output_state entry = state f
    ∧ fn_calls f' = fn_calls f
    ∧ ∀ j, run_frame (k + S j) g initial_state =
             Some (Raise f' (LoopLimit cur (max_iterations node))).
Proof.
  intros Hn Ht Hc Hlt Hreach Hcur.
  pose proof (body_limit g f cur node Hn Ht Hc Hlt) as Hbody.
  eexists _, _. split; [exact Hbody |]. simpl.
  rewrite entered_logs, entered_calls.
  do 7 (split; [reflexivity |]).
  intros j. apply (run_frame_raise _ _ _ _ _ _ _ j Hreach Hcur Hbody).
Qed.

(** *** Loop conditions *)

(** C3.  At a loop node with a loop condition, once the function has
    returned and its result is merged: when the condition is true on the
    merged state, the pass ends with the same current node (so the next
    pass runs this node again), whatever the edges of the graph are, and
    the counter keeps the value it got at the start of the attempt; when
    the condition is false, the counter of the node is set to zero and
    then the edges are evaluated. *)
Theorem loop_condition_decides g f cur node cond mutated result :
  nodes g !! cur = Some node →
  node_type node = LOOP → loop_condition node = Some cond →
  truthy (current_node_id f) = Some cur →
  fn node (state f) = (mutated, inr result) →
  (cond (result ∪ mutated) = inr true →
     ∃ f', body g f cur = Next f'
           ∧ (∀ es, body (with_edges g es) f cur = Next f')
           ∧ truthy (current_node_id f') = Some cur
           ∧ loop_counter f' !! cur = Some (counter_get f cur + 1)
           ∧ ∀ fuel, while_loop (S fuel) g f = while_loop fuel g f')
  ∧ (cond (result ∪ mutated) = inr false →
     ∃ fr, body g f cur = route g fr cur (state f)
           ∧ loop_counter fr !! cur = Some 0
           ∧ state fr = result ∪ mutated
           ∧ ∀ f', body g f cur = Next f' → loop_counter f' !! cur = Some 0).
Proof.
  intros Hn Ht Hc Hcur Hf.
  assert (Hbody : ∀ g', nodes g' = nodes g →
            body g' f cur =
              continue_or_route g' node
                (push_log
                   (with_state
                      (push_call (with_state (entered node f cur) mutated) cur)
                      (result ∪ mutated))
                   (success_entry cur (state f) (result ∪ mutated)))
                cur (state f)).
  { intros g' Hg'. rewrite (body_unfold g' f cur node) by (rewrite Hg'; exact Hn).
    unfold limit_exceeded. rewrite Hc, andb_false_r.
    rewrite (invoke_returns _ _ _ _ mutated result)
      by (rewrite entered_state; exact Hf).
    reflexivity. }
  split; intros Hcond.
  - eexists. split; [| split; [| split; [| split]]].
    + rewrite (Hbody g eq_refl). unfold continue_or_route.
      rewrite Ht, Hc. simpl. rewrite Hcond. reflexivity.
    + intros es. rewrite (Hbody (with_edges g es) eq_refl).
      unfold continue_or_route. rewrite Ht, Hc. simpl. rewrite Hcond.
      reflexivity.
    + simpl. unfold entered, count_attempt. rewrite Ht. simpl. exact Hcur.
    + simpl. unfold entered, count_attempt. rewrite Ht. simpl.
      rewrite lookup_insert_eq. reflexivity.
    + intros fuel. rewrite (while_loop_pass _ _ _ _ Hcur), (Hbody g eq_refl).
      unfold continue_or_route. rewrite Ht, Hc. simpl. rewrite Hcond.
      reflexivity.
  - eexists. split; [| split; [| split]].
    + rewrite (Hbody g eq_refl). unfold continue_or_route.
      rewrite Ht, Hc. simpl. rewrite Hcond. reflexivity.
    + simpl. rewrite lookup_insert_eq. reflexivity.
    + reflexivity.
    + intros f' Hnext. rewrite (Hbody g eq_refl) in Hnext.
      unfold continue_or_route in Hnext. rewrite Ht, Hc in Hnext.
      simpl in Hnext. rewrite Hcond in Hnext.
      match type of Hnext with
      | route g ?fr cur ?i = _ =>
          destruct (route_inv g fr cur i)
            as [(f1 & nn & Hr & _ & _ & _ & _ & _ & Hk & _) | (msg & _ & Hr)];
            rewrite Hr in Hnext; [| discriminate]
      end.
      inversion Hnext; subst f1. rewrite Hk. simpl.
      rewrite lookup_insert_eq. reflexivity.
Qed.

(** *** Edges *)

Lemma collect_next_eligible st (es : list (WorkflowEdge V)) acc :
  conditions_evaluate st es →
  collect_next es st acc =
    inr (acc ++ (to_node <$> List.filter (eligible st) es))%list.
Proof.
  revert acc. induction es as [| e es IH]; intros acc Hev; simpl.
  - rewrite app_nil_r. reflexivity.
  - assert (Hes : conditions_evaluate st es)
      by (intros e' c Hin; apply Hev; right; exact Hin).
    unfold eligible at 1.
    destruct (condition e) as [cond|] eqn:Hc.
    + destruct (Hev e cond (or_introl eq_refl) Hc) as [b Hb]. rewrite Hb.
      destruct b; rewrite (IH _ Hes); [| reflexivity].
      rewrite <- app_assoc. reflexivity.
    + rewrite (IH _ Hes), <- app_assoc. reflexivity.
Qed.

(** C7.  When the pass at a node reaches the edges and none is eligible,
    the run ends there and returns the state and the log; the only trace
    of an end outside a declared set of end nodes is a warning. *)
Theorem no_eligible_edge_ends_run g initial_state k f cur node mutated result :
  reached g initial_state k f →
  truthy (current_node_id f) = Some cur →
  nodes g !! cur = Some node →
  limit_exceeded node (entered node f cur) cur = false →
  fn node (state f) = (mutated, inr result) →
  leaves_loop node (result ∪ mutated) →
  _get_next_nodes g cur (result ∪ mutated) = inr [] →
  ∃ f', body g f cur = Next f'
        ∧ current_node_id f' = None
        ∧ warnings f' = (warnings f ++ end_warning g cur)%list
        ∧ ((cur ∉ end_nodes g) ∧ ¬ (end_nodes g = ∅) →
             end_warning g cur = [EndedOutsideEndNodes cur])
        ∧ (¬ ((cur ∉ end_nodes g) ∧ ¬ (end_nodes g = ∅)) →
             end_warning g cur = [])
        ∧ ∀ j, run (k + S j) g initial_state =
                 Some (inr (result ∪ mutated,
                            (logs f ++ [success_entry cur (state f)
                                          (result ∪ mutated)])%list)).
Proof.
  intros Hreach Hcur Hn Hlim Hf Hleave Hnone.
  assert (Hbody : ∃ f', body g f cur = Next f'
            ∧ current_node_id f' = None
            ∧ warnings f' = (warnings f ++ end_warning g cur)%list
            ∧ state f' = result ∪ mutated
            ∧ logs f' = (logs f ++ [success_entry cur (state f)
                                      (result ∪ mutated)])%list).
  { rewrite (body_unfold _ _ _ _ Hn), Hlim.
    rewrite (invoke_returns _ _ _ _ mutated result)
      by (rewrite entered_state; exact Hf).
    unfold continue_or_route. unfold leaves_loop in Hleave.
    destruct (if is_loop (node_type node) then loop_condition node else None)
      as [cond|].
    - simpl state at 1. rewrite Hleave.
      rewrite route_empty by exact Hnone. eexists. split; [reflexivity |].
      simpl. rewrite entered_warnings, entered_logs. auto.
    - rewrite route_empty by exact Hnone. eexists. split; [reflexivity |].
      simpl. rewrite entered_warnings, entered_logs. auto. }
  destruct Hbody as (f' & Hbody & Hc & Hw & Hs & Hl).
  exists f'. split; [exact Hbody |]. split; [exact Hc |]. split; [exact Hw |].
  split; [| split].
  - intros [Hnot Hne]. unfold end_warning.
    rewrite bool_decide_eq_true_2 by exact Hnot.
    rewrite bool_decide_eq_false_2 by exact Hne. reflexivity.
  - intros Hno. unfold end_warning.
    destruct (bool_decide (cur ∉ end_nodes g)) eqn:E1; [| reflexivity].
    destruct (bool_decide (end_nodes g = ∅)) eqn:E2; [reflexivity |].
    apply bool_decide_eq_true_1 in E1. apply bool_decide_eq_false_1 in E2.
    tauto.
  - intros j. unfold run.
    destruct Hreach as [Hstart Hsteps].
    assert (Hreach' : reached g initial_state (S k) f')
      by (split; [exact Hstart | eapply steps_snoc; eassumption]).
    replace (k + S j)%nat with (S k + j)%nat by lia.
    rewrite (run_frame_return _ _ _ _ j Hreach')
      by (rewrite Hc; reflexivity).
    rewrite Hs, Hl. reflexivity.
Qed.

(** *** The log *)

(** A pass, whether it raises or not, only appends to the log. *)
Lemma body_appends g f cur :
  ∃ added,
    match body g f cur with
    | Next f' => logs f' = (logs f ++ added)%list
    | Raise f' _ => logs f' = (logs f ++ added)%list
    end.
Proof.
  destruct (body g f cur) as [f' | f' e] eqn:Hbody.
  - destruct (body_next _ _ _ _ Hbody)
      as (node & mutated & result & _ & _ & _ & _ & Hl & _).
    eauto.
  - destruct (body_raise _ _ _ _ _ Hbody)
      as [(_ & _ & ->) | [(node & _ & _ & _ & ->)
                         | (node & msg & earlier & _ & _ & _ & Hl & _)]].
    + exists []. rewrite app_nil_r. reflexivity.
    + simpl. rewrite entered_logs. eauto.
    + rewrite Hl. eauto.
Qed.

(** *** The start node *)

Lemma run_no_start fuel g initial_state :
  truthy (start_node g) = None →
  run fuel g initial_state = Some (inl NoStartNode).
Proof. intros H. unfold run, run_frame. rewrite H. reflexivity. Qed.

(** With a start node whose id is not empty, [run] does not raise the
    no-start-node error and the first pass is at the start node. *)
Lemma run_from_start fuel g initial_state s :
  start_node g = Some s → s ≠ EmptyString →
  run_frame (S fuel) g initial_state =
    match body g (initial_frame g initial_state) s with
    | Next f' => while_loop fuel g f'
    | Raise f' e => Some (Raise f' e)
    end
  ∧ run (S fuel) g initial_state ≠ Some (inl NoStartNode).
Proof.
  intros Hs Hne.
  assert (Ht : truthy (start_node g) = Some s)
    by (rewrite Hs; apply truthy_nonempty, Hne).
  assert (Hrun : run_frame (S fuel) g initial_state =
            match body g (initial_frame g initial_state) s with
            | Next f' => while_loop fuel g f'
            | Raise f' e => Some (Raise f' e)
            end).
  { unfold run_frame. rewrite Ht. apply while_loop_pass. exact Ht. }
  split; [exact Hrun |]. unfold run. rewrite Hrun.
  destruct (body g (initial_frame g initial_state) s) as [f' | f' e] eqn:Hb.
  - destruct (while_loop fuel g f') as [[f2 | f2 e] |] eqn:Hw;
      try discriminate.
    intros Heq. inversion Heq; subst e.
    clear Hrun Heq Hb. revert f' Hw.
    induction fuel as [| fuel IH]; intros f' Hw; simpl in Hw.
    + destruct (truthy (current_node_id f')); discriminate.
    + destruct (truthy (current_node_id f')) as [c|]; [| discriminate].
      destruct (body g f' c) as [f3 | f3 e] eqn:Hb.
      * apply (IH f3 Hw).
      * inversion Hw; subst.
        destruct (body_raise _ _ _ _ _ Hb)
          as [(_ & ? & _) | [(? & _ & _ & ? & _) | (? & ? & ? & _ & _ & ? & _)]];
          discriminate.
  - intros Heq. inversion Heq; subst e.
    destruct (body_raise _ _ _ _ _ Hb)
      as [(_ & ? & _) | [(? & _ & _ & ? & _) | (? & ? & ? & _ & _ & ? & _)]];
      discriminate.
Qed.

Lemma advance_steps g n f :
  advances n g f = true → steps g n f (advance n g f).
Proof.
  revert f. induction n as [| n IH]; intros f H; simpl in *.
  - constructor.
  - destruct (truthy (current_node_id f)) as [cur|] eqn:Hcur;
      [| discriminate].
    destruct (body g f cur) as [f' | f' e] eqn:Hbody; [| discriminate].
    eapply steps_S; [exact Hcur | exact Hbody | apply IH, H].
Qed.

Lemma advance_reached g initial_state n :
  is_Some (truthy (start_node g)) →
  advances n g (initial_frame g initial_state) = true →
  reached g initial_state n (advance n g (initial_frame g initial_state)).
Proof. intros Hs H. split; [exact Hs | apply advance_steps, H]. Qed.

End EngineFacts.

(** *** The start node with an empty id *)

(** C9 (the code falls short of it).  A graph whose first node has the
    empty string as id has this node as start node, and [run] raises the
    no-start-node error all the same: [if not self.start_node] is true
    for the empty string as well as for [None]. *)
Theorem empty_start_id_is_no_start_node {V : Type}
    (fn : gmap string V → gmap string V * (string + gmap string V))
    (node_type : NodeType)
    (loop_condition : option (gmap string V → string + bool))
    (max_iterations : Z) :
  ∃ g, add_node new_graph EmptyString fn node_type loop_condition
         max_iterations = inr g
       ∧ start_node g = Some EmptyString
       ∧ is_Some (nodes g !! EmptyString)
       ∧ ∀ fuel initial_state,
           run fuel g initial_state = Some (inl NoStartNode).
Proof.
  eexists. split; [reflexivity |]. split; [reflexivity |]. split.
  - simpl. rewrite lookup_insert_eq. eauto.
  - intros fuel initial_state. apply run_no_start. reflexivity.
Qed.

(** *** Instances *)

(** A negative bound, which [add_node] accepts, makes the first attempt
    fail. *)
Lemma negative_bound_fails_first_attempt :
  ∃ f, run_frame 1 (graph_loop (-1) None) ∅ =
         Some (Raise f (LoopLimit "l" (-1)))
       ∧ attempts f "l" = 1
       ∧ attempts f "l" ≠ -1 + 1.
Proof.
  eexists. split; [vm_compute; reflexivity |].
  split; [reflexivity | discriminate].
Qed.

Lemma loop_limit_on_attempt_after_bound_witness :
  let f := advance 1 (graph_loop 1 None) (initial_frame (graph_loop 1 None) ∅) in
  attempts f "l" + 1 ≤ 1 + 1
  ∧ (attempts f "l" + 1 ≤ 1 →
       ∀ f' e, body (graph_loop 1 None) f "l" = Raise f' e →
               ∃ msg, e = UserExc msg)
  ∧ (attempts f "l" + 1 = 1 + 1 →
       ∃ f', body (graph_loop 1 None) f "l" = Raise f' (LoopLimit "l" 1)
             ∧ fn_calls f' = fn_calls f
             ∧ ∀ j, run (1 + S j) (graph_loop 1 None) ∅ =
                      Some (inl (LoopLimit "l" 1))).
Proof.
  apply (loop_limit_on_attempt_after_bound (graph_loop 1 None) ∅ 1 _ "l"
           {| id := "l"; fn := returning ∅; node_type := LOOP;
              loop_condition := None; max_iterations := 1 |} 1).
  - reflexivity.
  - reflexivity.
  - reflexivity.
  - reflexivity.
  - lia.
  - apply advance_reached; [simpl; eauto | vm_compute; reflexivity].
  - vm_compute. reflexivity.
Defined.

Lemma loop_limit_is_logged_witness :
  let g := graph_loop 1 None in
  let f := advance 1 g (initial_frame g ∅) in
  ∃ f' entry,
    body g f "l" = Raise f' (LoopLimit "l" 1)
    ∧ logs f' = (logs f ++ [entry])%list
    ∧ node_id entry = "l" ∧ status entry = "error"
    ∧ error entry = Some (str_of (LoopLimit "l" 1))
    ∧ input_state entry = state f ∧ output_state entry = state f
    ∧ fn_calls f' = fn_calls f
    ∧ ∀ j, run_frame (1 + S j) g ∅ = Some (Raise f' (LoopLimit "l" 1)).
Proof.
  apply (loop_limit_is_logged (graph_loop 1 None) ∅ 1 _ "l"
           {| id := "l"; fn := returning ∅; node_type := LOOP;
              loop_condition := None; max_iterations := 1 |}).
  - reflexivity.
  - reflexivity.
  - reflexivity.
  - vm_compute. reflexivity.
  - apply advance_reached; [simpl; eauto | vm_compute; reflexivity].
  - vm_compute. reflexivity.
Defined.

Lemma loop_condition_decides_witness :
  let g := graph_loop 10 (Some has_again) in
  let f := initial_frame g {[ "again" := VBool true ]} in
  (has_again (∅ ∪ {[ "again" := VBool true ]}) = inr true →
     ∃ f', body g f "l" = Next f'
           ∧ (∀ es, body (with_edges g es) f "l" = Next f')
           ∧ truthy (current_node_id f') = Some "l"
           ∧ loop_counter f' !! "l" = Some (counter_get f "l" + 1)
           ∧ ∀ fuel, while_loop (S fuel) g f = while_loop fuel g f')
  ∧ (has_again (∅ ∪ {[ "again" := VBool true ]}) = inr false →
     ∃ fr, body g f "l" = route g fr "l" (state f)
           ∧ loop_counter fr !! "l" = Some 0
           ∧ state fr = ∅ ∪ {[ "again" := VBool true ]}
           ∧ ∀ f', body g f "l" = Next f' → loop_counter f' !! "l" = Some 0).
Proof.
  apply (loop_condition_decides (graph_loop 10 (Some has_again))
           (initial_frame (graph_loop 10 (Some has_again))
              {[ "again" := VBool true ]})
           "l"
           {| id := "l"; fn := returning ∅; node_type := LOOP;
              loop_condition := Some has_again; max_iterations := 10 |}
           has_again {[ "again" := VBool true ]} ∅).
  - reflexivity.
  - reflexivity.
  - reflexivity.
  - reflexivity.
  - reflexivity.
Defined.

Lemma no_eligible_edge_ends_run_witness :
  let g := graph_branch in
  let f := advance 1 g (initial_frame g ∅) in
  ∃ f', body g f "b" = Next f'
        ∧ current_node_id f' = None
        ∧ warnings f' = (warnings f ++ end_warning g "b")%list
        ∧ (("b" ∉ end_nodes g) ∧ ¬ (end_nodes g = ∅) →
             end_warning g "b" = [EndedOutsideEndNodes "b"])
        ∧ (¬ (("b" ∉ end_nodes g) ∧ ¬ (end_nodes g = ∅)) →
             end_warning g "b" = [])
        ∧ ∀ j, run (1 + S j) g ∅ =
                 Some (inr ({[ "at" := VStr "b" ]} ∪ state f,
                            (logs f ++ [success_entry "b" (state f)
                                          ({[ "at" := VStr "b" ]} ∪ state f)])%list)).
Proof.
  apply (no_eligible_edge_ends_run graph_branch ∅ 1 _ "b"
           (standard_node "b" (returning {[ "at" := VStr "b" ]}))).
  - apply advance_reached; [simpl; eauto | vm_compute; reflexivity].
  - vm_compute. reflexivity.
  - reflexivity.
  - reflexivity.
  - reflexivity.
  - exact I.
  - reflexivity.
Defined.

(** *** The code-review workflow *)

Lemma setup_code_review_workflow_graph :
  setup_code_review_workflow = inr code_review_graph.
Proof.
  unfold code_review_graph, setup_code_review_workflow.
  generalize (reading extract_functions) (reading check_complexity)
    (reading detect_issues) (reading suggest_improvements).
  intros f1 f2 f3 f4. vm_compute. reflexivity.
Qed.

Lemma code_review_nodes :
  nodes code_review_graph !! "extract"
    = Some (standard_node "extract" (reading extract_functions))
  ∧ nodes code_review_graph !! "complexity"
    = Some (standard_node "complexity" (reading check_complexity))
  ∧ nodes code_review_graph !! "detect_issues"
    = Some (standard_node "detect_issues" (reading detect_issues))
  ∧ nodes code_review_graph !! "suggest"
    = Some (standard_node "suggest" (reading suggest_improvements)).
Proof.
  unfold code_review_graph, setup_code_review_workflow.
  generalize (reading extract_functions) (reading check_complexity)
    (reading detect_issues) (reading suggest_improvements).
  intros f1 f2 f3 f4. vm_compute. auto.
Qed.

Lemma code_review_edges st :
  start_node code_review_graph = Some "extract"
  ∧ _get_next_nodes code_review_graph "extract" st = inr ["complexity"]
  ∧ _get_next_nodes code_review_graph "complexity" st = inr ["detect_issues"]
  ∧ _get_next_nodes code_review_graph "detect_issues" st = inr ["suggest"]
  ∧ _get_next_nodes code_review_graph "suggest" st = inr []
  ∧ end_warning code_review_graph "suggest" = [].
Proof.
  unfold code_review_graph, setup_code_review_workflow.
  generalize (reading extract_functions) (reading check_complexity)
    (reading detect_issues) (reading suggest_improvements).
  intros f1 f2 f3 f4. vm_compute. auto 10.
Qed.

(** [rstrip] keeps a prefix of its argument, [lstrip] a suffix. *)
Lemma prefix_rstrip p t :
  String.prefix p (rstrip t) = true → String.prefix p t = true.
Proof.
  revert p. induction t as [| c t IH]; intros p H; [exact H |].
  destruct p as [| a p]; [reflexivity |].
  simpl in H. simpl.
  destruct (rstrip t) as [| k kept] eqn:Hr.
  - destruct (is_space c); simpl in H; [discriminate |].
    destruct (ascii_dec a c); [| discriminate].
    apply IH, H.
  - simpl in H. destruct (ascii_dec a c); [| discriminate].
    apply IH, H.
Qed.

Lemma contains_lstrip p s :
  String.prefix p (lstrip s) = true → str_contains s p = true.
Proof.
  induction s as [| c s IH]; intros H.
  - simpl in *. rewrite H. reflexivity.
  - simpl in H. destruct (is_space c).
    + change (str_contains (String c s) p)
        with (String.prefix p (String c s) || str_contains s p).
      rewrite (IH H). apply orb_true_r.
    + change (str_contains (String c s) p)
        with (String.prefix p (String c s) || str_contains s p).
      rewrite H. reflexivity.
Qed.

(** A string that contains the separator splits into two pieces at
    least. *)
Lemma split_contains s sep :
  str_contains s sep = true → sep ≠ EmptyString →
  ∃ first second rest, split s sep = first :: second :: rest.
Proof.
  intros H Hsep. unfold split.
  induction s as [| c s IH].
  - simpl in H. destruct sep; [congruence | discriminate].
  - change (str_contains (String c s) sep)
      with (String.prefix sep (String c s) || str_contains s sep) in H.
    cbn [split_from].
    destruct (String.prefix sep (String c s)) eqn:Hp.
    + destruct (split_from sep (String.length sep - 1) s) as [piece pieces].
      eauto.
    + simpl in H. destruct (IH H) as (first & second & rest & Hs).
      destruct (split_from sep 0 s) as [piece pieces].
      inversion Hs; subst. eauto.
Qed.

Lemma func_name_def line :
  startswith (strip line) "def " = true → ∃ name, func_name line = inr name.
Proof.
  intros H. unfold startswith, strip in H.
  apply prefix_rstrip, contains_lstrip in H.
  destruct (split_contains line "def " H ltac:(discriminate))
    as (first & second & rest & Hs).
  unfold func_name. rewrite Hs. unfold split.
  destruct (split_from "(" 0 second) as [piece pieces]. eauto.
Qed.

Lemma collect_functions_length lines : ∀ functions,
  ∃ names,
    collect_functions lines functions = inr (functions ++ names)%list
    ∧ List.length names =
        List.length (List.filter (λ line, startswith (strip line) "def ")
                       lines).
Proof.
  induction lines as [| line lines IH]; intros functions; simpl.
  - exists []. rewrite app_nil_r. split; reflexivity.
  - destruct (startswith (strip line) "def ") eqn:Hd.
    + destruct (func_name_def line Hd) as [name Hn]. rewrite Hn. simpl.
      destruct (IH (functions ++ [name])%list) as (names & Hc & Hl).
      exists (name :: names). rewrite Hc, <- app_assoc. simpl.
      split; [reflexivity | congruence].
    + apply IH.
Qed.

Lemma get_Some (st : gmap string Val) key default v :
  st !! key = Some v → get st key default = v.
Proof. intros H. unfold get. rewrite H. reflexivity. Qed.

Lemma float_of_int_1 :
  float_of_int 1 = inr (S754_finite false 4503599627370496 (-52)).
Proof. vm_compute. reflexivity. Qed.

Lemma extract_functions_returns (st : gmap string Val) code :
  st !! "code" = Some (VStr code) →
  is_Some (to_num (get st "iteration" (VInt 0))) →
  ∃ names iteration,
    extract_functions st =
      inr (<["functions" := VList (VStr <$> names)]>
           (<["function_count" := VInt (Z.of_nat (def_lines code))]>
            (<["iteration" := iteration]> ∅)))
    ∧ List.length names = def_lines code.
Proof.
  intros Hcode [x Hx]. unfold extract_functions.
  rewrite (get_Some _ _ _ _ Hcode). cbn [method_split bind].
  destruct (collect_functions_length (split code newline) [])
    as (names & Hc & Hl).
  rewrite Hc. cbn [bind app].
  assert (Hadd : ∃ it, add_one (get st "iteration" (VInt 0)) = inr it).
  { unfold add_one. rewrite Hx. destruct x as [n | y].
    - eexists. reflexivity.
    - unfold num_add, num_arith. rewrite float_of_int_1. eexists.
      reflexivity. }
  destruct Hadd as [it Hit]. rewrite Hit. cbn [bind].
  exists names, it. unfold def_lines. rewrite Hl. split; reflexivity.
Qed.

Lemma count_deep_ge lines : ∀ acc, acc ≤ count_deep lines acc.
Proof.
  induction lines as [| line lines IH]; intros acc; simpl; [lia |].
  destruct (_ >? 8); [specialize (IH (acc + 1)); lia | apply IH].
Qed.

Lemma check_complexity_returns (st : gmap string Val) code :
  st !! "code" = Some (VStr code) →
  ∃ issues score,
    check_complexity st =
      inr (<["complexity_issues" := VInt issues]>
           (<["complexity_score" := VInt score]> ∅))
    ∧ 0 ≤ score ≤ 100.
Proof.
  intros Hcode. unfold check_complexity.
  rewrite (get_Some _ _ _ _ Hcode). cbn [method_split bind].
  eexists _, _. split; [reflexivity |].
  pose proof (count_deep_ge (split code newline) 0). lia.
Qed.

Lemma detect_issues_returns (st : gmap string Val) code n :
  st !! "code" = Some (VStr code) →
  st !! "function_count" = Some (VInt n) →
  ∃ issues,
    detect_issues st =
      inr (<["issues" := VList (VStr <$> issues)]>
           (<["issue_count" := VInt (Z.of_nat (List.length issues))]> ∅))
    ∧ (List.length issues ≤ 3)%nat.
Proof.
  intros Hcode Hn. unfold detect_issues.
  rewrite (get_Some _ _ _ _ Hcode), (get_Some _ _ _ _ Hn).
  cbn [method_count bind lt gt to_num contains].
  destruct (str_count code newline >? 30);
    destruct (num_lt _ _);
    destruct (str_contains code "import"); cbn [bind];
    try destruct (num_gt _ _);
    eexists; (split; [reflexivity | simpl; lia]).
Qed.

Lemma float_of_int_small g :
  0 ≤ g ≤ 100 → ∃ x, float_of_int g = inr x.
Proof.
  intros Hg.
  assert (Hall : forallb (λ n, match float_of_int (Z.of_nat n) with
                               | inr _ => true
                               | inl _ => false
                               end) (seq 0 101) = true)
    by (vm_compute; reflexivity).
  rewrite forallb_forall in Hall.
  specialize (Hall (Z.to_nat g)).
  rewrite Z2Nat.id in Hall by lia.
  destruct (float_of_int g) as [msg | x]; [| eauto].
  assert (false = true); [| discriminate].
  apply Hall, in_seq. lia.
Qed.

Lemma suggest_improvements_returns (st : gmap string Val) l score n :
  st !! "issues" = Some (VList l) →
  st !! "complexity_score" = Some (VInt score) →
  st !! "issue_count" = Some (VInt n) →
  0 ≤ score ≤ 100 → 0 ≤ n ≤ 3 →
  ∃ suggestions quality_score,
    suggest_improvements st =
      inr (<["suggestions" := VList (VStr <$> suggestions)]>
           (<["quality_score" := quality_score]> ∅)).
Proof.
  intros Hl Hs Hn Hscore Hcount. unfold suggest_improvements.
  rewrite (get_Some _ _ _ _ Hl), (get_Some _ _ _ _ Hs), (get_Some _ _ _ _ Hn).
  unfold mul, sub, arith, max_val, min_val, gt, lt.
  cbn [bind to_num of_num num_mul num_sub num_arith contains].
  destruct (float_of_int_small (100 - n * 10) ltac:(lia)) as [q Hq].
  destruct (num_gt (NInt (100 - score)) (NInt 0)) eqn:Hgap.
  - destruct (float_of_int_small (100 - score) ltac:(lia)) as [x Hx].
    cbn [bind to_num of_num num_mul num_sub num_arith].
    rewrite Hx. cbn [bind to_num of_num num_mul num_sub num_arith].
    rewrite Hq. cbn [bind to_num of_num num_mul num_sub num_arith].
    match goal with
    | |- context [num_lt ?a ?b] => destruct (num_lt a b)
    end; cbn [bind to_num of_num]; eexists _, _; reflexivity.
  - destruct (float_of_int_small 0 ltac:(lia)) as [x Hx].
    cbn [bind to_num of_num num_mul num_sub num_arith].
    rewrite Hx. cbn [bind to_num of_num num_mul num_sub num_arith].
    rewrite Hq. cbn [bind to_num of_num num_mul num_sub num_arith].
    match goal with
    | |- context [num_lt ?a ?b] => destruct (num_lt a b)
    end; cbn [bind to_num of_num]; eexists _, _; reflexivity.
Qed.

(** The pass at a standard node whose function only reads the state and
    returns, with one eligible edge or none. *)
Lemma body_reading g (f : Frame Val) cur h upd next_nodes :
  nodes g !! cur = Some (standard_node cur (reading h)) →
  h (state f) = inr upd →
  _get_next_nodes g cur (upd ∪ state f) = inr next_nodes →
  (List.length next_nodes ≤ 1)%nat →
  body g f cur =
    Next {| state := upd ∪ state f;
            logs := logs f ++ [success_entry cur (state f) (upd ∪ state f)];
            visited_sequence := visited_sequence f ++ [cur];
            current_node_id := head next_nodes;
            loop_counter := loop_counter f;
            warnings := warnings f ++
              match next_nodes with
              | [] => end_warning g cur
              | _ => []
              end;
            fn_calls := fn_calls f ++ [cur] |}.
Proof.
  intros Hn Hh Hnext Hlen. rewrite (body_unfold _ _ _ _ Hn).
  unfold limit_exceeded. cbn [standard_node node_type is_loop andb].
  rewrite (invoke_returns _ _ _ _ (state f) upd)
    by (rewrite entered_state; unfold reading; simpl; rewrite Hh; reflexivity).
  unfold continue_or_route. cbn [standard_node node_type is_loop].
  destruct next_nodes as [| n [| n' ns]]; [| | simpl in Hlen; lia].
  - rewrite route_empty by exact Hnext. reflexivity.
  - unfold route. cbn [state push_log with_state]. rewrite Hnext.
    unfold with_current. simpl. rewrite app_nil_r. reflexivity.
Qed.

Ltac absent :=
  rewrite ?lookup_insert_ne by discriminate; apply lookup_empty.

Ltac present :=
  rewrite ?lookup_insert_ne by discriminate; apply lookup_insert_eq.

(** C8 (amended).  For the code-review workflow (extract, complexity,
    detect_issues, suggest in a line, start extract, end nodes suggest)
    and every initial state whose [code] is a text with exactly two lines
    whose stripped form starts with ["def "], and whose [iteration], when
    there is one, is a number: with fuel for four passes or more, [run]
    returns a final state with [function_count] 2 and a log of four
    entries, all with status success, for the four nodes in this
    order. *)
Theorem code_review_two_functions (initial_state : gmap string Val) code fuel :
  initial_state !! "code" = Some (VStr code) →
  def_lines code = 2%nat →
  is_Some (to_num (get initial_state "iteration" (VInt 0))) →
  (4 ≤ fuel)%nat →
  ∃ g final lg,
    setup_code_review_workflow = inr g
    ∧ run fuel g initial_state = Some (inr (final, lg))
    ∧ final !! "function_count" = Some (VInt 2)
    ∧ node_id <$> lg = ["extract"; "complexity"; "detect_issues"; "suggest"]
    ∧ status <$> lg = ["success"; "success"; "success"; "success"].
Proof.
  intros Hcode Hdef Hiter Hfuel.
  destruct fuel as [| [| [| [| fuel]]]]; try lia. clear Hfuel.
  destruct code_review_nodes as (Hn1 & Hn2 & Hn3 & Hn4).
  set (f0 := initial_frame code_review_graph initial_state).
  (* extract *)
  destruct (extract_functions_returns initial_state code Hcode Hiter)
    as (names & iteration & H1 & _).
  rewrite Hdef in H1.
  set (upd1 := <["functions" := VList (VStr <$> names)]> _) in H1.
  set (st1 := upd1 ∪ initial_state).
  assert (Hc1 : st1 !! "code" = Some (VStr code))
    by (subst st1 upd1; rewrite lookup_union_r by absent; exact Hcode).
  assert (Hf1 : st1 !! "function_count" = Some (VInt 2))
    by (subst st1 upd1; apply lookup_union_Some_l; present).
  (* complexity *)
  destruct (check_complexity_returns st1 code Hc1)
    as (issues & score & H2 & Hscore).
  set (upd2 := <["complexity_issues" := VInt issues]> _) in H2.
  set (st2 := upd2 ∪ st1).
  assert (Hc2 : st2 !! "code" = Some (VStr code))
    by (subst st2 upd2; rewrite lookup_union_r by absent; exact Hc1).
  assert (Hf2 : st2 !! "function_count" = Some (VInt 2))
    by (subst st2 upd2; rewrite lookup_union_r by absent; exact Hf1).
  assert (Hs2 : st2 !! "complexity_score" = Some (VInt score))
    by (subst st2 upd2; apply lookup_union_Some_l; present).
  (* detect_issues *)
  destruct (detect_issues_returns st2 code 2 Hc2 Hf2) as (found & H3 & Hfound).
  set (upd3 := <["issues" := VList (VStr <$> found)]> _) in H3.
  set (st3 := upd3 ∪ st2).
  assert (Hi3 : st3 !! "issues" = Some (VList (VStr <$> found)))
    by (subst st3 upd3; apply lookup_union_Some_l; present).
  assert (Hk3 : st3 !! "issue_count"
                = Some (VInt (Z.of_nat (List.length found))))
    by (subst st3 upd3; apply lookup_union_Some_l; present).
  assert (Hs3 : st3 !! "complexity_score" = Some (VInt score))
    by (subst st3 upd3; rewrite lookup_union_r by absent; exact Hs2).
  assert (Hf3 : st3 !! "function_count" = Some (VInt 2))
    by (subst st3 upd3; rewrite lookup_union_r by absent; exact Hf2).
  (* suggest *)
  assert (Hcount : 0 ≤ Z.of_nat (List.length found) ≤ 3) by lia.
  destruct (suggest_improvements_returns st3 _ score _ Hi3 Hs3 Hk3 Hscore
              Hcount)
    as (suggestions & quality & H4).
  set (upd4 := <["suggestions" := VList (VStr <$> suggestions)]> _) in H4.
  set (st4 := upd4 ∪ st3).
  assert (Hf4 : st4 !! "function_count" = Some (VInt 2))
    by (subst st4 upd4; rewrite lookup_union_r by absent; exact Hf3).
  (* the four passes *)
  destruct (code_review_edges st1) as (Hstart & He1 & _).
  destruct (code_review_edges st2) as (_ & _ & He2 & _).
  destruct (code_review_edges st3) as (_ & _ & _ & He3 & _).
  destruct (code_review_edges st4) as (_ & _ & _ & _ & He4 & Hw).
  pose proof (body_reading code_review_graph f0 "extract" extract_functions
                upd1 ["complexity"] Hn1 H1 He1 ltac:(simpl; lia)) as Hb1.
  set (f1 := {| state := upd1 ∪ state f0 |}) in Hb1.
  pose proof (body_reading code_review_graph f1 "complexity" check_complexity
                upd2 ["detect_issues"] Hn2 H2 He2 ltac:(simpl; lia)) as Hb2.
  set (f2 := {| state := upd2 ∪ state f1 |}) in Hb2.
  pose proof (body_reading code_review_graph f2 "detect_issues" detect_issues
                upd3 ["suggest"] Hn3 H3 He3 ltac:(simpl; lia)) as Hb3.
  set (f3 := {| state := upd3 ∪ state f2 |}) in Hb3.
  pose proof (body_reading code_review_graph f3 "suggest" suggest_improvements
                upd4 [] Hn4 H4 He4 ltac:(simpl; lia)) as Hb4.
  set (f4 := {| state := upd4 ∪ state f3 |}) in Hb4.
  exists code_review_graph, st4, (logs f4).
  split; [apply setup_code_review_workflow_graph |].
  assert (Hrun : run_frame (S (S (S (S fuel)))) code_review_graph initial_state
                 = Some (Next f4)).
  { unfold run_frame. rewrite Hstart. cbn [truthy]. fold f0.
    rewrite (while_loop_pass _ _ f0 "extract")
      by (unfold f0; simpl; rewrite Hstart; reflexivity).
    rewrite Hb1.
    rewrite (while_loop_pass _ _ f1 "complexity") by reflexivity.
    rewrite Hb2.
    rewrite (while_loop_pass _ _ f2 "detect_issues") by reflexivity.
    rewrite Hb3.
    rewrite (while_loop_pass _ _ f3 "suggest") by reflexivity.
    rewrite Hb4. apply while_loop_done. reflexivity. }
  unfold run. rewrite Hrun. split; [reflexivity |].
  split; [exact Hf4 |]. split; reflexivity.
Qed.

Lemma code_review_two_functions_witness :
  ∃ g final lg,
    setup_code_review_workflow = inr g
    ∧ run 4 g {[ "code" := VStr two_defs ]} = Some (inr (final, lg))
    ∧ final !! "function_count" = Some (VInt 2)
    ∧ node_id <$> lg = ["extract"; "complexity"; "detect_issues"; "suggest"]
    ∧ status <$> lg = ["success"; "success"; "success"; "success"].
Proof.
  apply (code_review_two_functions {[ "code" := VStr two_defs ]} two_defs 4).
  - reflexivity.
  - vm_compute. reflexivity.
  - simpl. eauto.
  - lia.
Defined.

(** C8 as stated fails: with two [def] lines in [code] and [None] under
    [iteration], the function of the first node raises a [TypeError] and
    the run stops there. *)
Lemma code_review_iteration_none_raises :
  def_lines two_defs = 2%nat
  ∧ setup_code_review_workflow = inr code_review_graph
  ∧ run 4 code_review_graph
      (<["iteration" := VNone]> {[ "code" := VStr two_defs ]})
    = Some (inl (UserExc
                   "unsupported operand type(s) for +: 'NoneType' and 'int'")).
Proof.
  split; [vm_compute; reflexivity |].
  split; [apply setup_code_review_workflow_graph |].
  vm_compute. reflexivity.
Qed.

(** *** The functions on concrete inputs *)

Example split_pieces :
  split "abcabca" "bc" = ["a"; "a"; "a"]
  ∧ split "aaaa" "aa" = [EmptyString; EmptyString; EmptyString]
  ∧ split EmptyString "x" = [EmptyString]
  ∧ split ("a" ++ newline) newline = ["a"; EmptyString].
Proof. repeat split; reflexivity. Qed.

Example strip_blanks :
  strip "  a b  " = "a b" ∧ lstrip "   " = EmptyString
  ∧ rstrip ("x" ++ newline) = "x" ∧ str_count "aaaa" "aa" = 2.
Proof. repeat split; reflexivity. Qed.

Example func_name_of_line :
  func_name "    def clean_input(data):" = inr "clean_input".
Proof. reflexivity. Qed.

Example float_tenth :
  SFdiv prec emax (S754_finite false 4503599627370496 (-52))
    (S754_finite false 5629499534213120 (-49)) = float_0_1.
Proof. vm_compute. reflexivity. Qed.

(** The run of [test_workflow.py]: two functions, four lines nested
    deeper than eight columns, no docstring, quality score 88.0. *)
Example sample_run :
  let r := run 4 code_review_graph {[ "code" := VStr sample_code ]} in
  final_value "functions" r
    = Some (VList [VStr "process_data"; VStr "clean_input"])
  ∧ final_value "function_count" r = Some (VInt 2)
  ∧ final_value "iteration" r = Some (VInt 1)
  ∧ final_value "complexity_score" r = Some (VInt 80)
  ∧ final_value "issues" r = Some (VList [VStr "Missing docstrings"])
  ∧ final_value "suggestions" r
    = Some (VList [VStr "Add comprehensive docstrings"])
  ∧ final_value "quality_score" r
    = Some (VFloat (S754_finite false 6192449487634432 (-46)))
  ∧ logged r = [("extract", "success"); ("complexity", "success");
                ("detect_issues", "success"); ("suggest", "success")].
Proof. repeat split; vm_compute; reflexivity. Qed.

(** A loop node with the condition "the key [again] is in the state"
    runs once more as long as the key is there: here for ever, so that
    any fuel runs out. *)
Example loop_without_exit :
  run 50 (graph_loop 10 (Some has_again)) {[ "again" := VBool true ]} = None.
Proof. vm_compute. reflexivity. Qed.

(** The branch [a → b], [a → c] takes [b] and ends there, outside the
    end nodes, with two warnings. *)
Example branch_run :
  ∃ f, run_frame 5 graph_branch ∅ = Some (Next f)
       ∧ visited_sequence f = ["a"; "b"]
       ∧ state f = {[ "at" := VStr "b" ]}
       ∧ warnings f = [MultipleNextNodes "a" ["b"; "c"];
                       EndedOutsideEndNodes "b"].
Proof.
  eexists. split; [vm_compute; reflexivity |].
  repeat split; vm_compute; reflexivity.
Qed.

(** *** Graphs made by the builder *)

Section BuilderFacts.

Context {V : Type}.

Implicit Types (g : WorkflowGraph V) (f : Frame V) (node : WorkflowNode V).

Lemma first_missing_None g ids :
  first_missing g ids = None ↔ ∀ n, In n ids → is_Some (nodes g !! n).
Proof.
  induction ids as [| n ids IH]; simpl.
  - split; [intros _ n [] | reflexivity].
  - destruct (nodes g !! n) as [node|] eqn:Hn.
    + rewrite IH. split.
      * intros H m [<- | Hm]; [rewrite Hn; eauto | apply H, Hm].
      * intros H m Hm. apply H. right. exact Hm.
    + split; [discriminate |]. intros H.
      destruct (H n (or_introl eq_refl)) as [x Hx]. congruence.
Qed.

Lemma apply_op_well_formed g op g' :
  well_formed g → apply_op g op = inr g' → well_formed g'.
Proof.
  intros (Hedges & Hstart & Hends & Hnone & Hid) Hop.
  destruct op as [n fn' ty lc mx | a b c | s | ids]; simpl in Hop.
  - unfold add_node in Hop.
    destruct (nodes g !! n) eqn:Hn; [discriminate |].
    inversion Hop; subst g'; clear Hop. unfold well_formed; simpl.
    assert (Hkeep : ∀ m, is_Some (nodes g !! m) →
              is_Some (<[n := {| id := n; fn := fn'; node_type := ty;
                                 loop_condition := lc;
                                 max_iterations := mx |}]> (nodes g) !! m)).
    { intros m [x Hx]. destruct (decide (n = m)) as [-> | Hne].
      - rewrite lookup_insert_eq. eauto.
      - rewrite lookup_insert_ne by assumption. eauto. }
    split; [| split; [| split; [| split]]].
    + intros e He. split; apply Hkeep, Hedges, He.
    + intros s Hs. destruct (start_node g) as [s0|] eqn:Hs0.
      * inversion Hs; subst. apply Hkeep, Hstart. reflexivity.
      * inversion Hs; subst. rewrite lookup_insert_eq. eauto.
    + intros m Hm. apply Hkeep, Hends, Hm.
    + destruct (start_node g); discriminate.
    + intros m node Hm. destruct (decide (n = m)) as [-> | Hne].
      * rewrite lookup_insert_eq in Hm. inversion Hm. reflexivity.
      * rewrite lookup_insert_ne in Hm by assumption. apply Hid, Hm.
  - unfold add_edge in Hop.
    destruct (nodes g !! a) eqn:Ha; [| discriminate].
    destruct (nodes g !! b) eqn:Hb; [| discriminate].
    inversion Hop; subst g'; clear Hop. unfold well_formed; simpl.
    split; [| split; [| split; [| split]]]; try assumption.
    intros e He. apply in_app_or in He as [He | [<- | []]];
      [apply Hedges, He |].
    simpl. rewrite Ha, Hb. eauto.
  - unfold set_start_node in Hop.
    destruct (nodes g !! s) eqn:Hs; [| discriminate].
    inversion Hop; subst g'; clear Hop. unfold well_formed; simpl.
    split; [| split; [| split; [| split]]]; try assumption.
    + intros s' Heq. inversion Heq; subst. rewrite Hs. eauto.
    + discriminate.
  - unfold set_end_nodes in Hop.
    destruct (first_missing g ids) eqn:Hm; [discriminate |].
    inversion Hop; subst g'; clear Hop. unfold well_formed; simpl.
    split; [| split; [| split; [| split]]]; try assumption.
    intros n Hn. apply elem_of_list_to_set, list_elem_of_In in Hn.
    apply (proj1 (first_missing_None g ids) Hm), Hn.
Qed.

Lemma new_graph_well_formed : well_formed (@new_graph V).
Proof.
  unfold well_formed; simpl.
  split; [| split; [| split; [| split]]].
  - intros e He. destruct He.
  - intros s Hs. discriminate.
  - intros n Hn. apply not_elem_of_empty in Hn. destruct Hn.
  - reflexivity.
  - intros n node Hn. rewrite lookup_empty in Hn. discriminate.
Qed.

Lemma build_well_formed g ops g' :
  well_formed g → build g ops = inr g' → well_formed g'.
Proof.
  revert g. induction ops as [| op ops IH]; intros g Hwf Hb; simpl in Hb.
  - inversion Hb; subst. exact Hwf.
  - destruct (apply_op g op) as [msg | g1] eqn:Hop; [discriminate |].
    eapply IH; [eapply apply_op_well_formed; eassumption | exact Hb].
Qed.

(** X1.  Whatever sequence of builder calls succeeds on an empty graph,
    the graph it makes is well formed: both ends of every edge, the
    start node and every end node are nodes of the graph, each node is
    stored under its own id, and the graph has a start node as soon as
    it has a node. *)
Theorem built_graph_is_well_formed (ops : list (@Op V)) g :
  build new_graph ops = inr g → well_formed g.
Proof. apply build_well_formed, new_graph_well_formed. Qed.

End BuilderFacts.

(** *** Invariants of a run *)

Section RunFacts.

Context {V : Type}.

Implicit Types (g : WorkflowGraph V) (f : Frame V) (node : WorkflowNode V).

(** What holds of the first frame and is kept by every pass that does
    not raise holds of the frame a run returns with, and of the frame in
    which the raising pass of a run starts. *)
Lemma while_loop_invariant g (P : Frame V → Prop) :
  (∀ f cur f', P f → truthy (current_node_id f) = Some cur →
               body g f cur = Next f' → P f') →
  ∀ fuel f r,
    P f → while_loop fuel g f = Some r →
    match r with
    | Next f' => P f' ∧ truthy (current_node_id f') = None
    | Raise f' e =>
        ∃ f1 cur, P f1 ∧ truthy (current_node_id f1) = Some cur
                  ∧ body g f1 cur = Raise f' e
    end.
Proof.
  intros Hkeep fuel. induction fuel as [| fuel IH]; intros f r HP Hw;
    simpl in Hw; destruct (truthy (current_node_id f)) as [cur|] eqn:Hcur.
  - discriminate.
  - inversion Hw; subst. auto.
  - destruct (body g f cur) as [f' | f' e] eqn:Hbody.
    + apply (IH f' r); [eapply Hkeep; eassumption | exact Hw].
    + inversion Hw; subst. eauto.
  - inversion Hw; subst. auto.
Qed.

(** After a pass that does not raise, the current node is the one of
    before (the loop goes on) or the first destination the edges
    gave. *)
Lemma body_next_current g f cur f' :
  body g f cur = Next f' →
  current_node_id f' = current_node_id f
  ∨ ∃ next_nodes,
      _get_next_nodes g cur (state f') = inr next_nodes
      ∧ current_node_id f' = head next_nodes.
Proof.
  intros H. destruct (nodes g !! cur) as [node|] eqn:Hn;
    [| rewrite (body_missing _ _ _ Hn) in H; discriminate].
  rewrite (body_unfold _ _ _ _ Hn) in H.
  destruct (limit_exceeded node (entered node f cur) cur); [discriminate |].
  destruct (fn node (state f)) as [mutated [msg | result]] eqn:Hf.
  - rewrite (invoke_raises _ _ _ _ mutated msg) in H;
      [discriminate | rewrite entered_state; exact Hf].
  - rewrite (invoke_returns _ _ _ _ mutated result) in H;
      [| rewrite entered_state; exact Hf].
    unfold continue_or_route in H.
    set (f5 := push_log _ _) in H.
    assert (Hc5 : current_node_id f5 = current_node_id f).
    { subst f5. simpl. unfold entered, count_attempt.
      destruct (is_loop (node_type node)); reflexivity. }
    clearbody f5.
    assert (Hroute : ∀ fr, route g fr cur (state f) = Next f' →
              ∃ next_nodes,
                _get_next_nodes g cur (state f') = inr next_nodes
                ∧ current_node_id f' = head next_nodes).
    { intros fr Hr.
      destruct (route_inv g fr cur (state f))
        as [(f1 & nn & Hr' & Hg & Hc & Hs & _) | (msg & _ & Hr')];
        rewrite Hr' in Hr; [| discriminate].
      inversion Hr; subst f1. exists nn. rewrite Hs. auto. }
    destruct (if is_loop (node_type node) then loop_condition node else None)
      as [cond|].
    + destruct (cond (state f5)) as [msg | [|]]; [discriminate | |].
      * inversion H; subst. auto.
      * right. eapply Hroute, H.
    + right. eapply Hroute, H.
Qed.

Lemma collect_next_destinations (es : list (WorkflowEdge V)) st :
  ∀ acc next_nodes,
    collect_next es st acc = inr next_nodes →
    ∀ n, In n next_nodes → In n acc ∨ ∃ e, In e es ∧ to_node e = n.
Proof.
  induction es as [| e es IH]; intros acc next_nodes H n Hn; simpl in H.
  - inversion H; subst. auto.
  - assert (Hadd : ∀ nn, collect_next es st (acc ++ [to_node e]) = inr nn →
              In n nn → In n acc ∨ ∃ e', In e' (e :: es) ∧ to_node e' = n).
    { intros nn Hc Hin. destruct (IH _ _ Hc n Hin) as [Ha | (e' & He' & Ht)].
      - apply in_app_or in Ha as [Ha | [<- | []]]; [auto |].
        right. exists e. split; [left; reflexivity | reflexivity].
      - right. exists e'. split; [right; exact He' | exact Ht]. }
    destruct (condition e) as [cond|].
    + destruct (cond st) as [msg | [|]]; [discriminate | eauto |].
      destruct (IH _ _ H n Hn) as [Ha | (e' & He' & Ht)]; [auto |].
      right. exists e'. split; [right; exact He' | exact Ht].
    + eauto.
Qed.

Lemma next_nodes_are_edge_ends g cur st next_nodes n :
  _get_next_nodes g cur st = inr next_nodes → In n next_nodes →
  ∃ e, In e (edges g) ∧ from_node e = cur ∧ to_node e = n.
Proof.
  unfold _get_next_nodes, outgoing_edges. intros H Hn.
  destruct (collect_next_destinations _ _ _ _ H n Hn)
    as [[] | (e & He & Ht)].
  apply filter_In in He as [He Hfrom].
  apply bool_decide_eq_true_1 in Hfrom. eauto.
Qed.

(** X2.  In a run of a well-formed graph the current node is always a
    node of the graph: the lookup [self.nodes[current_node_id]] never
    raises [KeyError]. *)
Theorem well_formed_run_finds_its_nodes g fuel initial_state f e :
  well_formed g →
  run_frame fuel g initial_state = Some (Raise f e) →
  ∀ key, e ≠ MissingNode key.
Proof.
  intros (Hedges & Hstart & _) Hrun key ->.
  unfold run_frame in Hrun.
  destruct (truthy (start_node g)) as [s|] eqn:Hs; [| discriminate].
  pose proof (while_loop_invariant g
    (λ f, ∀ c, current_node_id f = Some c → is_Some (nodes g !! c))) as Hinv.
  apply Hinv in Hrun.
  - destruct Hrun as (f1 & cur & HP & Hcur & Hbody).
    apply truthy_Some in Hcur as [Hcur _].
    destruct (HP cur Hcur) as [node Hn].
    destruct (body_raise _ _ _ _ _ Hbody)
      as [(Hnone & _) | [(nd & _ & _ & He & _) | (nd & m & el & _ & _ & He & _)]];
      [congruence | discriminate | discriminate].
  - intros f0 cur f' HP Hcur Hbody c Hc.
    destruct (body_next_current _ _ _ _ Hbody) as [Hsame | (nn & Hg & Hhead)].
    + apply HP. congruence.
    + rewrite Hhead in Hc. destruct nn as [| n ns]; [discriminate |].
      inversion Hc; subst c.
      destruct (next_nodes_are_edge_ends g cur (state f') (n :: ns) n Hg
                  (or_introl eq_refl)) as (e & He & _ & Ht).
      rewrite <- Ht. apply Hedges, He.
  - intros c Hc. apply Hstart. exact Hc.
Qed.

End RunFacts.

Section MoreBuilderFacts.

Context {V : Type}.

Implicit Types (g : WorkflowGraph V) (f : Frame V) (node : WorkflowNode V).

Lemma apply_op_keeps_start g (op : @Op V) g' s :
  start_node g = Some s → sets_start op = false →
  apply_op g op = inr g' → start_node g' = Some s.
Proof.
  intros Hs Hop H. destruct op as [n fn' ty lc mx | a b c | s' | ids];
    simpl in *; try discriminate.
  - unfold add_node in H. destruct (nodes g !! n); [discriminate |].
    inversion H; subst. simpl. rewrite Hs. reflexivity.
  - unfold add_edge in H. destruct (nodes g !! a); [| discriminate].
    destruct (nodes g !! b); [| discriminate]. inversion H; subst. exact Hs.
  - unfold set_end_nodes in H. destruct (first_missing g ids); [discriminate |].
    inversion H; subst. exact Hs.
Qed.

Lemma build_keeps_start g (ops : list (@Op V)) g' s :
  start_node g = Some s → forallb (λ op, negb (sets_start op)) ops = true →
  build g ops = inr g' → start_node g' = Some s.
Proof.
  revert g. induction ops as [| op ops IH]; intros g Hs Hops Hb; simpl in *.
  - inversion Hb; subst. exact Hs.
  - apply andb_prop in Hops as [Hop Hops].
    destruct (apply_op g op) as [msg | g1] eqn:H1; [discriminate |].
    apply (IH g1); [| exact Hops | exact Hb].
    eapply apply_op_keeps_start; [exact Hs | | exact H1].
    destruct (sets_start op); [discriminate | reflexivity].
Qed.

(** X3.  The first node added to an empty graph is its start node, and
    stays so through every later call that succeeds, whatever nodes,
    edges and end nodes are added, until [set_start_node] is called. *)
Theorem first_node_added_is_start node_id fn node_type loop_condition
    max_iterations (ops : list (@Op V)) g :
  forallb (λ op, negb (sets_start op)) ops = true →
  build new_graph
    (AddNode node_id fn node_type loop_condition max_iterations :: ops)
    = inr g →
  start_node g = Some node_id.
Proof.
  intros Hops Hb. simpl in Hb. unfold add_node in Hb. simpl in Hb.
  rewrite lookup_empty in Hb.
  eapply build_keeps_start; [| exact Hops | exact Hb]. reflexivity.
Qed.

Lemma collect_next_app (es1 es2 : list (WorkflowEdge V)) st : ∀ acc,
  collect_next (es1 ++ es2) st acc =
    match collect_next es1 st acc with
    | inl msg => inl msg
    | inr next_nodes => collect_next es2 st next_nodes
    end.
Proof.
  induction es1 as [| e es1 IH]; intros acc; simpl; [reflexivity |].
  destruct (condition e) as [cond|]; [| apply IH].
  destruct (cond st) as [msg | [|]]; [reflexivity | apply IH | apply IH].
Qed.

(** X4.  A new edge is consulted after all the edges added before it:
    the destinations of its source node are those of before, in the same
    order, followed by the new destination when the edge has no
    condition or its condition is true; an exception raised by an earlier
    condition still comes first; no other node gets a new destination,
    and nodes, start node and end nodes are those of before. *)
Theorem add_edge_appends_destination g from_node to_node condition g' :
  add_edge g from_node to_node condition = inr g' →
  nodes g' = nodes g ∧ start_node g' = start_node g
  ∧ end_nodes g' = end_nodes g
  ∧ ∀ cur st,
      _get_next_nodes g' cur st =
        match _get_next_nodes g cur st with
        | inl msg => inl msg
        | inr next_nodes =>
            if bool_decide (from_node = cur)
            then match condition with
                 | None => inr (next_nodes ++ [to_node])%list
                 | Some cond =>
                     match cond st with
                     | inl msg => inl msg
                     | inr true => inr (next_nodes ++ [to_node])%list
                     | inr false => inr next_nodes
                     end
                 end
            else inr next_nodes
        end.
Proof.
  unfold add_edge. intros H.
  destruct (nodes g !! from_node); [| discriminate].
  destruct (nodes g !! to_node); [| discriminate].
  inversion H; subst g'; clear H. simpl.
  do 3 (split; [reflexivity |]). intros cur st.
  unfold _get_next_nodes, outgoing_edges. simpl.
  rewrite List.filter_app, collect_next_app. simpl.
  destruct (collect_next _ st []) as [msg | next_nodes]; [reflexivity |].
  destruct (bool_decide (from_node = cur)); simpl; [| reflexivity].
  destruct condition as [cond|]; [| reflexivity].
  destruct (cond st) as [msg | [|]]; reflexivity.
Qed.

(** X5.  [set_end_nodes] succeeds exactly when every id it is given is a
    node; it then replaces the end nodes by the ids given (earlier end
    nodes are dropped), and otherwise its message names the first id of
    the list that is missing. *)
Theorem set_end_nodes_all_or_nothing g node_ids :
  ((∀ n, In n node_ids → is_Some (nodes g !! n)) →
     ∃ g', set_end_nodes g node_ids = inr g'
           ∧ (∀ n, n ∈ end_nodes g' ↔ In n node_ids)
           ∧ nodes g' = nodes g ∧ edges g' = edges g
           ∧ start_node g' = start_node g)
  ∧ (∀ n, In n node_ids → nodes g !! n = None →
       ∃ before missing rest,
         node_ids = (before ++ missing :: rest)%list
         ∧ (∀ m, In m before → is_Some (nodes g !! m))
         ∧ nodes g !! missing = None
         ∧ set_end_nodes g node_ids
           = inl ("Node '" ++ missing ++ "' does not exist")).
Proof.
  split.
  - intros Hall. apply first_missing_None in Hall.
    unfold set_end_nodes. rewrite Hall. eexists. split; [reflexivity |].
    simpl. split; [| auto].
    intros n. rewrite elem_of_list_to_set, list_elem_of_In. reflexivity.
  - intros n Hn Hnone. unfold set_end_nodes.
    assert (Hfirst : ∃ before missing rest,
              node_ids = (before ++ missing :: rest)%list
              ∧ (∀ m, In m before → is_Some (nodes g !! m))
              ∧ nodes g !! missing = None
              ∧ first_missing g node_ids = Some missing).
    { clear -Hn Hnone. induction node_ids as [| a ids IH]; [destruct Hn |].
      simpl. destruct (nodes g !! a) as [x|] eqn:Ha.
      - destruct Hn as [-> | Hn]; [congruence |].
        destruct (IH Hn) as (before & missing & rest & -> & Hb & Hm & Hf).
        exists (a :: before), missing, rest. split; [reflexivity |].
        split; [| auto].
        intros m [<- | Hm']; [rewrite Ha; eauto | apply Hb, Hm'].
      - exists [], a, ids. split; [reflexivity |].
        split; [intros m [] | auto]. }
    destruct Hfirst as (before & missing & rest & Heq & Hb & Hm & Hf).
    rewrite Hf. exists before, missing, rest. auto.
Qed.

End MoreBuilderFacts.

Section MoreRunFacts.

Context {V : Type}.

Implicit Types (g : WorkflowGraph V) (f : Frame V) (node : WorkflowNode V).

Lemma body_without_branch g f cur :
  body (without_branch g) f cur = body g f cur.
Proof.
  unfold body. simpl. rewrite lookup_fmap.
  destruct (nodes g !! cur) as [node|]; simpl; [| reflexivity].
  assert (Hloop : is_loop (node_type (as_standard node))
                  = is_loop (node_type node))
    by (simpl; destruct (node_type node); reflexivity).
  unfold limit_exceeded, count_attempt, invoke, continue_or_route.
  rewrite Hloop. reflexivity.
Qed.

(** X6.  The node type [BRANCH] changes nothing: a run of a graph is the
    run of the same graph with its branch nodes declared standard, frame
    for frame, whatever the fuel and the initial state. *)
Theorem branch_nodes_run_as_standard g fuel initial_state :
  run_frame fuel (without_branch g) initial_state
  = run_frame fuel g initial_state.
Proof.
  unfold run_frame. simpl.
  destruct (truthy (start_node g)); [| reflexivity].
  change (initial_frame (without_branch g) initial_state)
    with (initial_frame g initial_state).
  generalize (initial_frame g initial_state).
  induction fuel as [| fuel IH]; intros f; simpl; [reflexivity |].
  destruct (truthy (current_node_id f)) as [cur|]; [| reflexivity].
  rewrite body_without_branch.
  destruct (body g f cur); [apply IH | reflexivity].
Qed.

(** X7.  The loop-limit error comes from one place only: a pass raises
    it only at a loop node that has no loop condition and whose counter,
    with this attempt, is past the bound.  No node with a loop condition
    and no standard or branch node ever raises it, whatever its
    [max_iterations]. *)
Theorem loop_limit_only_without_condition g f cur f' n bound :
  body g f cur = Raise f' (LoopLimit n bound) →
  n = cur
  ∧ ∃ node, nodes g !! cur = Some node
            ∧ node_type node = LOOP
            ∧ loop_condition node = None
            ∧ bound = max_iterations node
            ∧ max_iterations node < counter_get f cur + 1.
Proof.
  intros H.
  destruct (body_raise _ _ _ _ _ H)
    as [(_ & He & _) | [(node & Hn & Hl & He & _)
                       | (node & m & el & _ & _ & He & _)]];
    try discriminate.
  inversion He; subst. split; [reflexivity |]. exists node.
  unfold limit_exceeded in Hl.
  apply andb_prop in Hl as [Hl Hc]. apply andb_prop in Hl as [Ht Hgt].
  rewrite counter_entered_same, Ht in Hgt. apply Z.gtb_lt in Hgt.
  destruct (node_type node); try discriminate.
  destruct (loop_condition node); [discriminate |]. auto.
Qed.

(** X8.  A loop node whose condition stays true never leaves the loop,
    however small its [max_iterations]: when its function always returns
    and it is the start node, the run does not end, whatever fuel it is
    given. *)
Theorem true_loop_condition_never_ends g s node cond :
  start_node g = Some s → s ≠ EmptyString →
  nodes g !! s = Some node →
  node_type node = LOOP → loop_condition node = Some cond →
  (∀ st, ∃ mutated result, fn node st = (mutated, inr result)) →
  (∀ st, cond st = inr true) →
  ∀ fuel initial_state, run fuel g initial_state = None.
Proof.
  intros Hs Hne Hn Ht Hc Hfn Hcond fuel initial_state.
  unfold run, run_frame. rewrite Hs, (truthy_nonempty _ Hne).
  assert (Hloop : ∀ fuel f, current_node_id f = Some s →
            while_loop fuel g f = None).
  { clear fuel. induction fuel as [| fuel IH]; intros f Hcur; simpl;
      rewrite Hcur, (truthy_nonempty _ Hne); [reflexivity |].
    rewrite (body_unfold _ _ _ _ Hn). unfold limit_exceeded.
    rewrite Hc, andb_false_r.
    destruct (Hfn (state f)) as (mutated & result & Hr).
    rewrite (invoke_returns _ _ _ _ mutated result)
      by (rewrite entered_state; exact Hr).
    unfold continue_or_route. rewrite Ht, Hc. simpl. rewrite Hcond.
    apply IH. simpl. unfold entered, count_attempt. rewrite Ht. exact Hcur. }
  rewrite Hloop; [reflexivity | exact Hs].
Qed.

Lemma successes_snoc (log : list (ExecutionLog V)) e :
  successes log → status e = "success" → error e = None →
  successes (log ++ [e]).
Proof.
  intros H Hs He. apply Forall_app. split; [exact H |].
  constructor; [auto | constructor].
Qed.

(** X10.  The log of a finished run: when the run returns, the log has
    one success entry per visited node, in the order of the visits, and
    the node function was called once per visit; when the run raises,
    the log is made of success entries followed, unless the exception is
    the missing start node or a missing node, by exactly one error entry
    that carries the message of the exception.  The status [skipped] is
    never written. *)
Theorem log_is_successes_then_one_error g fuel initial_state r :
  run_frame fuel g initial_state = Some r →
  match r with
  | Next f =>
      successes (logs f)
      ∧ node_id <$> logs f = visited_sequence f
      ∧ fn_calls f = visited_sequence f
  | Raise f e =>
      match e with
      | NoStartNode => logs f = []
      | MissingNode _ => successes (logs f)
      | _ =>
          ∃ earlier entry,
            logs f = (earlier ++ [entry])%list
            ∧ successes earlier
            ∧ status entry = "error"
            ∧ error entry = Some (str_of e)
            ∧ last (visited_sequence f) = Some (node_id entry)
      end
  end.
Proof.
  unfold run_frame.
  destruct (truthy (start_node g)) as [s|];
    [| intros H; inversion H; reflexivity].
  intros Hw.
  apply (while_loop_invariant g
           (λ f, successes (logs f)
                 ∧ node_id <$> logs f = visited_sequence f
                 ∧ fn_calls f = visited_sequence f)) in Hw.
  - destruct r as [f | f e]; [apply Hw |].
    destruct Hw as (f1 & cur & (Hsucc & _) & _ & Hbody).
    destruct (body_raise _ _ _ _ _ Hbody)
      as [(_ & -> & ->) | [(node & _ & _ & -> & ->)
                          | (node & m & earlier & _ & _ & -> & Hl & He & Hv)]].
    + exact Hsucc.
    + eexists (logs f1), _. simpl. rewrite entered_logs, entered_visited.
      split; [reflexivity |]. split; [exact Hsucc |].
      split; [reflexivity |]. split; [reflexivity |]. apply last_snoc.
    + exists (logs f1 ++ earlier)%list, (error_entry cur (state f1) (state f) m).
      rewrite Hl, Hv, app_assoc. split; [reflexivity |]. split.
      * destruct He as [-> | [out ->]]; [rewrite app_nil_r; exact Hsucc |].
        apply successes_snoc; [exact Hsucc | reflexivity | reflexivity].
      * split; [reflexivity |]. split; [reflexivity |]. apply last_snoc.
  - intros f cur f' (Hsucc & Hids & Hcalls) _ Hbody.
    destruct (body_next _ _ _ _ Hbody)
      as (node & mutated & result & _ & _ & _ & _ & Hl & Hv & Hc & _).
    rewrite Hl, Hv, Hc, fmap_app, Hids, Hcalls.
    split; [| split; reflexivity].
    apply successes_snoc; [exact Hsucc | reflexivity | reflexivity].
  - simpl. split; [constructor | split; reflexivity].
Qed.

(** X11.  A graph made of one node that is not a loop node, added to an
    empty graph under an id that is not empty: the run calls the node
    once and returns the state the call left merged with the mapping it
    returned, with a one-entry log, whatever fuel there is beyond one
    pass. *)
Theorem single_node_run node_id fn node_type loop_condition max_iterations
    g fuel (initial_state mutated result : gmap string V) :
  add_node new_graph node_id fn node_type loop_condition max_iterations
    = inr g →
  node_id ≠ EmptyString → node_type ≠ LOOP →
  fn initial_state = (mutated, inr result) →
  run (S fuel) g initial_state
  = Some (inr (result ∪ mutated,
               [success_entry node_id initial_state (result ∪ mutated)])).
Proof.
  unfold add_node. simpl. rewrite lookup_empty. intros Hg Hne Hty Hfn.
  inversion Hg; subst g; clear Hg.
  unfold run, run_frame. simpl start_node. rewrite (truthy_nonempty _ Hne).
  rewrite (while_loop_pass _ _ _ node_id)
    by (simpl; apply truthy_nonempty, Hne).
  erewrite body_unfold by (simpl; apply lookup_insert_eq).
  assert (Hloop : is_loop node_type = false)
    by (destruct node_type; [reflexivity | reflexivity | congruence]).
  unfold limit_exceeded. simpl. rewrite Hloop. simpl.
  erewrite invoke_returns
    by (rewrite entered_state; simpl; exact Hfn).
  unfold continue_or_route. simpl. rewrite Hloop.
  rewrite route_empty by reflexivity.
  rewrite while_loop_done by reflexivity.
  simpl. unfold entered, count_attempt. simpl. rewrite Hloop. reflexivity.
Qed.

End MoreRunFacts.

(** *** Ordered dictionaries, the store and the registry *)

Section OrderedDictFacts.

Context {A : Type}.

Implicit Types (d : list (string * A)).

Lemma od_get_set d key value key' :
  od_get (od_set d key value) key'
  = if bool_decide (key = key') then Some value else od_get d key'.
Proof.
  induction d as [| [k v] d IH]; simpl.
  - reflexivity.
  - destruct (bool_decide (k = key)) eqn:Hk; simpl.
    + apply bool_decide_eq_true_1 in Hk. subst k.
      destruct (bool_decide (key = key')); reflexivity.
    + rewrite IH. apply bool_decide_eq_false_1 in Hk.
      destruct (bool_decide (k = key')) eqn:Hk'; [| reflexivity].
      apply bool_decide_eq_true_1 in Hk'. subst k.
      rewrite bool_decide_eq_false_2 by congruence. reflexivity.
Qed.

Lemma od_get_keys d key : is_Some (od_get d key) ↔ key ∈ od_keys d.
Proof.
  induction d as [| [k v] d IH]; simpl.
  - split; [intros [x Hx]; discriminate | intros H; inversion H].
  - unfold od_keys. simpl. rewrite elem_of_cons.
    destruct (bool_decide (k = key)) eqn:Hk.
    + apply bool_decide_eq_true_1 in Hk. split; [auto | eauto].
    + apply bool_decide_eq_false_1 in Hk. rewrite IH.
      split; [auto | intros [? | ?]; [congruence | assumption]].
Qed.

Lemma od_keys_set d key value :
  od_keys (od_set d key value)
  = if bool_decide (key ∈ od_keys d) then od_keys d
    else (od_keys d ++ [key])%list.
Proof.
  unfold od_keys. induction d as [| [k v] d IH].
  - destruct (bool_decide (key ∈ fst <$> [])) eqn:H; [| reflexivity].
    apply bool_decide_eq_true_1 in H. inversion H.
  - cbn [od_set]. destruct (bool_decide (k = key)) eqn:Hk.
    + apply bool_decide_eq_true_1 in Hk. subst k.
      rewrite bool_decide_eq_true_2 by (apply elem_of_cons; auto).
      reflexivity.
    + apply bool_decide_eq_false_1 in Hk.
      change (fst <$> (k, v) :: od_set d key value)
        with (k :: (fst <$> od_set d key value)).
      rewrite IH.
      change (fst <$> (k, v) :: d) with (k :: (fst <$> d)).
      destruct (bool_decide (key ∈ fst <$> d)) eqn:Hin.
      * apply bool_decide_eq_true_1 in Hin.
        rewrite bool_decide_eq_true_2 by (apply elem_of_cons; auto).
        reflexivity.
      * apply bool_decide_eq_false_1 in Hin.
        rewrite bool_decide_eq_false_2; [reflexivity |].
        rewrite elem_of_cons. intros [? | ?]; [congruence | tauto].
Qed.

End OrderedDictFacts.

Lemma distinct_not_seen seen ids i : i ∈ distinct seen ids → i ∉ seen.
Proof.
  revert seen. induction ids as [| j ids IH]; intros seen H; simpl in H.
  - inversion H.
  - destruct (bool_decide (j ∈ seen)) eqn:Hj; [apply IH, H |].
    apply bool_decide_eq_false_1 in Hj.
    apply elem_of_cons in H as [-> | H]; [exact Hj |].
    apply IH in H. intros Hin. apply H, elem_of_app. auto.
Qed.

Lemma distinct_NoDup seen ids : NoDup (distinct seen ids).
Proof.
  revert seen. induction ids as [| j ids IH]; intros seen; simpl.
  - constructor.
  - destruct (bool_decide (j ∈ seen)); [apply IH |].
    constructor; [| apply IH].
    intros H. apply distinct_not_seen in H. apply H, elem_of_app.
    right. apply elem_of_cons. left. reflexivity.
Qed.

Section StoreFacts.

Context {V : Type}.

Implicit Types (s : GraphStore.t V).

(** X12.  What is saved is what is loaded: [load_graph] returns the
    graph last saved under the id, and nothing for an id never saved;
    the same for runs; saving a graph touches no run and saving a run no
    graph. *)
Theorem store_loads_last_save s graph_id graph run_id state log :
  (∀ id, GraphStore.load_graph (GraphStore.save_graph s graph_id graph) id
         = if bool_decide (graph_id = id) then Some graph
           else GraphStore.load_graph s id)
  ∧ (∀ id, GraphStore.load_run (GraphStore.save_graph s graph_id graph) id
           = GraphStore.load_run s id)
  ∧ (∀ id, GraphStore.load_run (GraphStore.save_run s run_id state log) id
           = if bool_decide (run_id = id) then Some (state, log)
             else GraphStore.load_run s id)
  ∧ (∀ id, GraphStore.load_graph (GraphStore.save_run s run_id state log) id
           = GraphStore.load_graph s id)
  ∧ (∀ id, GraphStore.load_graph (@GraphStore.empty V) id = None)
  ∧ (∀ id, GraphStore.load_run (@GraphStore.empty V) id = None).
Proof.
  unfold GraphStore.load_graph, GraphStore.load_run. simpl.
  repeat split; intros; try reflexivity; apply od_get_set.
Qed.

Lemma save_graphs_keys s (gs : list (string * WorkflowGraph V)) :
  GraphStore.list_graphs (GraphStore.save_graphs s gs)
  = (GraphStore.list_graphs s
     ++ distinct (GraphStore.list_graphs s) (fst <$> gs))%list.
Proof.
  revert s. induction gs as [| [i g] gs IH]; intros s; simpl.
  - rewrite app_nil_r. reflexivity.
  - rewrite IH. unfold GraphStore.list_graphs at 1 2. simpl.
    rewrite od_keys_set.
    change (od_keys (GraphStore.graphs s)) with (GraphStore.list_graphs s).
    destruct (bool_decide (i ∈ GraphStore.list_graphs s)); [reflexivity |].
    rewrite <- app_assoc. reflexivity.
Qed.

(** X13.  [list_graphs] after saving graphs one after the other into an
    empty store gives every id once, in the order in which the ids were
    first saved; saving under an id again does not move it.  An id is
    listed exactly when [load_graph] finds a graph for it. *)
Theorem list_graphs_in_order_of_first_save
    (gs : list (string * WorkflowGraph V)) :
  let s := GraphStore.save_graphs GraphStore.empty gs in
  GraphStore.list_graphs s = distinct [] (fst <$> gs)
  ∧ NoDup (GraphStore.list_graphs s)
  ∧ ∀ id, id ∈ GraphStore.list_graphs s
          ↔ is_Some (GraphStore.load_graph s id).
Proof.
  intros s.
  assert (Hk : GraphStore.list_graphs s = distinct [] (fst <$> gs))
    by (subst s; rewrite save_graphs_keys; reflexivity).
  split; [exact Hk |]. split; [rewrite Hk; apply distinct_NoDup |].
  intros id. symmetry. apply od_get_keys.
Qed.

End StoreFacts.

Section RegistryFacts.

Context {Kwargs Result : Type}.

Implicit Types (r : ToolRegistry.t Kwargs Result)
  (fn : ToolRegistry.Tool Kwargs Result).

(** X14.  After [register], [get] returns the tool under its name (the
    last one registered wins) and what it returned before under every
    other name; [call] applies that tool to the keyword arguments;
    a name that is not registered makes [get] and [call] raise the
    [ValueError] that names it, and [exists] tells the two cases
    apart. *)
Theorem registry_get_after_register r name fn :
  let r' := fst (ToolRegistry.register r name fn) in
  ToolRegistry.get r' name = inr fn
  ∧ ToolRegistry.exists_ r' name = true
  ∧ (∀ kwargs, ToolRegistry.call r' name kwargs = ToolRegistry.apply fn kwargs)
  ∧ (∀ other, other ≠ name →
       ToolRegistry.get r' other = ToolRegistry.get r other
       ∧ ToolRegistry.exists_ r' other = ToolRegistry.exists_ r other
       ∧ ∀ kwargs, ToolRegistry.call r' other kwargs
                   = ToolRegistry.call r other kwargs)
  ∧ (∀ other, ToolRegistry.exists_ r other = false →
       ToolRegistry.get r other
         = inl ("Tool '" ++ other ++ "' not registered")
       ∧ ∀ kwargs, ToolRegistry.call r other kwargs
                   = inl ("Tool '" ++ other ++ "' not registered"))
  ∧ (∀ other, ToolRegistry.exists_ r other = true →
       ∃ tool, ToolRegistry.get r other = inr tool).
Proof.
  unfold ToolRegistry.register, ToolRegistry.call, ToolRegistry.get,
    ToolRegistry.exists_. simpl.
  rewrite od_get_set, bool_decide_eq_true_2 by reflexivity.
  split; [reflexivity |]. split; [reflexivity |]. split; [reflexivity |].
  split; [| split].
  - intros other Hne. rewrite od_get_set.
    rewrite bool_decide_eq_false_2 by congruence. auto.
  - intros other H. destruct (od_get r other); [discriminate | auto].
  - intros other H. destruct (od_get r other); [eauto | discriminate].
Qed.

(** X15.  [register] logs the overwrite warning exactly when the name
    was registered before; a new name goes to the end of the listing and
    an overwritten one keeps its place, so [list_tools] has one entry
    per name. *)
Theorem register_warns_on_overwrite r name fn :
  let '(r', records) := ToolRegistry.register r name fn in
  (ToolRegistry.exists_ r name = true →
     records = [ToolRegistry.Warn ("Tool '" ++ name ++ "' is being overwritten");
                ToolRegistry.Info ("Registered tool: " ++ name)]
     ∧ fst <$> ToolRegistry.list_tools r' = fst <$> ToolRegistry.list_tools r)
  ∧ (ToolRegistry.exists_ r name = false →
     records = [ToolRegistry.Info ("Registered tool: " ++ name)]
     ∧ fst <$> ToolRegistry.list_tools r'
       = ((fst <$> ToolRegistry.list_tools r) ++ [name])%list).
Proof.
  unfold ToolRegistry.register.
  assert (Hkeys : ∀ x : ToolRegistry.t Kwargs Result,
            fst <$> ToolRegistry.list_tools x = od_keys x).
  { intros x. unfold ToolRegistry.list_tools, od_keys.
    rewrite <- list_fmap_compose. reflexivity. }
  rewrite !Hkeys, od_keys_set.
  assert (Hin : ToolRegistry.exists_ r name = bool_decide (name ∈ od_keys r)).
  { unfold ToolRegistry.exists_.
    destruct (od_get r name) as [x|] eqn:Hx.
    - symmetry. apply bool_decide_eq_true_2, od_get_keys. eauto.
    - symmetry. apply bool_decide_eq_false_2. rewrite <- od_get_keys.
      rewrite Hx. intros [y Hy]. discriminate. }
  rewrite <- Hin.
  split; intros H; rewrite H; split; reflexivity.
Qed.

(** X16.  [list_tools] describes every registered tool, and only those,
    under its name: by its docstring, or by ["No description"] when the
    function has no docstring or an empty one. *)
Theorem list_tools_describes_each_tool r name :
  od_get (ToolRegistry.list_tools r) name
  = ToolRegistry.description <$> od_get r name
  ∧ List.length (ToolRegistry.list_tools r) = List.length r
  ∧ ∀ fn, ToolRegistry.description fn = "No description"
          ↔ ToolRegistry.doc fn = None
            ∨ ToolRegistry.doc fn = Some EmptyString
            ∨ ToolRegistry.doc fn = Some "No description".
Proof.
  split; [| split].
  - unfold ToolRegistry.list_tools.
    induction r as [| [k v] r IH]; simpl; [reflexivity |].
    destruct (bool_decide (k = name)); [reflexivity | exact IH].
  - unfold ToolRegistry.list_tools. apply length_fmap.
  - intros fn. unfold ToolRegistry.description.
    destruct (ToolRegistry.doc fn) as [text |];
      [destruct text as [| c text] |].
    + split; [auto | reflexivity].
    + split; [intros ->; auto |]. intros [H | [H | H]]; congruence.
    + split; [auto | reflexivity].
Qed.

End RegistryFacts.

(** *** The node functions of the code-review workflow *)

Lemma bind_inr {A B : Type} (m : string + A) (k : A → string + B) b :
  bind m k = inr b → ∃ a, m = inr a ∧ k a = inr b.
Proof. destruct m as [msg | a]; simpl; [discriminate | eauto]. Qed.

Lemma collect_functions_acc lines : ∀ functions names,
  collect_functions lines functions = inr names →
  ∃ found, names = (functions ++ found)%list
           ∧ List.length found = List.length
               (List.filter (λ line, startswith (strip line) "def ") lines).
Proof.
  intros functions names H.
  destruct (collect_functions_length lines functions) as (found & Hc & Hl).
  exists found. split; [congruence | exact Hl].
Qed.

Lemma extract_functions_inv (st u : gmap string Val) :
  extract_functions st = inr u →
  ∃ code names iteration,
    get st "code" (VStr EmptyString) = VStr code
    ∧ u = <["functions" := VList (VStr <$> names)]>
            (<["function_count" := VInt (Z.of_nat (def_lines code))]>
               (<["iteration" := iteration]> ∅))
    ∧ List.length names = def_lines code
    ∧ add_one (get st "iteration" (VInt 0)) = inr iteration.
Proof.
  intros H. unfold extract_functions in H.
  apply bind_inr in H as (lines & Hsplit & H).
  apply bind_inr in H as (names & Hnames & H).
  apply bind_inr in H as (iteration & Hadd & H).
  destruct (get st "code" (VStr EmptyString)) as [| | | | code | |]
    eqn:Hcode; try discriminate.
  simpl in Hsplit. inversion Hsplit; subst lines.
  apply collect_functions_acc in Hnames as (found & -> & Hlen).
  simpl in H. inversion H; subst u.
  exists code, found, iteration. unfold def_lines. rewrite Hlen. auto.
Qed.

Lemma extract_functions_total (st : gmap string Val) code :
  get st "code" (VStr EmptyString) = VStr code →
  is_Some (to_num (get st "iteration" (VInt 0))) →
  ∃ u, extract_functions st = inr u.
Proof.
  intros Hcode [x Hx]. unfold extract_functions. rewrite Hcode.
  cbn [method_split bind].
  destruct (collect_functions_length (split code newline) [])
    as (names & Hc & _).
  rewrite Hc. cbn [bind]. unfold add_one. rewrite Hx.
  destruct x as [n | y]; [eexists; reflexivity |].
  unfold num_add, num_arith. rewrite float_of_int_1. eexists. reflexivity.
Qed.

Lemma add_one_number (v w : Val) :
  add_one v = inr w → is_Some (to_num v).
Proof.
  unfold add_one. destruct (to_num v); [eauto |].
  destruct v; discriminate.
Qed.

(** X17.  [extract_functions] returns exactly when [code] is a text (or
    is absent) and [iteration] a number (or absent): no line makes
    [line.split("def ")[1]] raise.  It then returns three keys:
    [functions] with one name per line whose stripped form starts with
    ["def "], [function_count] with their number, and [iteration] with
    the number of before plus one (1 when there was none). *)
Theorem extract_functions_counts_def_lines (st : gmap string Val) :
  ((∃ u, extract_functions st = inr u)
   ↔ (∃ code, get st "code" (VStr EmptyString) = VStr code)
     ∧ is_Some (to_num (get st "iteration" (VInt 0))))
  ∧ ∀ u, extract_functions st = inr u →
      ∃ code names iteration,
        get st "code" (VStr EmptyString) = VStr code
        ∧ u = <["functions" := VList (VStr <$> names)]>
                (<["function_count" := VInt (Z.of_nat (def_lines code))]>
                   (<["iteration" := iteration]> ∅))
        ∧ List.length names = def_lines code
        ∧ (∀ n, get st "iteration" (VInt 0) = VInt n →
                iteration = VInt (n + 1)).
Proof.
  split; [split |].
  - intros [u Hu].
    destruct (extract_functions_inv _ _ Hu)
      as (code & names & it & Hc & _ & _ & Ha).
    split; [eauto | eapply add_one_number, Ha].
  - intros [[code Hcode] Hnum]. eapply extract_functions_total; eassumption.
  - intros u Hu.
    destruct (extract_functions_inv _ _ Hu)
      as (code & names & it & Hc & Hu' & Hl & Ha).
    exists code, names, it. do 3 (split; [assumption |]).
    intros n Hn. rewrite Hn in Ha. unfold add_one, num_add in Ha.
    simpl in Ha. inversion Ha. reflexivity.
Qed.

Lemma count_deep_filter lines : ∀ acc,
  count_deep lines acc
  = acc + Z.of_nat (List.length
            (List.filter (λ line, len_str line - len_str (lstrip line) >? 8)
               lines)).
Proof.
  induction lines as [| line lines IH]; intros acc; simpl; [lia |].
  destruct (len_str line - len_str (lstrip line) >? 8); rewrite IH; simpl; lia.
Qed.

Lemma check_complexity_value (st : gmap string Val) code :
  get st "code" (VStr EmptyString) = VStr code →
  check_complexity st
  = inr (<["complexity_issues" :=
             VInt (Z.of_nat (List.length (deep_lines code)))]>
           (<["complexity_score" :=
                VInt (Z.max 0
                        (100 - Z.of_nat (List.length (deep_lines code))
                               * 5))]> ∅)).
Proof.
  intros Hcode. unfold check_complexity. rewrite Hcode.
  cbn [method_split bind]. rewrite count_deep_filter. reflexivity.
Qed.

(** X18.  [check_complexity] returns exactly when [code] is a text (or
    is absent).  It then counts the lines that start with more than
    eight blanks and gives the score 100 minus five per such line, not
    below 0: the score is a multiple of 5 between 0 and 100, 100 when no
    line is deep and 0 from twenty deep lines on. *)
Theorem check_complexity_score (st : gmap string Val) :
  ((∃ u, check_complexity st = inr u)
   ↔ ∃ code, get st "code" (VStr EmptyString) = VStr code)
  ∧ ∀ code, get st "code" (VStr EmptyString) = VStr code →
      let deep := Z.of_nat (List.length (deep_lines code)) in
      let score := Z.max 0 (100 - deep * 5) in
      check_complexity st
      = inr (<["complexity_issues" := VInt deep]>
               (<["complexity_score" := VInt score]> ∅))
      ∧ 0 ≤ score ≤ 100 ∧ score mod 5 = 0
      ∧ (score = 100 ↔ deep_lines code = [])
      ∧ (score = 0 ↔ 20 ≤ deep)
      ∧ (List.length (deep_lines code)
         ≤ List.length (split code newline))%nat.
Proof.
  pose proof (check_complexity_value st) as Hret.
  split.
  - split.
    + intros [u Hu]. unfold check_complexity in Hu.
      apply bind_inr in Hu as (lines & Hsplit & _).
      destruct (get st "code" (VStr EmptyString)); try discriminate. eauto.
    + intros [code Hcode]. rewrite (Hret code Hcode). eauto.
  - intros code Hcode deep score. split; [apply Hret, Hcode |].
    assert (Hlen : (List.length (deep_lines code)
                    ≤ List.length (split code newline))%nat)
      by (unfold deep_lines; apply List.filter_length_le).
    assert (Hnil : deep = 0 ↔ deep_lines code = []).
    { subst deep. destruct (deep_lines code); simpl; split;
        first [reflexivity | discriminate | lia]. }
    assert (0 ≤ deep) by (subst deep; lia).
    subst score. clearbody deep.
    split; [lia |]. split.
    + destruct (Z.max_spec 0 (100 - deep * 5)) as [[_ ->] | [_ ->]];
        [| reflexivity].
      replace (100 - deep * 5) with ((20 - deep) * 5) by lia.
      apply Z.mod_mul. lia.
    + split; [| split]; [| lia | exact Hlen].
      rewrite <- Hnil. lia.
Qed.

Ltac pick_sublist :=
  simpl;
  repeat first [apply sublist_nil | apply sublist_skip | apply sublist_cons].

(** X19.  Whatever it is given, when [detect_issues] returns it returns
    two keys: [issues], whose entries are taken, in this order, from
    "Long function", "Missing docstrings" and "Potential unused
    imports", and [issue_count], the length of [issues], 3 at most.  For
    a text [code] and an integer [function_count] it does return, and an
    entry is there exactly when its test holds: more than 30 line
    breaks; fewer triple quotes than functions; the word import present
    and more often than there are functions. *)
Theorem detect_issues_lists_three_smells (st : gmap string Val) :
  (∀ u, detect_issues st = inr u →
     ∃ issues,
       u = <["issues" := VList (VStr <$> issues)]>
             (<["issue_count" := VInt (Z.of_nat (List.length issues))]> ∅)
       ∧ sublist issues ["Long function"; "Missing docstrings";
                         "Potential unused imports"])
  ∧ ∀ code n,
      get st "code" (VStr EmptyString) = VStr code →
      get st "function_count" (VInt 0) = VInt n →
      ∃ issues,
        detect_issues st
        = inr (<["issues" := VList (VStr <$> issues)]>
                 (<["issue_count" := VInt (Z.of_nat (List.length issues))]> ∅))
        ∧ (In "Long function" issues ↔ 30 < str_count code newline)
        ∧ (In "Missing docstrings" issues
           ↔ str_count code (dquote ++ dquote ++ dquote) < n)
        ∧ (In "Potential unused imports" issues
           ↔ str_contains code "import" = true
             ∧ n < str_count code "import").
Proof.
  split.
  - intros u H. unfold detect_issues in H.
    apply bind_inr in H as (newlines & _ & H).
    apply bind_inr in H as (docstring_count & _ & H).
    apply bind_inr in H as (missing & _ & H).
    apply bind_inr in H as (has_import & _ & H).
    apply bind_inr in H as (unused & _ & H).
    inversion H; subst u; clear H.
    destruct (newlines >? 30), missing, unused;
      eexists; (split; [reflexivity | pick_sublist]).
  - intros code n Hcode Hn. unfold detect_issues. rewrite Hcode, Hn.
    cbn [method_count bind lt gt to_num contains].
    unfold num_lt, num_gt, num_compare.
    destruct (Z.gtb_spec (str_count code newline) 30) as [Hlong | Hlong];
      destruct (Z.compare_spec (str_count code (dquote ++ dquote ++ dquote)) n)
        as [Hdoc | Hdoc | Hdoc];
      destruct (str_contains code "import") eqn:Himp; cbn [bind];
      try destruct (Z.compare_spec (str_count code "import") n)
        as [Huse | Huse | Huse];
      eexists; (split; [reflexivity |]); simpl;
      repeat split; intros; intuition (try discriminate; try lia).
Qed.

(** X20.  Whatever it is given, when [suggest_improvements] returns it
    returns two keys: [suggestions], whose entries are taken in order
    from its four pieces of advice, and [quality_score], which is 0, or
    100, or a number strictly between the two: the score is clamped to
    the range from 0 to 100 (a NaN becomes 100). *)
Theorem suggest_improvements_clamps_quality (st u : gmap string Val) :
  suggest_improvements st = inr u →
  ∃ suggestions quality_score,
    u = <["suggestions" := VList (VStr <$> suggestions)]>
          (<["quality_score" := quality_score]> ∅)
    ∧ sublist suggestions
        ["Refactor into smaller functions"; "Reduce nesting depth";
         "Add comprehensive docstrings"; "Clean up imports"]
    ∧ (quality_score = VInt 0 ∨ quality_score = VInt 100
       ∨ (gt quality_score (VInt 0) = inr true
          ∧ lt quality_score (VInt 100) = inr true)).
Proof.
  intros H. unfold suggest_improvements in H.
  apply bind_inr in H as (many & _ & H).
  apply bind_inr in H as (nested & _ & H).
  apply bind_inr in H as (undocumented & _ & H).
  apply bind_inr in H as (imports & _ & H).
  apply bind_inr in H as (penalty & _ & H).
  apply bind_inr in H as (quality1 & _ & H).
  apply bind_inr in H as (gap & _ & H).
  apply bind_inr in H as (gap' & _ & H).
  apply bind_inr in H as (penalty' & _ & H).
  apply bind_inr in H as (quality & _ & H).
  apply bind_inr in H as (capped & Hmin & H).
  apply bind_inr in H as (final & Hmax & H).
  inversion H; subst u; clear H.
  unfold min_val in Hmin. apply bind_inr in Hmin as (below & Hbelow & Hmin).
  unfold max_val in Hmax. apply bind_inr in Hmax as (above & Habove & Hmax).
  inversion Hmin; subst capped; clear Hmin.
  inversion Hmax; subst final; clear Hmax.
  eexists _, _. split; [reflexivity |]. split.
  - destruct many, nested, undocumented, imports; pick_sublist.
  - destruct above; [| auto]. destruct below; auto.
Qed.

(** *** The code-review run as a pipeline *)

Lemma detect_issues_inv (st u : gmap string Val) :
  detect_issues st = inr u →
  ∃ issues,
    u = <["issues" := VList (VStr <$> issues)]>
          (<["issue_count" := VInt (Z.of_nat (List.length issues))]> ∅)
    ∧ (List.length issues ≤ 3)%nat.
Proof.
  intros H. unfold detect_issues in H.
  apply bind_inr in H as (newlines & _ & H).
  apply bind_inr in H as (docstring_count & _ & H).
  apply bind_inr in H as (missing & _ & H).
  apply bind_inr in H as (has_import & _ & H).
  apply bind_inr in H as (unused & _ & H).
  inversion H; subst u; clear H.
  destruct (newlines >? 30), missing, unused;
    eexists; (split; [reflexivity | simpl; lia]).
Qed.

Lemma detect_issues_total (st : gmap string Val) code n :
  get st "code" (VStr EmptyString) = VStr code →
  get st "function_count" (VInt 0) = VInt n →
  ∃ u, detect_issues st = inr u.
Proof.
  intros Hcode Hn. unfold detect_issues. rewrite Hcode, Hn.
  cbn [method_count bind lt gt to_num contains].
  destruct (str_contains code "import"); cbn [bind]; eexists; reflexivity.
Qed.

Lemma suggest_improvements_inv (st u : gmap string Val) :
  suggest_improvements st = inr u →
  ∃ suggestions quality_score,
    u = <["suggestions" := VList (VStr <$> suggestions)]>
          (<["quality_score" := quality_score]> ∅).
Proof.
  intros H. unfold suggest_improvements in H.
  do 12 (apply bind_inr in H as (? & _ & H)).
  inversion H; subst u. eauto.
Qed.

(** The pass at a standard node whose function only reads the state and
    raises. *)
Lemma body_reading_raises g (f : Frame Val) cur h msg :
  nodes g !! cur = Some (standard_node cur (reading h)) →
  h (state f) = inl msg →
  ∃ f', body g f cur = Raise f' (UserExc msg).
Proof.
  intros Hn Hh. rewrite (body_unfold _ _ _ _ Hn).
  unfold limit_exceeded. cbn [standard_node node_type is_loop andb].
  rewrite (invoke_raises _ _ _ _ (state f) msg)
    by (rewrite entered_state; unfold reading; simpl; rewrite Hh; reflexivity).
  eauto.
Qed.

Lemma code_review_run_chain (initial_state : gmap string Val) fuel :
  (4 ≤ fuel)%nat →
  run fuel code_review_graph initial_state
  = Some (chain code_review_steps initial_state []).
Proof.
  intros Hfuel. destruct fuel as [| [| [| [| fuel]]]]; try lia. clear Hfuel.
  destruct code_review_nodes as (Hn1 & Hn2 & Hn3 & Hn4).
  set (f0 := initial_frame code_review_graph initial_state).
  assert (Hraise : ∀ k f cur h msg,
            truthy (current_node_id f) = Some cur →
            nodes code_review_graph !! cur
              = Some (standard_node cur (reading h)) →
            h (state f) = inl msg →
            match while_loop (S k) code_review_graph f with
            | Some (Next f') => Some (inr (state f', logs f'))
            | Some (Raise _ e) => Some (inl e)
            | None => None
            end = Some (inl (UserExc msg) : Raised + _)).
  { intros k f cur h msg Hcur Hn Hh.
    rewrite (while_loop_pass _ _ _ _ Hcur).
    destruct (body_reading_raises _ f cur h msg Hn Hh) as [f' ->].
    reflexivity. }
  unfold run, run_frame.
  destruct (code_review_edges initial_state) as (Hstart & _).
  rewrite Hstart. cbn [truthy]. fold f0. unfold code_review_steps. simpl chain.
  (* extract *)
  destruct (extract_functions initial_state) as [m1 | u1] eqn:H1.
  { apply (Hraise _ f0 "extract" extract_functions m1);
      [unfold f0; simpl; rewrite Hstart; reflexivity | exact Hn1 | exact H1]. }
  destruct (code_review_edges (u1 ∪ initial_state)) as (_ & He1 & _).
  pose proof (body_reading code_review_graph f0 "extract" extract_functions
                u1 ["complexity"] Hn1 H1 He1 ltac:(simpl; lia)) as Hb1.
  set (f1 := {| state := u1 ∪ state f0 |}) in Hb1.
  rewrite (while_loop_pass _ _ f0 "extract")
    by (unfold f0; simpl; rewrite Hstart; reflexivity).
  rewrite Hb1.
  (* complexity *)
  change (u1 ∪ initial_state) with (state f1).
  destruct (check_complexity (state f1)) as [m2 | u2] eqn:H2.
  { apply (Hraise _ f1 "complexity" check_complexity m2);
      [reflexivity | exact Hn2 | exact H2]. }
  destruct (code_review_edges (u2 ∪ state f1)) as (_ & _ & He2 & _).
  pose proof (body_reading code_review_graph f1 "complexity" check_complexity
                u2 ["detect_issues"] Hn2 H2 He2 ltac:(simpl; lia)) as Hb2.
  set (f2 := {| state := u2 ∪ state f1 |}) in Hb2.
  rewrite (while_loop_pass _ _ f1 "complexity") by reflexivity.
  rewrite Hb2.
  (* detect_issues *)
  change (u2 ∪ state f1) with (state f2).
  destruct (detect_issues (state f2)) as [m3 | u3] eqn:H3.
  { apply (Hraise _ f2 "detect_issues" detect_issues m3);
      [reflexivity | exact Hn3 | exact H3]. }
  destruct (code_review_edges (u3 ∪ state f2)) as (_ & _ & _ & He3 & _).
  pose proof (body_reading code_review_graph f2 "detect_issues" detect_issues
                u3 ["suggest"] Hn3 H3 He3 ltac:(simpl; lia)) as Hb3.
  set (f3 := {| state := u3 ∪ state f2 |}) in Hb3.
  rewrite (while_loop_pass _ _ f2 "detect_issues") by reflexivity.
  rewrite Hb3.
  (* suggest *)
  change (u3 ∪ state f2) with (state f3).
  destruct (suggest_improvements (state f3)) as [m4 | u4] eqn:H4.
  { apply (Hraise _ f3 "suggest" suggest_improvements m4);
      [reflexivity | exact Hn4 | exact H4]. }
  destruct (code_review_edges (u4 ∪ state f3)) as (_ & _ & _ & _ & He4 & _).
  pose proof (body_reading code_review_graph f3 "suggest" suggest_improvements
                u4 [] Hn4 H4 He4 ltac:(simpl; lia)) as Hb4.
  set (f4 := {| state := u4 ∪ state f3 |}) in Hb4.
  rewrite (while_loop_pass _ _ f3 "suggest") by reflexivity.
  rewrite Hb4, while_loop_done by reflexivity.
  reflexivity.
Qed.

Lemma get_union_absent (u st : gmap string Val) key default :
  u !! key = None → get (u ∪ st) key default = get st key default.
Proof. intros H. unfold get. rewrite lookup_union_r by exact H. reflexivity. Qed.

Lemma get_union_present (u st : gmap string Val) key default v :
  u !! key = Some v → get (u ∪ st) key default = v.
Proof.
  intros H. unfold get. rewrite (lookup_union_Some_l u st key v H).
  reflexivity.
Qed.

(** The two ways a code-review run can go: the first node raises, or all
    four return. *)
Lemma code_review_chain_cases (initial_state : gmap string Val) :
  (∃ msg, extract_functions initial_state = inl msg
          ∧ chain code_review_steps initial_state [] = inl (UserExc msg))
  ∨ (∃ code names iteration issues suggestions quality_score,
       let deep := Z.of_nat (List.length (deep_lines code)) in
       let u1 := <["functions" := VList (VStr <$> names)]>
                   (<["function_count" := VInt (Z.of_nat (def_lines code))]>
                      (<["iteration" := iteration]> ∅)) in
       let u2 := <["complexity_issues" := VInt deep]>
                   (<["complexity_score" := VInt (Z.max 0 (100 - deep * 5))]>
                      ∅) in
       let u3 := <["issues" := VList (VStr <$> issues)]>
                   (<["issue_count" := VInt (Z.of_nat (List.length issues))]>
                      ∅) in
       let u4 := <["suggestions" := VList (VStr <$> suggestions)]>
                   (<["quality_score" := quality_score]> ∅) in
       let st1 := u1 ∪ initial_state in
       let st2 := u2 ∪ st1 in
       let st3 := u3 ∪ st2 in
       let st4 := u4 ∪ st3 in
       get initial_state "code" (VStr EmptyString) = VStr code
       ∧ extract_functions initial_state = inr u1
       ∧ (List.length issues ≤ 3)%nat
       ∧ chain code_review_steps initial_state []
         = inr (st4, [success_entry "extract" initial_state st1;
                      success_entry "complexity" st1 st2;
                      success_entry "detect_issues" st2 st3;
                      success_entry "suggest" st3 st4])).
Proof.
  unfold code_review_steps. simpl chain.
  destruct (extract_functions initial_state) as [m1 | u1] eqn:H1;
    [left; eauto |].
  right.
  destruct (extract_functions_inv _ _ H1)
    as (code & names & iteration & Hcode & -> & _ & _).
  exists code, names, iteration.
  set (u1 := <["functions" := VList (VStr <$> names)]> _) in *.
  set (st1 := u1 ∪ initial_state).
  assert (Hc1 : get st1 "code" (VStr EmptyString) = VStr code).
  { subst st1 u1. rewrite get_union_absent by absent. exact Hcode. }
  assert (Hf1 : st1 !! "function_count"
                = Some (VInt (Z.of_nat (def_lines code))))
    by (subst st1 u1; apply lookup_union_Some_l; present).
  rewrite (check_complexity_value st1 code Hc1).
  set (deep := Z.of_nat (List.length (deep_lines code))).
  set (u2 := <["complexity_issues" := VInt deep]> _).
  set (st2 := u2 ∪ st1).
  assert (Hc2 : get st2 "code" (VStr EmptyString) = VStr code).
  { subst st2 u2. rewrite get_union_absent by absent. exact Hc1. }
  assert (Hf2 : get st2 "function_count" (VInt 0)
                = VInt (Z.of_nat (def_lines code))).
  { subst st2 u2. rewrite get_union_absent by absent.
    unfold get. rewrite Hf1. reflexivity. }
  assert (Hs2 : st2 !! "complexity_score"
                = Some (VInt (Z.max 0 (100 - deep * 5))))
    by (subst st2 u2; apply lookup_union_Some_l; present).
  destruct (detect_issues_total st2 code _ Hc2 Hf2) as [u3 H3].
  rewrite H3.
  destruct (detect_issues_inv _ _ H3) as (issues & -> & Hlen).
  exists issues.
  set (u3 := <["issues" := VList (VStr <$> issues)]> _) in *.
  set (st3 := u3 ∪ st2).
  assert (Hi3 : st3 !! "issues" = Some (VList (VStr <$> issues)))
    by (subst st3 u3; apply lookup_union_Some_l; present).
  assert (Hk3 : st3 !! "issue_count"
                = Some (VInt (Z.of_nat (List.length issues))))
    by (subst st3 u3; apply lookup_union_Some_l; present).
  assert (Hs3 : st3 !! "complexity_score"
                = Some (VInt (Z.max 0 (100 - deep * 5)))).
  { subst st3 u3. rewrite lookup_union_r by absent. exact Hs2. }
  assert (Hscore : 0 ≤ Z.max 0 (100 - deep * 5) ≤ 100)
    by (subst deep; lia).
  assert (Hcount : 0 ≤ Z.of_nat (List.length issues) ≤ 3) by lia.
  destruct (suggest_improvements_returns st3 _ _ _ Hi3 Hs3 Hk3 Hscore Hcount)
    as (suggestions & quality & H4).
  rewrite H4. exists suggestions, quality. simpl.
  split; [exact Hcode |]. split; [reflexivity |]. split; [exact Hlen |].
  reflexivity.
Qed.

(** X21.  The run of the code-review graph is the four node functions
    called one after the other, each on the state merged with the
    results of the ones before: for every initial state, four passes are
    enough, the run raises what the first failing function raises or
    returns the merged state with one success entry per function.
    Nothing loops back to [detect_issues]. *)
Theorem code_review_is_a_pipeline (initial_state : gmap string Val) fuel :
  (4 ≤ fuel)%nat →
  run fuel code_review_graph initial_state
  = Some (chain code_review_steps initial_state []).
Proof. apply code_review_run_chain. Qed.

(** X22.  A code-review run fails in its first node or not at all: it
    returns exactly when [code] is a text (or is absent) and [iteration]
    a number (or absent).  It then returns with four success entries,
    in the order extract, complexity, detect_issues, suggest, and a
    final state in which [function_count] is the number of [def] lines
    of the text, [complexity_score] is 100 minus five per deep line and
    not below 0, and [issue_count] is at most 3. *)
Theorem code_review_succeeds_on_text (initial_state : gmap string Val) fuel :
  (4 ≤ fuel)%nat →
  ((∃ final log,
      run fuel code_review_graph initial_state = Some (inr (final, log)))
   ↔ (∃ code, get initial_state "code" (VStr EmptyString) = VStr code)
     ∧ is_Some (to_num (get initial_state "iteration" (VInt 0))))
  ∧ (∀ e, run fuel code_review_graph initial_state = Some (inl e) →
       ∃ msg, e = UserExc msg ∧ extract_functions initial_state = inl msg)
  ∧ ∀ final log,
      run fuel code_review_graph initial_state = Some (inr (final, log)) →
      ∃ code issue_count,
        get initial_state "code" (VStr EmptyString) = VStr code
        ∧ final !! "function_count"
          = Some (VInt (Z.of_nat (def_lines code)))
        ∧ final !! "complexity_score"
          = Some (VInt (Z.max 0
                          (100 - Z.of_nat (List.length (deep_lines code)) * 5)))
        ∧ final !! "issue_count" = Some (VInt issue_count)
        ∧ 0 ≤ issue_count ≤ 3
        ∧ node_id <$> log
          = ["extract"; "complexity"; "detect_issues"; "suggest"]
        ∧ status <$> log = ["success"; "success"; "success"; "success"].
Proof.
  intros Hfuel. rewrite (code_review_run_chain _ _ Hfuel).
  destruct (code_review_chain_cases initial_state)
    as [(msg & H1 & Hchain)
       | (code & names & it & issues & sugg & q & Hcode & H1 & Hlen & Hchain)];
    rewrite Hchain.
  - split; [split |]; [| | split].
    + intros (final & log & H). discriminate.
    + intros [[code Hcode] Hnum].
      destruct (extract_functions_total _ _ Hcode Hnum) as [u Hu]. congruence.
    + intros e He. inversion He; subst. eauto.
    + intros final log H. discriminate.
  - split; [split |]; [| | split].
    + intros _. split; [eauto |].
      destruct (extract_functions_inv _ _ H1) as (c & n & i & _ & _ & _ & Ha).
      eapply add_one_number, Ha.
    + eauto.
    + intros e He. discriminate.
    + intros final log H. inversion H; subst final log; clear H.
      exists code, (Z.of_nat (List.length issues)).
      split; [exact Hcode |].
      split.
      { rewrite lookup_union_r by absent. rewrite lookup_union_r by absent.
        rewrite lookup_union_r by absent. apply lookup_union_Some_l. present. }
      split.
      { rewrite lookup_union_r by absent. rewrite lookup_union_r by absent.
        apply lookup_union_Some_l. present. }
      split.
      { rewrite lookup_union_r by absent. apply lookup_union_Some_l. present. }
      split; [lia |]. split; reflexivity.
Qed.

(** X23.  A code-review run that returns leaves every key alone that is
    not one of the nine keys its node functions write: the value under
    such a key, and whether there is one, is the same in the final state
    as in the initial state; so the text under [code] comes back as it
    went in. *)
Theorem code_review_touches_its_keys_only
    (initial_state final : gmap string Val) log fuel key :
  (4 ≤ fuel)%nat →
  run fuel code_review_graph initial_state = Some (inr (final, log)) →
  ¬ In key code_review_keys →
  final !! key = initial_state !! key.
Proof.
  intros Hfuel Hrun Hkey. rewrite (code_review_run_chain _ _ Hfuel) in Hrun.
  destruct (code_review_chain_cases initial_state)
    as [(msg & H1 & Hchain)
       | (code & names & it & issues & sugg & q & Hcode & H1 & Hlen & Hchain)];
    rewrite Hchain in Hrun; [discriminate |].
  inversion Hrun; subst final log; clear Hrun.
  unfold code_review_keys in Hkey. simpl in Hkey.
  assert (Habsent : ∀ (k1 k2 : string) (v1 v2 : Val),
            k1 ≠ key → k2 ≠ key →
            (<[k1 := v1]> (<[k2 := v2]> (∅ : gmap string Val))) !! key = None).
  { intros. rewrite !lookup_insert_ne by assumption. apply lookup_empty. }
  rewrite lookup_union_r by (apply Habsent; intros Heq; subst key; tauto).
  rewrite lookup_union_r by (apply Habsent; intros Heq; subst key; tauto).
  rewrite lookup_union_r by (apply Habsent; intros Heq; subst key; tauto).
  rewrite lookup_union_r; [reflexivity |].
  rewrite !lookup_insert_ne by (intros Heq; subst key; tauto).
  apply lookup_empty.
Qed.

(** *** The HTTP handlers *)

Lemma check_end_nodes_None node_ids end_nodes :
  check_end_nodes node_ids end_nodes = None
  ↔ ∀ end_node, end_node ∈ end_nodes → end_node ∈ node_ids.
Proof.
  induction end_nodes as [| n ns IH]; simpl.
  - split; [intros _ x Hx; inversion Hx | reflexivity].
  - destruct (bool_decide (n ∈ node_ids)) eqn:Hn.
    + apply bool_decide_eq_true_1 in Hn. rewrite IH. split.
      * intros H x Hx. apply elem_of_cons in Hx as [-> | Hx]; auto.
      * intros H x Hx. apply H, elem_of_cons. auto.
    + apply bool_decide_eq_false_1 in Hn. split; [discriminate |].
      intros H. destruct Hn. apply H, elem_of_cons. auto.
Qed.

Lemma check_edges_None node_ids edges :
  check_edges node_ids edges = None
  ↔ ∀ edge, edge ∈ edges →
            EdgeDefinition.from_node edge ∈ node_ids
            ∧ EdgeDefinition.to_node edge ∈ node_ids.
Proof.
  induction edges as [| e es IH]; simpl.
  - split; [intros _ x Hx; inversion Hx | reflexivity].
  - destruct (bool_decide (EdgeDefinition.from_node e ∈ node_ids)) eqn:Hf;
      [destruct (bool_decide (EdgeDefinition.to_node e ∈ node_ids)) eqn:Ht |].
    + apply bool_decide_eq_true_1 in Hf, Ht. rewrite IH. split.
      * intros H x Hx. apply elem_of_cons in Hx as [-> | Hx]; auto.
      * intros H x Hx. apply H, elem_of_cons. auto.
    + apply bool_decide_eq_false_1 in Ht. split; [discriminate |].
      intros H. destruct Ht. apply (H e), elem_of_cons. auto.
    + apply bool_decide_eq_false_1 in Hf. split; [discriminate |].
      intros H. destruct Hf. apply (H e), elem_of_cons. auto.
Qed.

(** X24.  [POST /graph/create] answers "created", with the graph id of
    the request, exactly when the start node, every end node and both
    ends of every edge are ids of nodes of the request; otherwise it
    raises an [HTTPException] with status 400, and a missing start node
    is reported before anything else.  Node ids given twice and unknown
    node types are not looked at. *)
Theorem create_graph_checks_references (request : GraphCreateRequest.t) :
  (references_declared request →
     create_graph request
     = inr {| GraphCreateResponse.graph_id :=
                GraphCreateRequest.graph_id request;
              GraphCreateResponse.status := "created" |})
  ∧ (¬ references_declared request →
     ∃ detail, create_graph request
               = inl {| status_code := 400; detail := detail |})
  ∧ (GraphCreateRequest.start_node request
       ∉ NodeDefinition.id <$> GraphCreateRequest.nodes request →
     create_graph request
     = inl {| status_code := 400;
              detail := "Start node '"
                        ++ GraphCreateRequest.start_node request
                        ++ "' not in nodes" |}).
Proof.
  unfold create_graph, references_declared.
  set (node_ids := NodeDefinition.id <$> GraphCreateRequest.nodes request).
  split; [| split].
  - intros (Hs & He & Hd).
    rewrite bool_decide_eq_true_2 by exact Hs.
    rewrite (proj2 (check_end_nodes_None _ _) He).
    rewrite (proj2 (check_edges_None _ _) Hd). reflexivity.
  - intros Hno.
    destruct (bool_decide (GraphCreateRequest.start_node request ∈ node_ids))
      eqn:Hs; [| eauto].
    apply bool_decide_eq_true_1 in Hs.
    destruct (check_end_nodes node_ids (GraphCreateRequest.end_nodes request))
      eqn:He; [eauto |].
    destruct (check_edges node_ids (GraphCreateRequest.edges request))
      eqn:Hd; [eauto |].
    destruct Hno. split; [exact Hs |].
    split; [apply check_end_nodes_None, He | apply check_edges_None, Hd].
  - intros Hs. rewrite bool_decide_eq_false_2 by exact Hs. reflexivity.
Qed.

Lemma log_items_fields (logs : list (ExecutionLog Val)) :
  ExecutionLogItem.node_id <$> log_items logs = node_id <$> logs
  ∧ ExecutionLogItem.status <$> log_items logs = status <$> logs
  ∧ ExecutionLogItem.error <$> log_items logs = error <$> logs.
Proof.
  unfold log_items. rewrite <- !list_fmap_compose. auto.
Qed.

(** X25.  A run that [POST /graph/run] answers with "completed" can be
    read back: [GET /graph/state] for its run id gives the final state
    and the log items of the answer, the items name the nodes, statuses
    and errors of the log of the run in order, the run id is listed by
    [GET /runs], the graphs are those of before, and every other run id
    reads as before. *)
Theorem completed_run_reads_back value_error fuel store run_id request
    store' response :
  run_graph value_error fuel store run_id request
    = Some (store', inr response) →
  get_graph_state store' run_id
  = inr {| GraphStateResponse.run_id := run_id;
           GraphStateResponse.state := GraphRunResponse.final_state response;
           GraphStateResponse.logs :=
             GraphRunResponse.execution_logs response |}
  ∧ GraphRunResponse.run_id response = run_id
  ∧ GraphRunResponse.status response = "completed"
  ∧ (∃ graph log,
       GraphStore.load_graph store (GraphRunRequest.graph_id request)
         = Some graph
       ∧ run fuel graph (GraphRunRequest.initial_state request)
         = Some (inr (GraphRunResponse.final_state response, log))
       ∧ ExecutionLogItem.node_id <$> GraphRunResponse.execution_logs response
         = node_id <$> log
       ∧ ExecutionLogItem.status <$> GraphRunResponse.execution_logs response
         = status <$> log
       ∧ ExecutionLogItem.error <$> GraphRunResponse.execution_logs response
         = error <$> log)
  ∧ run_id ∈ fst (list_runs store')
  ∧ list_graphs store' = list_graphs store
  ∧ ∀ other, other ≠ run_id →
      get_graph_state store' other = get_graph_state store other.
Proof.
  unfold run_graph. intros H.
  destruct (GraphStore.load_graph store (GraphRunRequest.graph_id request))
    as [graph|] eqn:Hg; [| inversion H].
  destruct (run fuel graph (GraphRunRequest.initial_state request))
    as [[e | [final log]] |] eqn:Hrun; inversion H; subst; clear H.
  unfold get_graph_state, GraphStore.load_run. simpl.
  rewrite od_get_set, bool_decide_eq_true_2 by reflexivity.
  split; [reflexivity |]. split; [reflexivity |]. split; [reflexivity |].
  split.
  { exists graph, log. split; [reflexivity |]. split; [exact Hrun |].
    apply log_items_fields. }
  split.
  { unfold GraphStore.list_runs. simpl. apply od_get_keys.
    rewrite od_get_set, bool_decide_eq_true_2 by reflexivity. eauto. }
  split; [reflexivity |].
  intros other Hne. rewrite od_get_set.
  rewrite bool_decide_eq_false_2 by congruence. reflexivity.
Qed.

(** X26.  A run that [POST /graph/run] does not complete leaves no
    trace: the store is the one of before, so nothing of the log
    written up to the failure can be read back.  An unknown graph id
    and a graph without start node give status 400; an exceeded loop
    bound and a missing node give status 500, the message prefixed with
    "Internal server error: ". *)
Theorem failed_run_is_not_saved value_error fuel store run_id request
    store' exc :
  run_graph value_error fuel store run_id request = Some (store', inl exc) →
  store' = store
  ∧ (GraphStore.load_graph store (GraphRunRequest.graph_id request) = None →
       exc = {| status_code := 400;
                detail := "Graph '" ++ GraphRunRequest.graph_id request
                          ++ "' not found" |})
  ∧ ∀ graph,
      GraphStore.load_graph store (GraphRunRequest.graph_id request)
        = Some graph →
      ∃ e, run fuel graph (GraphRunRequest.initial_state request)
             = Some (inl e)
           ∧ (e = NoStartNode →
                exc = {| status_code := 400;
                         detail := "No start node defined" |})
           ∧ (∀ n bound, e = LoopLimit n bound →
                exc = {| status_code := 500;
                         detail := "Internal server error: Node '" ++ n
                                   ++ "' exceeded max iterations ("
                                   ++ pretty bound ++ ")" |})
           ∧ (∀ key, e = MissingNode key → status_code exc = 500)
           ∧ (∀ msg, e = UserExc msg →
                exc = if value_error msg
                      then {| status_code := 400; detail := msg |}
                      else {| status_code := 500;
                              detail := "Internal server error: " ++ msg |}).
Proof.
  unfold run_graph. intros H.
  destruct (GraphStore.load_graph store (GraphRunRequest.graph_id request))
    as [graph|] eqn:Hg.
  - destruct (run fuel graph (GraphRunRequest.initial_state request))
      as [[e | [final log]] |] eqn:Hrun; inversion H; subst; clear H.
    split; [reflexivity |]. split; [discriminate |].
    intros g Heq. inversion Heq; subst g. exists e.
    split; [exact Hrun |].
    split; [intros ->; reflexivity |].
    split; [intros n b ->; reflexivity |].
    split; [intros k ->; reflexivity |].
    intros msg ->. reflexivity.
  - inversion H; subst. split; [reflexivity |]. split; [reflexivity |].
    intros g Heq. discriminate.
Qed.

Lemma graph_store_value :
  graph_store
  = inr {| GraphStore.graphs := [("code_review", code_review_graph)];
           GraphStore.runs := [] |}.
Proof.
  unfold graph_store, setup_example_workflows.
  rewrite setup_code_review_workflow_graph. reflexivity.
Qed.

Lemma run_graph_keeps_graphs value_error fuel store run_id request store'
    response :
  run_graph value_error fuel store run_id request = Some (store', response) →
  GraphStore.graphs store' = GraphStore.graphs store.
Proof.
  unfold run_graph. intros H.
  destruct (GraphStore.load_graph store (GraphRunRequest.graph_id request))
    as [graph|]; [| inversion H; reflexivity].
  destruct (run fuel graph (GraphRunRequest.initial_state request))
    as [[e | [final log]] |]; inversion H; reflexivity.
Qed.

Lemma serve_all_keeps_graphs value_error fuel rs : ∀ store store',
  serve_all value_error fuel store rs = Some store' →
  GraphStore.graphs store' = GraphStore.graphs store.
Proof.
  induction rs as [| r rs IH]; simpl; intros store store' H.
  - inversion H. reflexivity.
  - destruct (serve value_error fuel store r) as [s1|] eqn:Hs; [| discriminate].
    rewrite (IH _ _ H). destruct r; simpl in Hs;
      try (inversion Hs; reflexivity).
    destruct (run_graph value_error fuel store run_id request)
      as [[s2 response]|] eqn:Hr; inversion Hs; subst.
    exact (run_graph_keeps_graphs _ _ _ _ _ _ _ Hr).
Qed.

Lemma run_graph_code_review_only value_error fuel store run_id request :
  (4 ≤ fuel)%nat →
  GraphStore.graphs store = [("code_review", code_review_graph)] →
  ∃ store' response,
    run_graph value_error fuel store run_id request = Some (store', response).
Proof.
  intros Hfuel Hg. unfold run_graph, GraphStore.load_graph. rewrite Hg. simpl.
  destruct (bool_decide ("code_review" = GraphRunRequest.graph_id request));
    [| eauto].
  rewrite (code_review_run_chain _ _ Hfuel).
  destruct (chain code_review_steps (GraphRunRequest.initial_state request) [])
    as [e | [final log]]; eauto.
Qed.

Lemma serve_all_code_review_only value_error fuel rs :
  (4 ≤ fuel)%nat →
  ∀ store,
    GraphStore.graphs store = [("code_review", code_review_graph)] →
    ∃ store', serve_all value_error fuel store rs = Some store'.
Proof.
  intros Hfuel. induction rs as [| r rs IH]; simpl; intros store Hg; [eauto |].
  assert (Hs : ∃ s1, serve value_error fuel store r = Some s1
                     ∧ GraphStore.graphs s1 = GraphStore.graphs store).
  { destruct r; simpl; eauto.
    destruct (run_graph_code_review_only value_error fuel store run_id request
                Hfuel Hg) as (s1 & response & Hr).
    rewrite Hr. exists s1. split; [reflexivity |].
    exact (run_graph_keeps_graphs _ _ _ _ _ _ _ Hr). }
  destruct Hs as (s1 & -> & Hg1). apply IH. congruence.
Qed.

(** X27.  The application serves the code-review graph and no other.
    When the module is loaded the store holds the graph of
    [setup_code_review_workflow] under "code_review"; after any sequence
    of requests, each of which ends (four passes are enough), the store
    holds the same graphs, [GET /graphs] lists "code_review" alone, and
    a run of another graph id is refused with status 400 and leaves the
    store as it is.  In particular a graph accepted by
    [POST /graph/create] cannot be run. *)
Theorem only_code_review_is_served value_error fuel (rs : list Request) :
  (4 ≤ fuel)%nat →
  ∃ store0 store,
    graph_store = inr store0
    ∧ GraphStore.load_graph store0 "code_review" = Some code_review_graph
    ∧ serve_all value_error fuel store0 rs = Some store
    ∧ GraphStore.graphs store = GraphStore.graphs store0
    ∧ list_graphs store = (["code_review"], 1)
    ∧ ∀ run_id request,
        GraphRunRequest.graph_id request ≠ "code_review" →
        run_graph value_error fuel store run_id request
        = Some (store,
                inl {| status_code := 400;
                       detail := "Graph '" ++ GraphRunRequest.graph_id request
                                 ++ "' not found" |}).
Proof.
  intros Hfuel. rewrite graph_store_value.
  set (store0 := {| GraphStore.graphs := [("code_review", code_review_graph)];
                    GraphStore.runs := [] |}).
  destruct (serve_all_code_review_only value_error fuel rs Hfuel store0
              eq_refl) as [store Hs].
  pose proof (serve_all_keeps_graphs _ _ _ _ _ Hs) as Hg.
  exists store0, store.
  split; [reflexivity |]. split; [reflexivity |]. split; [exact Hs |].
  split; [exact Hg |].
  split; [unfold list_graphs, GraphStore.list_graphs; rewrite Hg; reflexivity |].
  intros run_id request Hne.
  unfold run_graph, GraphStore.load_graph. rewrite Hg. simpl.
  rewrite bool_decide_eq_false_2 by congruence. reflexivity.
Qed.

(** X28.  [POST /graph/run] for "code_review", on a store that holds the
    code-review graph under that id: when [code] is a text (or absent)
    and [iteration] a number (or absent), the answer is "completed" with
    four log items, for extract, complexity, detect_issues and suggest,
    all "success" and without error; the final state counts the [def]
    lines of the text under [function_count] and is what
    [GET /graph/state] then gives for the run id.  Otherwise nothing is
    saved and the answer is the exception of [extract_functions], with
    status 500 unless it is a [ValueError]. *)
Theorem code_review_request value_error fuel store run_id initial_state :
  (4 ≤ fuel)%nat →
  GraphStore.load_graph store "code_review" = Some code_review_graph →
  let request := {| GraphRunRequest.graph_id := "code_review";
                    GraphRunRequest.initial_state := initial_state |} in
  (∀ code,
     get initial_state "code" (VStr EmptyString) = VStr code →
     is_Some (to_num (get initial_state "iteration" (VInt 0))) →
     ∃ store' response,
       run_graph value_error fuel store run_id request
         = Some (store', inr response)
       ∧ GraphRunResponse.status response = "completed"
       ∧ GraphRunResponse.execution_logs response
         = (λ n, {| ExecutionLogItem.node_id := n;
                    ExecutionLogItem.status := "success";
                    ExecutionLogItem.error := None |})
             <$> ["extract"; "complexity"; "detect_issues"; "suggest"]
       ∧ GraphRunResponse.final_state response !! "function_count"
         = Some (VInt (Z.of_nat (def_lines code)))
       ∧ get_graph_state store' run_id
         = inr {| GraphStateResponse.run_id := run_id;
                  GraphStateResponse.state :=
                    GraphRunResponse.final_state response;
                  GraphStateResponse.logs :=
                    GraphRunResponse.execution_logs response |})
  ∧ (∀ msg,
       extract_functions initial_state = inl msg →
       run_graph value_error fuel store run_id request
       = Some (store,
               inl (if value_error msg
                    then {| status_code := 400; detail := msg |}
                    else {| status_code := 500;
                            detail := "Internal server error: " ++ msg |}))).
Proof.
  intros Hfuel Hg request. unfold run_graph. subst request. simpl.
  rewrite Hg, (code_review_run_chain _ _ Hfuel).
  destruct (code_review_chain_cases initial_state)
    as [(msg & H1 & Hchain)
       | (code & names & it & issues & sugg & q & Hcode & H1 & Hlen & Hchain)];
    rewrite Hchain.
  - split.
    + intros code Hcode Hnum. exfalso.
      destruct (extract_functions_total initial_state code Hcode Hnum)
        as [u Hu]. congruence.
    + intros msg' Hmsg. assert (msg' = msg) by congruence. subst msg'.
      reflexivity.
  - split; [| intros msg Hmsg; congruence].
    intros code' Hcode' _. assert (code' = code) by congruence. subst code'.
    eexists _, _. split; [reflexivity |]. simpl.
    split; [reflexivity |]. split; [reflexivity |].
    split.
    + rewrite !(lookup_union_r _ _ "function_count")
        by (rewrite !lookup_insert_ne by discriminate; apply lookup_empty).
      apply lookup_union_Some_l.
      rewrite lookup_insert_ne by discriminate.
      apply lookup_insert_eq.
    + unfold get_graph_state, GraphStore.load_run, GraphStore.save_run. simpl.
      rewrite od_get_set, bool_decide_eq_true_2 by reflexivity. reflexivity.
Qed.

(** *** The properties on concrete graphs and requests *)

Lemma graph_ab_built :
  build new_graph
    [AddNode "a" (returning ∅) STANDARD None 10;
     AddNode "b" (raising "boom") STANDARD None 10;
     AddEdge "a" "b" None]
  = inr graph_ab.
Proof. vm_compute. reflexivity. Qed.

Lemma graph_ab_well_formed : well_formed graph_ab.
Proof.
  exact (build_well_formed _ _ _ new_graph_well_formed graph_ab_built).
Qed.

Lemma built_graph_is_well_formed_witness :
  build new_graph
    [AddNode "a" (returning ∅) STANDARD None 10;
     AddNode "b" (raising "boom") STANDARD None 10;
     AddEdge "a" "b" None]
  = inr graph_ab
  ∧ well_formed graph_ab.
Proof.
  split; [vm_compute; reflexivity |].
  apply (built_graph_is_well_formed
           [AddNode "a" (returning ∅) STANDARD None 10;
            AddNode "b" (raising "boom") STANDARD None 10;
            AddEdge "a" "b" None] graph_ab).
  vm_compute. reflexivity.
Defined.

Lemma well_formed_run_finds_its_nodes_witness :
  ∃ f e, run_frame 2 graph_ab ∅ = Some (Raise f e)
         ∧ ∀ key, e ≠ MissingNode key.
Proof.
  eexists _, _. split; [vm_compute; reflexivity |].
  eapply (well_formed_run_finds_its_nodes graph_ab 2 ∅ _ _
           graph_ab_well_formed).
  vm_compute. reflexivity.
Defined.

Lemma first_node_added_is_start_witness :
  build new_graph
    [AddNode "a" (returning ∅) STANDARD None 10;
     AddNode "b" (raising "boom") STANDARD None 10;
     AddEdge "a" "b" None]
  = inr graph_ab
  ∧ start_node graph_ab = Some "a".
Proof.
  split; [vm_compute; reflexivity |].
  apply (first_node_added_is_start "a" (returning ∅) STANDARD None 10
           [AddNode "b" (raising "boom") STANDARD None 10;
            AddEdge "a" "b" None] graph_ab).
  - reflexivity.
  - vm_compute. reflexivity.
Defined.

Lemma add_edge_appends_destination_witness :
  ∃ g', add_edge graph_branch "a" "a" (Some has_again) = inr g'
        ∧ _get_next_nodes graph_branch "a" {[ "again" := VNone ]}
          = inr ["b"; "c"]
        ∧ _get_next_nodes g' "a" {[ "again" := VNone ]}
          = inr ["b"; "c"; "a"]
        ∧ _get_next_nodes g' "a" ∅ = inr ["b"; "c"]
        ∧ _get_next_nodes g' "b" {[ "again" := VNone ]} = inr [].
Proof.
  eexists. split; [reflexivity |].
  pose proof (add_edge_appends_destination graph_branch "a" "a"
                (Some has_again) _ eq_refl) as (_ & _ & _ & H).
  split; [vm_compute; reflexivity |].
  split; [rewrite H; vm_compute; reflexivity |].
  split; rewrite H; vm_compute; reflexivity.
Defined.

Lemma loop_limit_only_without_condition_witness :
  let g := graph_loop 0 None in
  ∃ f', body g (initial_frame g ∅) "l" = Raise f' (LoopLimit "l" 0)
        ∧ ∃ node, nodes g !! "l" = Some node
                  ∧ node_type node = LOOP
                  ∧ loop_condition node = None
                  ∧ 0 = max_iterations node
                  ∧ max_iterations node
                    < counter_get (initial_frame g ∅) "l" + 1.
Proof.
  intros g. eexists. split; [vm_compute; reflexivity |].
  eapply (loop_limit_only_without_condition g (initial_frame g ∅) "l" _ "l" 0).
  vm_compute. reflexivity.
Defined.

Lemma true_loop_condition_never_ends_witness :
  run 5 (graph_loop 1 (Some (λ _, inr true))) {[ "n" := VInt 0 ]} = None.
Proof.
  refine (true_loop_condition_never_ends
            (graph_loop 1 (Some (λ _, inr true))) "l"
            {| id := "l"; fn := returning ∅; node_type := LOOP;
               loop_condition := Some (λ _, inr true);
               max_iterations := 1 |}
            (λ _, inr true) _ _ _ _ _ _ _ 5 {[ "n" := VInt 0 ]}).
  - reflexivity.
  - discriminate.
  - reflexivity.
  - reflexivity.
  - reflexivity.
  - intros st. exists st, ∅. reflexivity.
  - reflexivity.
Defined.

Lemma log_is_successes_then_one_error_witness :
  ∃ f earlier entry,
    run_frame 2 graph_ab ∅ = Some (Raise f (UserExc "boom"))
    ∧ logs f = (earlier ++ [entry])%list
    ∧ successes earlier
    ∧ status entry = "error"
    ∧ error entry = Some "boom"
    ∧ last (visited_sequence f) = Some (node_id entry).
Proof.
  destruct (run_frame 2 graph_ab ∅) as [[f | f e] |] eqn:Hr;
    [vm_compute in Hr; discriminate | | vm_compute in Hr; discriminate].
  assert (He : e = UserExc "boom") by (vm_compute in Hr; congruence).
  subst e.
  destruct (log_is_successes_then_one_error graph_ab 2 ∅ _ Hr)
    as (earlier & entry & H).
  exists f, earlier, entry. split; [reflexivity | exact H].
Defined.

Lemma single_node_run_witness :
  run 1 graph_m ∅
  = Some (inr (∅ ∪ <["touched" := VBool true]> ∅,
               [success_entry "m" ∅ (∅ ∪ <["touched" := VBool true]> ∅)])).
Proof.
  apply (single_node_run "m"
           (λ state, (<["touched" := VBool true]> state, inr ∅))
           STANDARD None 10 graph_m 0 ∅ (<["touched" := VBool true]> ∅) ∅).
  - vm_compute. reflexivity.
  - discriminate.
  - discriminate.
  - reflexivity.
Defined.

Lemma suggest_improvements_clamps_quality_witness :
  let st : gmap string Val :=
    <["issues" := VList [VStr "Missing docstrings"]]>
      (<["issue_count" := VInt 1]> {[ "complexity_score" := VInt 80 ]}) in
  ∃ suggestions quality_score,
    suggest_improvements st
      = inr (<["suggestions" := VList (VStr <$> suggestions)]>
               (<["quality_score" := quality_score]> ∅))
    ∧ sublist suggestions
        ["Refactor into smaller functions"; "Reduce nesting depth";
         "Add comprehensive docstrings"; "Clean up imports"]
    ∧ (quality_score = VInt 0 ∨ quality_score = VInt 100
       ∨ (gt quality_score (VInt 0) = inr true
          ∧ lt quality_score (VInt 100) = inr true)).
Proof.
  intros st.
  destruct (suggest_improvements_returns st [VStr "Missing docstrings"] 80 1)
    as (s0 & q0 & Hs); [reflexivity | reflexivity | reflexivity | lia | lia |].
  destruct (suggest_improvements_clamps_quality st _ Hs)
    as (suggestions & quality_score & Hu & H).
  exists suggestions, quality_score. split; [| exact H].
  rewrite Hs, Hu. reflexivity.
Defined.

Lemma code_review_is_a_pipeline_witness :
  run 4 code_review_graph {[ "code" := VStr two_defs ]}
  = Some (chain code_review_steps {[ "code" := VStr two_defs ]} []).
Proof.
  apply (code_review_is_a_pipeline {[ "code" := VStr two_defs ]} 4). lia.
Defined.

Lemma code_review_succeeds_on_text_witness :
  (∃ final log,
     run 4 code_review_graph {[ "code" := VStr two_defs ]}
       = Some (inr (final, log)))
  ∧ ¬ (∃ final log,
         run 4 code_review_graph {[ "code" := VInt 7 ]}
           = Some (inr (final, log))).
Proof.
  split.
  - apply (proj1 (code_review_succeeds_on_text
                    {[ "code" := VStr two_defs ]} 4 ltac:(lia))).
    split; [exists two_defs; reflexivity | vm_compute; eauto].
  - intros H.
    apply (proj1 (code_review_succeeds_on_text
                    {[ "code" := VInt 7 ]} 4 ltac:(lia))) in H
      as [[code Hcode] _].
    vm_compute in Hcode. discriminate.
Defined.

Lemma code_review_touches_its_keys_only_witness :
  let initial_state : gmap string Val :=
    <["author" := VStr "ada"]> {[ "code" := VStr two_defs ]} in
  ∃ final log,
    run 4 code_review_graph initial_state = Some (inr (final, log))
    ∧ final !! "author" = Some (VStr "ada").
Proof.
  intros initial_state.
  pose proof (code_review_run_chain initial_state 4 ltac:(lia)) as Hrun.
  destruct (code_review_chain_cases initial_state)
    as [(msg & H1 & _)
       | (code & names & it & issues & sugg & q & _ & _ & _ & Hchain)].
  - exfalso.
    destruct (extract_functions_total initial_state two_defs) as [u Hu];
      [reflexivity | simpl; eauto | congruence].
  - rewrite Hchain in Hrun. eexists _, _. split; [exact Hrun |].
    rewrite (code_review_touches_its_keys_only _ _ _ 4 "author"
               ltac:(lia) Hrun); [reflexivity |].
    unfold code_review_keys. simpl. intros H.
    repeat (destruct H as [H | H]; [discriminate |]). exact H.
Defined.

Lemma completed_run_reads_back_witness :
  let store := GraphStore.save_graph GraphStore.empty "m" graph_m in
  let request := {| GraphRunRequest.graph_id := "m";
                    GraphRunRequest.initial_state := ∅ |} in
  ∃ store' response,
    run_graph (λ _, false) 1 store "r1" request = Some (store', inr response)
    ∧ get_graph_state store "r1"
      = inl {| status_code := 404; detail := "Run 'r1' not found" |}
    ∧ get_graph_state store' "r1"
      = inr {| GraphStateResponse.run_id := "r1";
               GraphStateResponse.state :=
                 GraphRunResponse.final_state response;
               GraphStateResponse.logs :=
                 GraphRunResponse.execution_logs response |}.
Proof.
  intros store request.
  destruct (run_graph (λ _, false) 1 store "r1" request)
    as [[store' [exc | response]] |] eqn:Hr;
    [vm_compute in Hr; discriminate | | vm_compute in Hr; discriminate].
  exists store', response. split; [reflexivity |]. split; [reflexivity |].
  apply (completed_run_reads_back (λ _, false) 1 store "r1" request
           store' response Hr).
Defined.

Lemma failed_run_is_not_saved_witness :
  let store := GraphStore.save_graph GraphStore.empty "b" graph_b in
  let request := {| GraphRunRequest.graph_id := "b";
                    GraphRunRequest.initial_state := ∅ |} in
  ∃ store',
    run_graph (λ _, false) 1 store "r1" request
      = Some (store',
              inl {| status_code := 500;
                     detail := "Internal server error: boom" |})
    ∧ store' = store.
Proof.
  intros store request. eexists. split; [vm_compute; reflexivity |].
  eapply (failed_run_is_not_saved (λ _, false) 1 store "r1" request _
           {| status_code := 500; detail := "Internal server error: boom" |}).
  vm_compute. reflexivity.
Defined.

Lemma only_code_review_is_served_witness :
  let rs :=
    [PostGraphCreate
       {| GraphCreateRequest.graph_id := "mine";
          GraphCreateRequest.nodes :=
            [{| NodeDefinition.id := "n";
                NodeDefinition.node_type := "standard" |}];
          GraphCreateRequest.edges := [];
          GraphCreateRequest.start_node := "n";
          GraphCreateRequest.end_nodes := [] |};
     PostGraphRun "r1" {| GraphRunRequest.graph_id := "mine";
                          GraphRunRequest.initial_state := ∅ |};
     PostGraphRun "r2" {| GraphRunRequest.graph_id := "code_review";
                          GraphRunRequest.initial_state :=
                            {[ "code" := VStr two_defs ]} |};
     GetGraphs] in
  ∃ store0 store,
    graph_store = inr store0
    ∧ serve_all (λ _, false) 4 store0 rs = Some store
    ∧ list_graphs store = (["code_review"], 1).
Proof.
  intros rs.
  destruct (only_code_review_is_served (λ _, false) 4 rs ltac:(lia))
    as (store0 & store & H0 & _ & Hs & _ & Hl & _).
  exists store0, store. auto.
Defined.

Lemma code_review_request_witness :
  let store := GraphStore.save_graph GraphStore.empty "code_review"
                 code_review_graph in
  ∃ store' response,
    run_graph (λ _, false) 4 store "r1"
      {| GraphRunRequest.graph_id := "code_review";
         GraphRunRequest.initial_state := {[ "code" := VStr two_defs ]} |}
      = Some (store', inr response)
    ∧ GraphRunResponse.status response = "completed"
    ∧ GraphRunResponse.final_state response !! "function_count"
      = Some (VInt 2).
Proof.
  intros store.
  destruct (proj1 (code_review_request (λ _, false) 4 store "r1"
                     {[ "code" := VStr two_defs ]} ltac:(lia) eq_refl)
              two_defs eq_refl)
    as (store' & response & Hr & Hst & _ & Hc & _).
  { vm_compute. eauto. }
  exists store', response. split; [exact Hr |]. split; [exact Hst |].
  rewrite Hc. vm_compute. reflexivity.
Defined.

(** *** The run over shared objects *)

Section SharedFacts.

Import Shared.

Implicit Types (g : Shared.WorkflowGraph) (f : Shared.Frame) (h : Heap).
Implicit Types (node : Shared.WorkflowNode) (cur : string) (r : Ref).

Lemma copy_fresh h d : snd (copy h d) ∉ dom h.
Proof. apply is_fresh. Qed.

Lemma copy_lookup h d r :
  r ∈ dom h → fst (copy h d) !! r = h !! r.
Proof.
  intros Hr. unfold copy. simpl. apply lookup_insert_ne.
  intros Heq. subst r. exact (is_fresh (dom h) Hr).
Qed.

Lemma copy_dom h d : dom h ⊆ dom (fst (copy h d)).
Proof. unfold copy. simpl. apply dom_insert_subseteq. Qed.

Lemma dom_insert_here h r (o : Object) : r ∈ dom (<[r := o]> h).
Proof. apply elem_of_dom. rewrite lookup_insert_eq. eauto. Qed.

Lemma dom_insert_there h r r' (o : Object) :
  r' ∈ dom h → r' ∈ dom (<[r := o]> h).
Proof. apply dom_insert_subseteq. Qed.

Lemma dom_union_there (w h : Heap) : dom h ⊆ dom (w ∪ h).
Proof. rewrite dom_union. apply union_subseteq_r. Qed.

Lemma dict_at_insert h r d : dict_at (<[r := Dict d]> h) r = d.
Proof. unfold dict_at. rewrite lookup_insert_eq. reflexivity. Qed.

Lemma dict_at_insert_ne h r r' o :
  r ≠ r' → dict_at (<[r := o]> h) r' = dict_at h r'.
Proof. intros Hne. unfold dict_at. rewrite lookup_insert_ne by exact Hne. reflexivity. Qed.

Lemma dict_at_eq h h' r : h' !! r = h !! r → dict_at h' r = dict_at h r.
Proof. intros H. unfold dict_at. rewrite H. reflexivity. Qed.

(** The copy holds what the original holds, and the original holds what
    it held. *)
Lemma copy_content h d :
  dict_at (fst (copy h d)) (snd (copy h d)) = dict_at h d
  ∧ dict_at (fst (copy h d)) d = dict_at h d.
Proof.
  unfold copy. simpl. split; [apply dict_at_insert |].
  destruct (decide (fresh (dom h) = d)) as [-> | Hne].
  - apply dict_at_insert.
  - apply dict_at_insert_ne, Hne.
Qed.

Lemma kept_app cs1 cs2 r : kept (cs1 ++ cs2) r ↔ kept cs1 r ∧ kept cs2 r.
Proof.
  unfold kept. split.
  - intros H. split; intros w Hw; apply H, elem_of_app; auto.
  - intros [H1 H2] w Hw. apply elem_of_app in Hw as [Hw | Hw]; auto.
Qed.

Lemma kept_nil r : kept [] r.
Proof. intros w Hw. inversion Hw. Qed.

Lemma kept_one w r : kept [w] r ↔ w !! r = None.
Proof.
  unfold kept. split.
  - intros H. apply H, elem_of_cons. auto.
  - intros H w' Hw. apply elem_of_cons in Hw as [-> | Hw]; [exact H | inversion Hw].
Qed.

(** [follows] is a preorder, and every statement of the body goes from a
    frame to one that follows it. *)
Lemma follows_refl f : follows f f.
Proof.
  split; [reflexivity |]. split; [exists []; rewrite app_nil_r; reflexivity |].
  split; [reflexivity |]. exists []. rewrite app_nil_r. auto.
Qed.

Lemma follows_trans f1 f2 f3 : follows f1 f2 → follows f2 f3 → follows f1 f3.
Proof.
  intros (Hs1 & [es1 Hl1] & Hd1 & cs1 & Hc1 & Hk1)
         (Hs2 & [es2 Hl2] & Hd2 & cs2 & Hc2 & Hk2).
  split; [congruence |].
  split; [exists (es1 ++ es2)%list; rewrite Hl2, Hl1, app_assoc; reflexivity |].
  split; [etrans; eassumption |].
  exists (cs1 ++ cs2)%list. split; [rewrite Hc2, Hc1, app_assoc; reflexivity |].
  intros r Hr Hne Hk. apply kept_app in Hk as [Hk Hk'].
  rewrite Hk2; [apply Hk1; assumption | | congruence | exact Hk'].
  apply Hd1, Hr.
Qed.

(** A step that leaves the heap, [state] and the calls alone. *)
Lemma follows_same f1 f2 :
  heap f2 = heap f1 → state f2 = state f1 → calls f2 = calls f1 →
  (∃ entries, logs f2 = (logs f1 ++ entries)%list) →
  follows f1 f2.
Proof.
  intros Hh Hs Hc Hl. split; [exact Hs |]. split; [exact Hl |].
  split; [rewrite Hh; reflexivity |].
  exists []. rewrite app_nil_r. split; [exact Hc |].
  intros r _ _ _. rewrite Hh. reflexivity.
Qed.

Lemma logs_same (l1 l2 : list Shared.ExecutionLog) :
  l2 = l1 → ∃ entries, l2 = (l1 ++ entries)%list.
Proof. intros ->. exists []. rewrite app_nil_r. reflexivity. Qed.

Lemma follows_snapshot f : follows f (fst (snapshot f)).
Proof.
  unfold snapshot. simpl. split; [reflexivity |].
  split; [apply logs_same; reflexivity |].
  split; [apply copy_dom |].
  exists []. rewrite app_nil_r. split; [reflexivity |].
  intros r Hr _ _. apply copy_lookup, Hr.
Qed.

Lemma follows_called f written : follows f (called f written).
Proof.
  split; [reflexivity |]. split; [apply logs_same; reflexivity |].
  split; [apply dom_union_there |].
  exists [written]. split; [reflexivity |].
  intros r _ _ Hk. apply kept_one in Hk. simpl.
  apply lookup_union_r, Hk.
Qed.

Lemma follows_update f result :
  follows f (with_heap f (update (heap f) (state f) result)).
Proof.
  split; [reflexivity |]. split; [apply logs_same; reflexivity |].
  split; [apply dom_insert_subseteq |].
  exists []. rewrite app_nil_r. split; [reflexivity |].
  intros r _ Hne _. unfold update. simpl.
  apply lookup_insert_ne. congruence.
Qed.

Lemma follows_push_log f e : follows f (push_log f e).
Proof. apply follows_same; try reflexivity. exists [e]. reflexivity. Qed.

Lemma follows_push_visited f n : follows f (push_visited f n).
Proof. apply follows_same; try reflexivity. apply logs_same. reflexivity. Qed.

Lemma follows_with_current f c : follows f (with_current f c).
Proof. apply follows_same; try reflexivity. apply logs_same. reflexivity. Qed.

Lemma follows_with_counter f n k : follows f (with_counter f n k).
Proof. apply follows_same; try reflexivity. apply logs_same. reflexivity. Qed.

Lemma follows_push_warning f w : follows f (push_warning f w).
Proof. apply follows_same; try reflexivity. apply logs_same. reflexivity. Qed.

Lemma follows_count_attempt node f cur : follows f (count_attempt node f cur).
Proof.
  unfold count_attempt. destruct (is_loop _);
    [apply follows_with_counter | apply follows_refl].
Qed.

Lemma follows_entered node f cur : follows f (entered node f cur).
Proof.
  unfold entered.
  eapply follows_trans; [apply follows_push_visited |].
  eapply follows_trans; [apply follows_snapshot |].
  apply follows_count_attempt.
Qed.

Lemma follows_handler f cur input e :
  follows f (last_frame (handler f cur input e)).
Proof.
  unfold handler. simpl.
  eapply follows_trans; [apply follows_snapshot | apply follows_push_log].
Qed.

Lemma follows_collect_next (es : list Shared.WorkflowEdge) : ∀ f next_nodes,
  follows f (fst (collect_next es f next_nodes)).
Proof.
  induction es as [| e es IH]; intros f next_nodes; simpl.
  - apply follows_refl.
  - destruct (condition e) as [cond|]; [| apply IH].
    destruct (snd (cond (heap f) (state f))) as [msg | [|]]; simpl.
    + apply follows_called.
    + eapply follows_trans; [apply follows_called | apply IH].
    + eapply follows_trans; [apply follows_called | apply IH].
Qed.

Lemma follows_route g f cur input :
  follows f (last_frame (route g f cur input)).
Proof.
  unfold route.
  pose proof (follows_collect_next (outgoing_edges g cur) f []) as H.
  fold (_get_next_nodes g cur f) in H.
  destruct (snd (_get_next_nodes g cur f)) as [msg | [| n [| n' ns]]].
  - eapply follows_trans; [exact H | apply follows_handler].
  - destruct (_ && _); simpl.
    + eapply follows_trans; [exact H |].
      eapply follows_trans; [apply follows_push_warning |].
      apply follows_with_current.
    + eapply follows_trans; [exact H | apply follows_with_current].
  - simpl. eapply follows_trans; [exact H | apply follows_with_current].
  - simpl. eapply follows_trans; [exact H |].
    eapply follows_trans; [apply follows_push_warning |].
    apply follows_with_current.
Qed.

Lemma follows_invoke node f cur input :
  follows f (last_frame (invoke node f cur input)).
Proof.
  unfold invoke.
  destruct (snd (fn node (heap f) (state f))) as [msg | result].
  - eapply follows_trans; [apply follows_called | apply follows_handler].
  - simpl. eapply follows_trans; [apply follows_called |].
    eapply follows_trans; [apply follows_update |].
    eapply follows_trans; [apply follows_snapshot | apply follows_push_log].
Qed.

Lemma follows_continue_or_route g node f cur input :
  follows f (last_frame (continue_or_route g node f cur input)).
Proof.
  unfold continue_or_route.
  destruct (if is_loop (node_type node) then loop_condition node else None)
    as [cond|]; [| apply follows_route].
  destruct (snd (cond (heap f) (state f))) as [msg | [|]].
  - eapply follows_trans; [apply follows_called | apply follows_handler].
  - apply follows_called.
  - eapply follows_trans; [apply follows_called |].
    eapply follows_trans; [apply follows_with_counter | apply follows_route].
Qed.

(** A pass, whether it raises or not. *)
Lemma follows_body g f cur : follows f (last_frame (body g f cur)).
Proof.
  unfold body. destruct (nodes g !! cur) as [node|]; [| apply follows_refl].
  destruct (limit_exceeded node (entered node f cur) cur).
  - eapply follows_trans; [apply follows_entered | apply follows_handler].
  - pose proof (follows_invoke node (entered node f cur) cur
                  (snd (snapshot (push_visited f cur)))) as Hi.
    destruct (invoke node (entered node f cur) cur
                (snd (snapshot (push_visited f cur)))) as [f5 | f5 e].
    + eapply follows_trans; [apply follows_entered |].
      eapply follows_trans; [exact Hi | apply follows_continue_or_route].
    + eapply follows_trans; [apply follows_entered | exact Hi].
Qed.

Lemma follows_while_loop g : ∀ fuel f res,
  while_loop fuel g f = Some res → follows f (last_frame res).
Proof.
  induction fuel as [| fuel IH]; intros f res H; simpl in H.
  - destruct (truthy (current_node_id f)); [discriminate |].
    inversion H. apply follows_refl.
  - destruct (truthy (current_node_id f)) as [cur|];
      [| inversion H; apply follows_refl].
    pose proof (follows_body g f cur) as Hb.
    destruct (body g f cur) as [f1 | f1 e].
    + eapply follows_trans; [exact Hb | apply IH, H].
    + inversion H. exact Hb.
Qed.

Lemma follows_steps g n f f' : steps g n f f' → follows f f'.
Proof.
  induction 1 as [f | n f cur f1 f' _ Hbody _ IH]; [apply follows_refl |].
  pose proof (follows_body g f cur) as Hb. rewrite Hbody in Hb.
  eapply follows_trans; [exact Hb | exact IH].
Qed.

Lemma entered_fields node f cur :
  heap (entered node f cur) = fst (copy (heap f) (state f))
  ∧ state (entered node f cur) = state f
  ∧ logs (entered node f cur) = logs f
  ∧ visited_sequence (entered node f cur) = (visited_sequence f ++ [cur])%list
  ∧ current_node_id (entered node f cur) = current_node_id f
  ∧ warnings (entered node f cur) = warnings f
  ∧ calls (entered node f cur) = calls f
  ∧ loop_counter (entered node f cur)
    = if is_loop (node_type node)
      then <[cur := counter_get f cur + 1]> (loop_counter f)
      else loop_counter f.
Proof.
  unfold entered, count_attempt.
  destruct (is_loop (node_type node)); simpl; auto 10.
Qed.

(** From the call of the node function to the success entry. *)
Lemma follows_invoke_next node f cur input result :
  snd (fn node (heap f) (state f)) = inr result →
  let f3 := called f (fst (fn node (heap f) (state f))) in
  let f4 := with_heap f3 (update (heap f3) (state f3) result) in
  follows f (push_log (fst (snapshot f4))
               (success_entry cur input (snd (snapshot f4)))).
Proof.
  intros _ f3 f4.
  eapply follows_trans; [apply follows_called |].
  eapply follows_trans; [apply follows_update |].
  eapply follows_trans; [apply follows_snapshot | apply follows_push_log].
Qed.

End SharedFacts.

(** *** The engine of the first part is the run over the heap, for
    functions that work on the content of the state *)

Section Refinement.

Implicit Types (g : WorkflowGraph Shared.Value) (f : Shared.Frame).
Implicit Types (p : Frame Shared.Value) (node : WorkflowNode Shared.Value).
Implicit Types (cur : string) (input : nat).

(** A change of the heap that leaves the objects other than [state]
    alone changes nothing of what the log shows. *)
Lemma read_entries_stable f (h' : Shared.Heap) p :
  shows f p →
  (∀ r, r ∈ dom (Shared.heap f) → r ≠ Shared.state f →
        h' !! r = Shared.heap f !! r) →
  read_entry h' <$> Shared.logs f = logs p.
Proof.
  intros (_ & Hl & _ & _ & _ & _ & _ & Hsound) Hh. rewrite Hl.
  apply list_fmap_ext. intros i e Hi.
  destruct (Hsound e) as (Hi1 & Hi2 & Ho1 & Ho2);
    [eapply list_elem_of_lookup_2; exact Hi |].
  unfold read_entry. f_equal; apply dict_at_eq, Hh; assumption.
Qed.

Lemma shows_step f p f' p' (added : list Shared.ExecutionLog) :
  shows f p →
  Shared.state f' = Shared.state f →
  dom (Shared.heap f) ⊆ dom (Shared.heap f') →
  (∀ r, r ∈ dom (Shared.heap f) → r ≠ Shared.state f →
        Shared.heap f' !! r = Shared.heap f !! r) →
  state p' = Shared.dict_at (Shared.heap f') (Shared.state f') →
  Shared.logs f' = (Shared.logs f ++ added)%list →
  logs p' = (logs p ++ (read_entry (Shared.heap f') <$> added))%list →
  (∀ e, e ∈ added →
      Shared.input_state e ∈ dom (Shared.heap f')
      ∧ Shared.input_state e ≠ Shared.state f
      ∧ Shared.output_state e ∈ dom (Shared.heap f')
      ∧ Shared.output_state e ≠ Shared.state f) →
  visited_sequence p' = Shared.visited_sequence f' →
  current_node_id p' = Shared.current_node_id f' →
  loop_counter p' = Shared.loop_counter f' →
  warnings p' = Shared.warnings f' →
  shows f' p'.
Proof.
  intros Hsh Hs Hd Hh Hst Hl Hl0 Hadd Hv Hc Hk Hw.
  pose proof (read_entries_stable f (Shared.heap f') p Hsh Hh) as Hold.
  destruct Hsh as (_ & _ & _ & _ & _ & _ & Hsd & Hsound).
  split; [exact Hst |].
  split; [rewrite Hl, fmap_app, Hl0, Hold; reflexivity |].
  do 4 (split; [assumption |]).
  split; [rewrite Hs; apply Hd, Hsd |].
  intros e He. rewrite Hl in He. rewrite Hs.
  apply elem_of_app in He as [He | He]; [| apply Hadd, He].
  destruct (Hsound e He) as (H1 & H2 & H3 & H4). auto.
Qed.

Lemma pinned_step f f' input (content : gmap string Shared.Value) :
  pinned f input content →
  Shared.state f' = Shared.state f →
  dom (Shared.heap f) ⊆ dom (Shared.heap f') →
  (∀ r, r ∈ dom (Shared.heap f) → r ≠ Shared.state f →
        Shared.heap f' !! r = Shared.heap f !! r) →
  pinned f' input content.
Proof.
  intros (Hd & Hne & Hc) Hs Hdom Hh.
  split; [apply Hdom, Hd |]. split; [congruence |].
  rewrite <- Hc. apply dict_at_eq, Hh; assumption.
Qed.


Lemma shows_entered f p node cur :
  shows f p →
  shows (Shared.entered (lift_node node) f cur) (entered node p cur)
  ∧ pinned (Shared.entered (lift_node node) f cur)
      (snd (Shared.snapshot (Shared.push_visited f cur))) (state p).
Proof.
  intros Hsh.
  destruct (entered_fields (lift_node node) f cur)
    as (Hh & Hs & Hl & Hv & Hc & Hw & _ & Hk).
  pose proof Hsh as (Hst & _ & Hv0 & Hc0 & Hk0 & Hw0 & Hsd & _).
  assert (Hne : fresh (dom (Shared.heap f)) ≠ Shared.state f).
  { intros Heq. apply (is_fresh (dom (Shared.heap f))). rewrite Heq. exact Hsd. }
  split.
  - apply (shows_step f p _ _ []); try assumption.
    + rewrite Hh. apply copy_dom.
    + intros r Hr _. rewrite Hh. apply copy_lookup, Hr.
    + rewrite entered_state, Hst, Hh, Hs.
      symmetry. apply dict_at_eq, copy_lookup, Hsd.
    + rewrite Hl, app_nil_r. reflexivity.
    + rewrite entered_logs, app_nil_r. reflexivity.
    + intros e He. inversion He.
    + rewrite entered_visited, Hv, Hv0. reflexivity.
    + rewrite Hc, <- Hc0. unfold entered, count_attempt.
      destruct (is_loop _); reflexivity.
    + rewrite Hk. unfold entered, count_attempt, counter_get,
        Shared.counter_get. simpl.
      destruct (is_loop (node_type node)); simpl; rewrite Hk0; reflexivity.
    + rewrite entered_warnings, Hw, Hw0. reflexivity.
  - unfold pinned. rewrite Hh, Hs, Hst. simpl.
    split; [apply dom_insert_here |]. split; [exact Hne |].
    apply dict_at_insert.
Qed.

Lemma shows_handler f p cur input (content : gmap string Shared.Value) e :
  shows f p → pinned f input content →
  shows (Shared.last_frame (Shared.handler f cur input e))
    (last_frame (handler p cur content e)).
Proof.
  intros Hsh (Hid & Hine & Hic).
  pose proof Hsh as (Hst & _ & Hv0 & Hc0 & Hk0 & Hw0 & Hsd & _).
  assert (Hne : fresh (dom (Shared.heap f)) ≠ Shared.state f).
  { intros Heq. apply (is_fresh (dom (Shared.heap f))). rewrite Heq. exact Hsd. }
  unfold Shared.handler, handler. simpl.
  apply (shows_step f p _ _
           [Shared.error_entry cur input (fresh (dom (Shared.heap f)))
              (str_of e)]); simpl; try assumption; try reflexivity.
  - apply dom_insert_subseteq.
  - intros r Hr _. apply lookup_insert_ne. intros Heq. subst r.
    exact (is_fresh (dom (Shared.heap f)) Hr).
  - rewrite Hst. symmetry. apply dict_at_insert_ne, Hne.
  - unfold read_entry, error_entry. simpl. do 2 f_equal.
    f_equal.
    + rewrite <- Hic. symmetry. apply dict_at_insert_ne.
      intros Heq. rewrite <- Heq in Hid.
      exact (is_fresh (dom (Shared.heap f)) Hid).
    + rewrite dict_at_insert. exact Hst.
  - intros e' He'. apply elem_of_cons in He' as [-> | He']; [| inversion He'].
    simpl. split; [apply dom_insert_there, Hid |]. split; [exact Hine |].
    split; [apply dom_insert_here | exact Hne].
Qed.


Lemma shows_called_fn f p node cur :
  shows f p →
  let written := fst (lift_fn (fn node) (Shared.heap f) (Shared.state f)) in
  shows (Shared.called f written)
    (push_call (with_state p (fst (fn node (state p)))) cur)
  ∧ snd (lift_fn (fn node) (Shared.heap f) (Shared.state f))
    = snd (fn node (state p))
  ∧ ∀ input (content : gmap string Shared.Value),
      pinned f input content → pinned (Shared.called f written) input content.
Proof.
  intros Hsh written.
  pose proof Hsh as (Hst & _ & Hv0 & Hc0 & Hk0 & Hw0 & Hsd & _).
  assert (Hother : ∀ r, r ∈ dom (Shared.heap f) → r ≠ Shared.state f →
            Shared.heap (Shared.called f written) !! r = Shared.heap f !! r).
  { intros r _ Hne. simpl. apply lookup_union_r.
    apply lookup_singleton_ne. congruence. }
  split; [| split].
  - apply (shows_step f p _ _ []); simpl; try assumption; try reflexivity.
    + apply dom_union_there.
    + assert (Hl : (written ∪ Shared.heap f) !! Shared.state f
                   = Some (Shared.Dict (fst (fn node (state p))))).
      { apply lookup_union_Some_l. unfold written, lift_fn. simpl.
        rewrite Hst. apply lookup_singleton_eq. }
      unfold Shared.dict_at. rewrite Hl. reflexivity.
    + rewrite app_nil_r. reflexivity.
    + rewrite app_nil_r. reflexivity.
    + intros e He. inversion He.
  - unfold lift_fn. simpl. rewrite Hst. reflexivity.
  - intros input content Hp. apply (pinned_step f); try assumption.
    + reflexivity.
    + simpl. apply dom_union_there.
Qed.

Lemma shows_invoke f p node cur input (content : gmap string Shared.Value) :
  shows f p → pinned f input content →
  match Shared.invoke (lift_node node) f cur input,
        invoke node p cur content with
  | Shared.Next f', Next p' => shows f' p' ∧ pinned f' input content
  | Shared.Raise f' e', Raise p' e => e' = e ∧ shows f' p'
  | _, _ => False
  end.
Proof.
  intros Hsh Hpin.
  destruct (shows_called_fn f p node cur Hsh) as (Hsh3 & Hout & Hpin3).
  specialize (Hpin3 input content Hpin).
  unfold Shared.invoke, invoke.
  change (Shared.fn (lift_node node)) with (lift_fn (fn node)).
  rewrite Hout.
  destruct (fn node (state p)) as [mutated outcome] eqn:Hfn.
  simpl fst in *. simpl snd in *.
  set (f3 := Shared.called f _) in *.
  set (p3 := push_call (with_state p mutated) cur) in *.
  destruct outcome as [msg | result].
  - split; [reflexivity |].
    exact (shows_handler f3 p3 cur input content (UserExc msg) Hsh3 Hpin3).
  - pose proof Hsh3 as (Hst & _ & Hv0 & Hc0 & Hk0 & Hw0 & Hsd & _).
    destruct Hpin3 as (Hid & Hine & Hic).
    set (h4 := Shared.update (Shared.heap f3) (Shared.state f3) result).
    assert (Hs4 : Shared.state f3 ∈ dom h4).
    { unfold h4, Shared.update. apply elem_of_dom.
      rewrite lookup_insert_eq. eauto. }
    assert (Hne : fresh (dom h4) ≠ Shared.state f3).
    { intros Heq. apply (is_fresh (dom h4)). rewrite Heq. exact Hs4. }
    assert (Hd4 : dom (Shared.heap f3) ⊆ dom h4)
      by (unfold h4, Shared.update; apply dom_insert_subseteq).
    assert (Hother : ∀ r, r ∈ dom (Shared.heap f3) → r ≠ Shared.state f3 →
              <[fresh (dom h4) := Shared.Dict (Shared.dict_at h4 (Shared.state f3))]> h4 !! r
              = Shared.heap f3 !! r).
    { intros r Hr Hner. rewrite lookup_insert_ne.
      - unfold h4, Shared.update. apply lookup_insert_ne. congruence.
      - intros Heq. subst r. apply (is_fresh (dom h4)), Hd4, Hr. }
    assert (Hcontent : Shared.dict_at h4 (Shared.state f3) = result ∪ mutated).
    { unfold h4, Shared.update. rewrite dict_at_insert.
      rewrite <- Hst. reflexivity. }
    split.
    + apply (shows_step f3 p3 _ _
               [Shared.success_entry cur input (fresh (dom h4))]);
        simpl; try assumption; try reflexivity.
      * fold h4. etrans; [exact Hd4 | apply dom_insert_subseteq].
      * fold h4. rewrite dict_at_insert_ne by exact Hne.
        symmetry. exact Hcontent.
      * fold h4. unfold read_entry, success_entry. simpl. do 2 f_equal.
        f_equal.
        -- rewrite <- Hic. symmetry. apply dict_at_eq, Hother; assumption.
        -- rewrite dict_at_insert. symmetry. exact Hcontent.
      * fold h4. intros e He.
        apply elem_of_cons in He as [-> | He]; [| inversion He]. simpl.
        split; [apply dom_insert_there, Hd4, Hid |]. split; [exact Hine |].
        split; [apply dom_insert_here | exact Hne].
    + simpl. fold h4. split; [apply dom_insert_there, Hd4, Hid |]. split; [exact Hine |].
      rewrite <- Hic. apply dict_at_eq, Hother; assumption.
Qed.


(** Steps that change neither the heap nor the log. *)
Lemma shows_same f p f' p' :
  shows f p →
  Shared.heap f' = Shared.heap f → Shared.state f' = Shared.state f →
  Shared.logs f' = Shared.logs f →
  state p' = state p → logs p' = logs p →
  visited_sequence p' = Shared.visited_sequence f' →
  current_node_id p' = Shared.current_node_id f' →
  loop_counter p' = Shared.loop_counter f' →
  warnings p' = Shared.warnings f' →
  shows f' p'.
Proof.
  intros (Hst & Hl & _ & _ & _ & _ & Hsd & Hsound) Hh Hs Hlg Hst' Hl' Hv Hc Hk Hw.
  unfold shows. rewrite Hh, Hs, Hlg, Hst', Hl'. auto 10.
Qed.

Lemma pinned_same f f' input (content : gmap string Shared.Value) :
  pinned f input content →
  Shared.heap f' = Shared.heap f → Shared.state f' = Shared.state f →
  pinned f' input content.
Proof. intros Hp Hh Hs. unfold pinned. rewrite Hh, Hs. exact Hp. Qed.

Lemma shows_called_predicate f p (cond : gmap string Shared.Value → string + bool)
    input (content : gmap string Shared.Value) :
  shows f p → pinned f input content →
  let called := Shared.called f
                  (fst (lift_predicate cond (Shared.heap f) (Shared.state f))) in
  shows called p ∧ pinned called input content
  ∧ snd (lift_predicate cond (Shared.heap f) (Shared.state f))
    = cond (state p).
Proof.
  intros Hsh Hp. simpl.
  assert (Hh : (∅ : gmap nat Shared.Object) ∪ Shared.heap f = Shared.heap f)
    by apply map_empty_union.
  split; [| split].
  - apply (shows_same f p); simpl; try reflexivity; try assumption;
      apply Hsh.
  - apply (pinned_same f); [exact Hp | exact Hh | reflexivity].
  - destruct Hsh as (-> & _). reflexivity.
Qed.

Lemma shows_collect_next (es : list (WorkflowEdge Shared.Value)) :
  ∀ f p acc input (content : gmap string Shared.Value),
    shows f p → pinned f input content →
    shows (fst (Shared.collect_next (lift_edge <$> es) f acc)) p
    ∧ pinned (fst (Shared.collect_next (lift_edge <$> es) f acc)) input content
    ∧ snd (Shared.collect_next (lift_edge <$> es) f acc)
      = collect_next es (state p) acc.
Proof.
  induction es as [| e es IH]; intros f p acc input content Hsh Hp; simpl.
  - auto.
  - destruct (condition e) as [cond|]; simpl; [| apply IH; assumption].
    destruct (shows_called_predicate f p cond input content Hsh Hp)
      as (Hsh' & Hp' & Hout).
    simpl in Hout. rewrite Hout.
    destruct (cond (state p)) as [msg | [|]]; simpl.
    + auto.
    + apply IH; assumption.
    + apply IH; assumption.
Qed.

Lemma outgoing_edges_lift g cur :
  Shared.outgoing_edges (lift g) cur = lift_edge <$> outgoing_edges g cur.
Proof.
  unfold Shared.outgoing_edges, outgoing_edges, lift. simpl.
  induction (edges g) as [| e es IH]; [reflexivity |].
  rewrite fmap_cons. cbn [List.filter].
  change (Shared.from_node (lift_edge e)) with (from_node e).
  destruct (bool_decide (from_node e = cur));
    [rewrite fmap_cons; f_equal |]; exact IH.
Qed.

Lemma shows_route g f p cur input (content : gmap string Shared.Value) :
  shows f p → pinned f input content →
  match Shared.route (lift g) f cur input, route g p cur content with
  | Shared.Next f', Next p' => shows f' p'
  | Shared.Raise f' e', Raise p' e => e' = e ∧ shows f' p'
  | _, _ => False
  end.
Proof.
  intros Hsh Hp. unfold Shared.route, route, Shared._get_next_nodes,
    _get_next_nodes.
  rewrite outgoing_edges_lift.
  destruct (shows_collect_next (outgoing_edges g cur) f p [] input content
              Hsh Hp) as (Hsh' & Hp' & Hout).
  rewrite Hout. change (Shared.end_nodes (lift g)) with (end_nodes g).
  set (f1 := fst (Shared.collect_next _ f [])) in *.
  destruct (collect_next (outgoing_edges g cur) (state p) [])
    as [msg | [| n [| n' ns]]].
  - split; [reflexivity |].
    exact (shows_handler f1 p cur input content (UserExc msg) Hsh' Hp').
  - destruct (bool_decide (cur ∉ end_nodes g)
              && negb (bool_decide (end_nodes g = ∅)));
      apply (shows_same f1 p); simpl; try reflexivity; try assumption;
      try apply Hsh'.
    destruct Hsh' as (_ & _ & _ & _ & _ & -> & _). reflexivity.
  - apply (shows_same f1 p); simpl; try reflexivity; try assumption;
      apply Hsh'.
  - apply (shows_same f1 p); simpl; try reflexivity; try assumption;
      try apply Hsh'.
    destruct Hsh' as (_ & _ & _ & _ & _ & -> & _). reflexivity.
Qed.

Lemma shows_continue_or_route g f p node cur input
    (content : gmap string Shared.Value) :
  shows f p → pinned f input content →
  match Shared.continue_or_route (lift g) (lift_node node) f cur input,
        continue_or_route g node p cur content with
  | Shared.Next f', Next p' => shows f' p'
  | Shared.Raise f' e', Raise p' e => e' = e ∧ shows f' p'
  | _, _ => False
  end.
Proof.
  intros Hsh Hp. unfold Shared.continue_or_route, continue_or_route.
  change (Shared.node_type (lift_node node)) with (node_type node).
  change (Shared.loop_condition (lift_node node))
    with (lift_predicate <$> loop_condition node).
  destruct (is_loop (node_type node));
    [| apply shows_route; assumption].
  destruct (loop_condition node) as [cond|]; simpl;
    [| apply shows_route; assumption].
  destruct (shows_called_predicate f p cond input content Hsh Hp)
    as (Hsh' & Hp' & Hout).
  simpl in Hout. rewrite Hout.
  destruct (cond (state p)) as [msg | [|]].
  - split; [reflexivity |].
    exact (shows_handler _ p cur input content (UserExc msg) Hsh' Hp').
  - exact Hsh'.
  - apply shows_route.
    + apply (shows_same _ p _ _ Hsh'); simpl; try reflexivity; try apply Hsh'.
      destruct Hsh' as (_ & _ & _ & _ & -> & _). reflexivity.
    + apply (pinned_same _ _ _ _ Hp'); reflexivity.
Qed.

(** One pass of the engine of the first part is one pass over the
    heap. *)
Lemma shows_body g f p cur :
  shows f p →
  match Shared.body (lift g) f cur, body g p cur with
  | Shared.Next f', Next p' => shows f' p'
  | Shared.Raise f' e', Raise p' e => e' = e ∧ shows f' p'
  | _, _ => False
  end.
Proof.
  intros Hsh. unfold Shared.body, body.
  change (Shared.nodes (lift g)) with (lift_node <$> nodes g).
  rewrite lookup_fmap.
  destruct (nodes g !! cur) as [node|]; cbn [fmap option_fmap option_map];
    [| auto].
  destruct (shows_entered f p node cur Hsh) as [Hsh2 Hp2].
  fold (entered node p cur).
  assert (Hlim : Shared.limit_exceeded (lift_node node)
                   (Shared.entered (lift_node node) f cur) cur
                 = limit_exceeded node (entered node p cur) cur).
  { unfold Shared.limit_exceeded, limit_exceeded, Shared.counter_get,
      counter_get. simpl.
    destruct Hsh2 as (_ & _ & _ & _ & -> & _).
    destruct (loop_condition node); reflexivity. }
  rewrite Hlim.
  change (state (push_visited p cur)) with (state p).
  destruct (limit_exceeded node (entered node p cur) cur).
  - split; [reflexivity |].
    exact (shows_handler _ _ cur _ (state p) _ Hsh2 Hp2).
  - pose proof (shows_invoke _ _ node cur _ (state p) Hsh2 Hp2) as Hi.
    destruct (Shared.invoke (lift_node node)
                (Shared.entered (lift_node node) f cur) cur
                (snd (Shared.snapshot (Shared.push_visited f cur))))
      as [f5 | f5 e'];
      destruct (invoke node (entered node p cur) cur (state p))
        as [p5 | p5 e]; try contradiction.
    + destruct Hi as [Hsh5 Hp5].
      exact (shows_continue_or_route g f5 p5 node cur _ (state p) Hsh5 Hp5).
    + exact Hi.
Qed.

Lemma shows_while_loop g : ∀ fuel f p,
  shows f p →
  match Shared.while_loop fuel (lift g) f, while_loop fuel g p with
  | Some (Shared.Next f'), Some (Next p') => shows f' p'
  | Some (Shared.Raise f' e'), Some (Raise p' e) => e' = e ∧ shows f' p'
  | None, None => True
  | _, _ => False
  end.
Proof.
  induction fuel as [| fuel IH]; intros f p Hsh; simpl;
    pose proof Hsh as (_ & _ & _ & Hc & _); rewrite Hc.
  - destruct (truthy (Shared.current_node_id f)); [exact I | exact Hsh].
  - destruct (truthy (Shared.current_node_id f)) as [cur|]; [| exact Hsh].
    pose proof (shows_body g f p cur Hsh) as Hb.
    destruct (Shared.body (lift g) f cur) as [f1 | f1 e'];
      destruct (body g p cur) as [p1 | p1 e]; try contradiction.
    + apply IH, Hb.
    + exact Hb.
Qed.

(** [run] of the first part on the content of a dictionary is what the
    caller of [run] over the heap reads in what it receives. *)
Lemma run_refines g fuel (h : Shared.Heap) initial_state :
  read_outcome (Shared.run fuel (lift g) h initial_state)
  = run fuel g (Shared.dict_at h initial_state).
Proof.
  unfold Shared.run, run, Shared.run_frame, run_frame. simpl.
  destruct (truthy (start_node g)) as [s|]; [| reflexivity].
  assert (Hinit : shows (Shared.initial_frame (lift g) h initial_state)
                    (initial_frame g (Shared.dict_at h initial_state))).
  { unfold shows. simpl. rewrite dict_at_insert.
    repeat (split; [reflexivity |]).
    split; [apply dom_insert_here | intros e He; inversion He]. }
  pose proof (shows_while_loop g fuel _ _ Hinit) as Hw.
  destruct (Shared.while_loop fuel (lift g)
              (Shared.initial_frame (lift g) h initial_state))
    as [[f' | f' e'] |];
    destruct (while_loop fuel g
                (initial_frame g (Shared.dict_at h initial_state)))
      as [[p' | p' e] |];
    try contradiction; simpl.
  - destruct Hw as (Hst & Hl & _). rewrite Hst, Hl. reflexivity.
  - destruct Hw as [-> _]. reflexivity.
  - reflexivity.
Qed.

End Refinement.

(** *** The caller's dictionary *)

Section CallerFacts.

Import Shared.

Implicit Types (g : Shared.WorkflowGraph) (f : Shared.Frame) (h : Heap).

Lemma initial_frame_fields g h initial_state :
  let f := initial_frame g h initial_state in
  (state f ∉ dom h)
  ∧ state f ∈ dom (heap f)
  ∧ dict_at (heap f) (state f) = dict_at h initial_state
  ∧ dom h ⊆ dom (heap f)
  ∧ (∀ r, r ∈ dom h → heap f !! r = h !! r)
  ∧ calls f = [] ∧ logs f = [].
Proof.
  simpl. split; [apply is_fresh |]. split; [apply dom_insert_here |].
  split; [apply dict_at_insert |]. split; [apply dom_insert_subseteq |].
  split; [| auto]. intros r Hr. apply (copy_lookup h initial_state r Hr).
Qed.

(** What a run leaves of the objects that existed when it was called. *)
Lemma run_frame_keeps fuel g h initial_state res :
  run_frame fuel g h initial_state = Some res →
  dom h ⊆ dom (heap (last_frame res))
  ∧ ∀ r, r ∈ dom h → kept (calls (last_frame res)) r →
         heap (last_frame res) !! r = h !! r.
Proof.
  unfold run_frame. intros H.
  destruct (truthy (start_node g)) as [s|].
  2: { inversion H; subst res. simpl. auto. }
  destruct (initial_frame_fields g h initial_state)
    as (Hfresh & _ & _ & Hdom & Hsame & Hcalls & _).
  destruct (follows_while_loop g fuel _ res H)
    as (Hs & _ & Hd & cs & Hc & Hkeep).
  split; [etrans; eassumption |].
  intros r Hr Hk. rewrite Hc, Hcalls in Hk. simpl in Hk.
  rewrite Hkeep; [apply Hsame, Hr | apply Hdom, Hr | | exact Hk].
  intros Heq. apply Hfresh. rewrite <- Heq. exact Hr.
Qed.

Lemma setitem_other h d key value r :
  r ≠ d → (setitem h d key value ∪ h) !! r = h !! r.
Proof.
  intros Hne. apply lookup_union_r. unfold setitem.
  destruct (h !! d) as [[content | xs] |];
    [apply lookup_singleton_ne; congruence | apply lookup_empty ..].
Qed.

Lemma delitem_other h d key r :
  r ≠ d → (delitem h d key ∪ h) !! r = h !! r.
Proof.
  intros Hne. apply lookup_union_r. unfold delitem.
  destruct (h !! d) as [[content | xs] |];
    [apply lookup_singleton_ne; congruence | apply lookup_empty ..].
Qed.

End CallerFacts.

(** C6 (amended).  [run] works on a shallow copy of the caller's
    dictionary.  The run itself writes to no object that existed when
    it was called: the caller's dictionary, like every other object,
    holds after the run what it held before unless a call of a node
    function or of a condition wrote to it, whatever the functions
    return.  The loop starts with [state] bound to a new dictionary that
    holds the keys and the values of the caller's, and [state] is that
    object to the end, so that assigning to a key of the caller's
    dictionary, or deleting one, after the run leaves the final state as
    it is.  For functions that work on the content of the state, what
    the caller receives is what [run] of the first part computes from
    the content of its dictionary. *)
Theorem run_copies_shallowly fuel (g : Shared.WorkflowGraph)
    (h : Shared.Heap) (initial_state : nat) content res :
  h !! initial_state = Some (Shared.Dict content) →
  Shared.run_frame fuel g h initial_state = Some res →
  let f := Shared.last_frame res in
  (∀ r, r ∈ dom h → Shared.kept (Shared.calls f) r →
        Shared.heap f !! r = h !! r)
  ∧ (Shared.kept (Shared.calls f) initial_state →
       Shared.heap f !! initial_state = Some (Shared.Dict content))
  ∧ (is_Some (truthy (Shared.start_node g)) →
       Shared.state f = Shared.state (Shared.initial_frame g h initial_state)
       ∧ Shared.dict_at (Shared.heap (Shared.initial_frame g h initial_state))
           (Shared.state f) = content
       ∧ (Shared.state f ∉ dom h)
       ∧ Shared.state f ≠ initial_state
       ∧ (∀ key value,
            (Shared.setitem (Shared.heap f) initial_state key value
               ∪ Shared.heap f) !! Shared.state f
            = Shared.heap f !! Shared.state f)
       ∧ (∀ key,
            (Shared.delitem (Shared.heap f) initial_state key
               ∪ Shared.heap f) !! Shared.state f
            = Shared.heap f !! Shared.state f))
  ∧ ∀ g0, g = lift g0 →
      read_outcome (Shared.run fuel g h initial_state) = run fuel g0 content.
Proof.
  intros Hinit Hrun f. subst f.
  destruct (run_frame_keeps fuel g h initial_state res Hrun) as [Hdom Hkeep].
  assert (Hin : initial_state ∈ dom h) by (apply elem_of_dom; eauto).
  assert (Hcontent : Shared.dict_at h initial_state = content)
    by (unfold Shared.dict_at; rewrite Hinit; reflexivity).
  split; [exact Hkeep |].
  split; [intros Hk; rewrite (Hkeep _ Hin Hk); exact Hinit |].
  split.
  - intros [s Hs]. unfold Shared.run_frame in Hrun. rewrite Hs in Hrun.
    destruct (initial_frame_fields g h initial_state)
      as (Hfresh & _ & Hdict & _).
    destruct (follows_while_loop g fuel _ res Hrun) as (Hst & _).
    assert (Hne : Shared.state (Shared.last_frame res) ≠ initial_state).
    { rewrite Hst. intros Heq. apply Hfresh. rewrite Heq. exact Hin. }
    split; [exact Hst |].
    split; [rewrite Hst, Hdict; exact Hcontent |].
    split; [rewrite Hst; exact Hfresh |].
    split; [exact Hne |].
    split; [intros key value; apply setitem_other, Hne |].
    intros key. apply delitem_other, Hne.
  - intros g0 ->. rewrite run_refines, Hcontent. reflexivity.
Qed.

(** *** The log of the run over shared objects *)

Section LogFacts.

Import Shared.

Implicit Types (g : Shared.WorkflowGraph) (f : Shared.Frame) (h : Heap).
Implicit Types (node : Shared.WorkflowNode) (cur : string).

Lemma collect_next_fields (es : list Shared.WorkflowEdge) : ∀ f acc,
  logs (fst (collect_next es f acc)) = logs f
  ∧ visited_sequence (fst (collect_next es f acc)) = visited_sequence f.
Proof.
  induction es as [| e es IH]; intros f acc; simpl; [auto |].
  destruct (condition e) as [cond|]; [| apply IH].
  destruct (snd (cond (heap f) (state f))) as [msg | [|]]; simpl;
    [auto | apply (IH (called f _)) ..].
Qed.

Lemma route_next g f cur input f' :
  route g f cur input = Next f' →
  logs f' = logs f ∧ visited_sequence f' = visited_sequence f.
Proof.
  unfold route, _get_next_nodes. intros H.
  destruct (collect_next_fields (outgoing_edges g cur) f []) as [Hl Hv].
  destruct (snd (collect_next (outgoing_edges g cur) f []))
    as [msg | [| n [| n' ns]]]; [discriminate | | |].
  - destruct (_ && _); inversion H; subst f'; simpl; auto.
  - inversion H; subst f'; simpl; auto.
  - inversion H; subst f'; simpl; auto.
Qed.

Lemma continue_or_route_next g node f cur input f' :
  continue_or_route g node f cur input = Next f' →
  logs f' = logs f ∧ visited_sequence f' = visited_sequence f
  ∧ follows f f'.
Proof.
  intros H. pose proof (follows_continue_or_route g node f cur input) as Hf.
  rewrite H in Hf. simpl in Hf.
  split; [| split; [| exact Hf]]; unfold continue_or_route in H;
    (destruct (if is_loop (node_type node) then loop_condition node else None)
       as [cond|]; [| apply (route_next _ _ _ _ _ H)]);
    (destruct (snd (cond (heap f) (state f))) as [msg | [|]];
       [discriminate | inversion H; reflexivity
       | apply (route_next _ _ _ _ _ H)]).
Qed.

(** A pass that does not raise appends one entry, the entry of the
    pass. *)
Lemma pass_entry g f cur f1 :
  truthy (current_node_id f) = Some cur →
  body g f cur = Next f1 →
  state f ∈ dom (heap f) →
  ∃ e, logs f1 = (logs f ++ [e])%list
       ∧ visited_sequence f1 = (visited_sequence f ++ [cur])%list
       ∧ node_id e = cur
       ∧ state f1 = state f
       ∧ state f1 ∈ dom (heap f1)
       ∧ ∀ f', follows f1 f' → entry_of g f f' e.
Proof.
  intros Hcur Hbody Hsd.
  pose proof (follows_body g f cur) as Hfb. rewrite Hbody in Hfb.
  simpl in Hfb. unfold body in Hbody.
  destruct (nodes g !! cur) as [node|] eqn:Hn; [| discriminate].
  destruct (limit_exceeded node (entered node f cur) cur); [discriminate |].
  set (fe := entered node f cur) in *.
  set (input := snd (snapshot (push_visited f cur))) in *.
  destruct (entered_fields node f cur) as (Hhe & Hse & Hle & Hve & _ & _ & Hce & _).
  fold fe in Hhe, Hse, Hle, Hve, Hce.
  unfold invoke in Hbody.
  destruct (snd (fn node (heap fe) (state fe))) as [msg | result] eqn:Hout;
    [discriminate |].
  set (written := fst (fn node (heap fe) (state fe))) in *.
  set (f3 := called fe written) in *.
  set (h4 := update (heap f3) (state f3) result) in *.
  set (f4 := with_heap f3 h4) in *.
  set (output := snd (snapshot f4)) in *.
  set (f5 := push_log (fst (snapshot f4)) (success_entry cur input output)) in *.
  destruct (continue_or_route_next g node f5 cur input f1 Hbody)
    as (Hl1 & Hv1 & Hf51).
  exists (success_entry cur input output).
  split; [rewrite Hl1; simpl; rewrite Hle; reflexivity |].
  split; [rewrite Hv1; simpl; exact Hve |].
  split; [reflexivity |].
  destruct Hfb as (Hs1 & _ & Hd1 & _).
  split; [exact Hs1 |].
  split; [rewrite Hs1; apply Hd1, Hsd |].
  intros f' Hf'.
  exists cur, node, result. split; [exact Hcur |]. split; [exact Hn |].
  fold fe. cbv zeta.
  assert (Hw : fst (fn node (heap fe) (state f)) = written)
    by (unfold written; rewrite Hse; reflexivity).
  rewrite Hw.
  assert (Hin_fresh : input ∉ dom (heap f)) by apply is_fresh.
  assert (Hin_ne : input ≠ state f).
  { intros Heq. apply Hin_fresh. rewrite Heq. exact Hsd. }
  assert (Hin_fe : heap fe !! input
                   = Some (Dict (dict_at (heap f) (state f)))).
  { rewrite Hhe. unfold copy. simpl. apply lookup_insert_eq. }
  assert (Hh3 : heap f3 = written ∪ heap fe) by reflexivity.
  assert (Hs4 : state f3 ∈ dom h4) by apply dom_insert_here.
  assert (Hout_fresh : output ∉ dom h4) by apply is_fresh.
  assert (Hout_ne : output ≠ state f3).
  { intros Heq. apply Hout_fresh. rewrite Heq. exact Hs4. }
  assert (Hout_f5 : heap f5 !! output
                    = Some (Dict (result ∪ dict_at (written ∪ heap fe)
                                             (state fe)))).
  { simpl. unfold copy. simpl. rewrite lookup_insert_eq.
    unfold h4, update. rewrite dict_at_insert. reflexivity. }
  rewrite Hse in Hout_f5.
  split; [rewrite <- Hse; exact Hout |]. do 3 (split; [reflexivity |]).
  split; [exact Hin_fresh |].
  split; [unfold dict_at at 1; simpl; rewrite Hin_fe; reflexivity |].
  split.
  { simpl. intros Hd. apply Hout_fresh. unfold h4, update.
    apply dom_insert_there. exact Hd. }
  split.
  - intros Hk.
    assert (Hfe' : follows fe f').
    { eapply follows_trans; [| exact Hf'].
      eapply follows_trans; [| exact Hf51].
      apply (follows_invoke_next node fe cur input result Hout). }
    destruct Hfe' as (_ & _ & _ & cs & Hc & Hkeep).
    rewrite Hc, Hce, drop_app_length in Hk.
    unfold dict_at at 1. simpl.
    rewrite Hkeep; [rewrite Hin_fe; reflexivity | | | exact Hk].
    + apply elem_of_dom. rewrite Hin_fe. eauto.
    + rewrite Hse. exact Hin_ne.
  - intros Hk.
    assert (Hf5' : follows f5 f') by (eapply follows_trans; eassumption).
    destruct Hf5' as (_ & _ & _ & cs & Hc & Hkeep).
    assert (Hc5 : calls f5 = (calls f ++ [written])%list)
      by (simpl; rewrite Hce; reflexivity).
    rewrite Hc, Hc5 in Hk.
    replace (S (List.length (calls f)))
      with (List.length (calls f ++ [written])) in Hk
      by (rewrite length_app; simpl; lia).
    rewrite drop_app_length in Hk.
    unfold dict_at at 1. simpl.
    rewrite Hkeep; [rewrite Hout_f5; reflexivity | | | exact Hk].
    + apply elem_of_dom. rewrite Hout_f5. eauto.
    + exact Hout_ne.
Qed.

End LogFacts.

Section MoreLogFacts.

Import Shared.

Implicit Types (g : Shared.WorkflowGraph) (f : Shared.Frame) (h : Heap).
Implicit Types (node : Shared.WorkflowNode) (cur : string).

Lemma steps_entries g n f f' :
  steps g n f f' → state f ∈ dom (heap f) →
  ∃ entries,
    logs f' = (logs f ++ entries)%list
    ∧ List.length entries = n
    ∧ visited_sequence f' = (visited_sequence f ++ (node_id <$> entries))%list
    ∧ ∀ i e, entries !! i = Some e →
        ∃ fi, steps g i f fi
              ∧ logs fi = (logs f ++ take i entries)%list
              ∧ entry_of g fi f' e.
Proof.
  induction 1 as [f | n f cur f1 f' Hcur Hbody Hsteps IH]; intros Hsd.
  - exists []. rewrite !app_nil_r. do 3 (split; [reflexivity |]).
    intros i e Hi. destruct i; discriminate.
  - destruct (pass_entry g f cur f1 Hcur Hbody Hsd)
      as (e0 & Hl1 & Hv1 & Hid & _ & Hsd1 & Hentry).
    destruct (IH Hsd1) as (entries & Hl & Hlen & Hv & Hall).
    exists (e0 :: entries).
    split; [rewrite Hl, Hl1, <- app_assoc; reflexivity |].
    split; [simpl; congruence |].
    split; [rewrite Hv, Hv1, <- app_assoc, fmap_cons, Hid; reflexivity |].
    intros [| i] e Hi; simpl in Hi.
    + inversion Hi; subst e. exists f.
      split; [constructor |]. split; [rewrite app_nil_r; reflexivity |].
      apply Hentry, (follows_steps g n), Hsteps.
    + destruct (Hall i e Hi) as (fi & Hsi & Hli & He).
      exists fi. split; [eapply steps_S; eassumption |].
      split; [| exact He].
      rewrite Hli, Hl1, <- app_assoc. reflexivity.
Qed.

(** *** The keys of the state *)

Lemma keys_snapshot f :
  dict_at (heap (fst (snapshot f))) (state f) = dict_at (heap f) (state f).
Proof. apply copy_content. Qed.

Lemma keys_handler g f cur input e :
  dom (dict_at (heap f) (state f))
  ⊆ dom (dict_at (heap (last_frame (handler f cur input e)))
           (state (last_frame (handler f cur input e)))).
Proof.
  unfold handler, last_frame, push_log, snapshot, with_heap.
  cbn [heap state fst snd].
  rewrite (proj2 (copy_content _ _)). reflexivity.
Qed.

Lemma keys_collect_next g (es : list Shared.WorkflowEdge) :
  keeps_keys g → (∀ e, In e es → In e (edges g)) →
  ∀ f acc,
    state (fst (collect_next es f acc)) = state f
    ∧ dom (dict_at (heap f) (state f))
      ⊆ dom (dict_at (heap (fst (collect_next es f acc))) (state f)).
Proof.
  intros (_ & _ & Hk) Hin. induction es as [| e es IH]; intros f acc; simpl.
  - split; reflexivity.
  - assert (Hes : ∀ e', In e' es → In e' (edges g))
      by (intros e' He'; apply Hin; right; exact He').
    destruct (condition e) as [cond|] eqn:Hc; [| apply IH, Hes].
    pose proof (Hk e cond (heap f) (state f) (Hin e (or_introl eq_refl)) Hc)
      as Hkeys.
    destruct (snd (cond (heap f) (state f))) as [msg | [|]]; simpl.
    + split; [reflexivity | exact Hkeys].
    + destruct (IH Hes (called f (fst (cond (heap f) (state f))))
                  (acc ++ [to_node e])%list) as [Hs Hd].
      split; [exact Hs |]. etrans; [exact Hkeys | exact Hd].
    + destruct (IH Hes (called f (fst (cond (heap f) (state f)))) acc)
        as [Hs Hd].
      split; [exact Hs |]. etrans; [exact Hkeys | exact Hd].
Qed.

Lemma keys_route g f cur input :
  keeps_keys g →
  dom (dict_at (heap f) (state f))
  ⊆ dom (dict_at (heap (last_frame (route g f cur input)))
           (state (last_frame (route g f cur input)))).
Proof.
  intros Hk. unfold route, _get_next_nodes.
  destruct (keys_collect_next g (outgoing_edges g cur) Hk) with (f := f)
    (acc := @nil string) as [Hs Hd].
  { intros e He. unfold outgoing_edges in He.
    apply filter_In in He. apply He. }
  set (f1 := fst (collect_next (outgoing_edges g cur) f [])) in *.
  destruct (snd (collect_next (outgoing_edges g cur) f []))
    as [msg | [| n [| n' ns]]].
  - etrans; [exact Hd |]. rewrite <- Hs. apply (keys_handler g).
  - destruct (_ && _); simpl; rewrite Hs; exact Hd.
  - simpl. rewrite Hs. exact Hd.
  - simpl. rewrite Hs. exact Hd.
Qed.

Lemma keys_body g f cur :
  keeps_keys g →
  dom (dict_at (heap f) (state f))
  ⊆ dom (dict_at (heap (last_frame (body g f cur)))
           (state (last_frame (body g f cur)))).
Proof.
  intros Hk. unfold body.
  destruct (nodes g !! cur) as [node|] eqn:Hn; [| reflexivity].
  destruct (entered_fields node f cur) as (Hhe & Hse & _).
  set (fe := entered node f cur) in *.
  assert (Hfe : dict_at (heap fe) (state fe) = dict_at (heap f) (state f)).
  { rewrite Hhe, Hse. apply copy_content. }
  rewrite <- Hfe.
  destruct (limit_exceeded node fe cur); [apply (keys_handler g) |].
  unfold invoke.
  pose proof Hk as (Hkf & Hkl & _).
  pose proof (Hkf cur node (heap fe) (state fe) Hn) as Hcall.
  set (written := fst (fn node (heap fe) (state fe))) in *.
  destruct (snd (fn node (heap fe) (state fe))) as [msg | result].
  - etrans; [exact Hcall |]. apply (keys_handler g (called fe written)).
  - set (f3 := called fe written).
    set (f4 := with_heap f3 (update (heap f3) (state f3) result)).
    set (f5 := push_log (fst (snapshot f4))
                 (success_entry cur (snd (snapshot (push_visited f cur)))
                    (snd (snapshot f4)))).
    assert (H5 : dom (dict_at (heap fe) (state fe))
                 ⊆ dom (dict_at (heap f5) (state f5))).
    { etrans; [exact Hcall |].
      unfold f5, f4, f3, push_log, snapshot, with_heap, called.
      cbn [heap state fst snd].
      rewrite (proj2 (copy_content _ _)). unfold update.
      rewrite dict_at_insert, dom_union. apply union_subseteq_r. }
    etrans; [exact H5 |].
    unfold continue_or_route.
    destruct (is_loop (node_type node)); [| apply keys_route, Hk].
    destruct (loop_condition node) as [cond|] eqn:Hc;
      [| apply keys_route, Hk].
    pose proof (Hkl cur node cond (heap f5) (state f5) Hn Hc) as Hcond.
    destruct (snd (cond (heap f5) (state f5))) as [msg | [|]].
    + etrans; [exact Hcond |].
      apply (keys_handler g (called f5 (fst (cond (heap f5) (state f5))))).
    + exact Hcond.
    + etrans; [exact Hcond |].
      apply (keys_route g (with_counter (called f5 _) cur 0)), Hk.
Qed.

Lemma keys_while_loop g : keeps_keys g → ∀ fuel f res,
  while_loop fuel g f = Some res →
  dom (dict_at (heap f) (state f))
  ⊆ dom (dict_at (heap (last_frame res)) (state (last_frame res))).
Proof.
  intros Hk. induction fuel as [| fuel IH]; intros f res H; simpl in H.
  - destruct (truthy (current_node_id f)); [discriminate |].
    inversion H. reflexivity.
  - destruct (truthy (current_node_id f)) as [cur|];
      [| inversion H; reflexivity].
    pose proof (keys_body g f cur Hk) as Hb.
    destruct (body g f cur) as [f1 | f1 e].
    + etrans; [exact Hb | apply IH, H].
    + inversion H. exact Hb.
Qed.

End MoreLogFacts.

(** C5 (amended).  In a run over shared objects, passes that do not
    raise append exactly one entry each, in the order of the visits: after
    [n] such passes the log has [n] entries, whose nodes are the nodes
    visited, and at the pass number [i + 1] the log was made of the first
    [i] of them, which are still there.  The entry of a pass has status
    success; its input state is a new dictionary, a shallow copy of
    [state] taken before the node function is called, and its output
    state a new dictionary, a shallow copy of [state] taken after the
    returned mapping was merged into the state as the call left it, the
    keys of the mapping winning.  The run writes to neither of them
    afterwards: they hold this content as long as no call of a node
    function or of a condition writes to them; the values they hold are
    shared with the state. *)
Theorem one_success_entry_per_pass (g : Shared.WorkflowGraph)
    (h : Shared.Heap) (initial_state : nat) n f' :
  Shared.reached g h initial_state n f' →
  List.length (Shared.logs f') = n
  ∧ Shared.visited_sequence f' = Shared.node_id <$> Shared.logs f'
  ∧ ∀ i e, Shared.logs f' !! i = Some e →
      ∃ fi, Shared.reached g h initial_state i fi
            ∧ Shared.logs fi = take i (Shared.logs f')
            ∧ Shared.entry_of g fi f' e.
Proof.
  intros [Hstart Hsteps].
  destruct (initial_frame_fields g h initial_state)
    as (_ & Hsd & _ & _ & _ & _ & Hl0).
  destruct (steps_entries g n _ f' Hsteps Hsd)
    as (entries & Hl & Hlen & Hv & Hall).
  simpl in Hl, Hv. subst n. rewrite Hl.
  split; [reflexivity |]. split; [exact Hv |].
  intros i e Hi. destruct (Hall i e Hi) as (fi & Hsi & Hli & He).
  exists fi. split; [split; assumption |]. split; [exact Hli | exact He].
Qed.

(** X9.  The engine removes no key from the state: when no node function
    and no condition removes a key from the dictionary it is given,
    every key of the caller's dictionary is a key of the state the run
    returns. *)
Theorem run_keeps_every_key (g : Shared.WorkflowGraph) fuel
    (h h' : Shared.Heap) (initial_state final : nat) log :
  Shared.keeps_keys g →
  Shared.run fuel g h initial_state = Some (h', inr (final, log)) →
  dom (Shared.dict_at h initial_state) ⊆ dom (Shared.dict_at h' final).
Proof.
  intros Hk Hrun. unfold Shared.run, Shared.run_frame in Hrun.
  destruct (truthy (Shared.start_node g)) as [s|]; [| discriminate].
  destruct (Shared.while_loop fuel g
              (Shared.initial_frame g h initial_state))
    as [[f | f e] |] eqn:Hw; inversion Hrun; subst; clear Hrun.
  pose proof (keys_while_loop g Hk fuel _ _ Hw) as Hd. simpl in Hd.
  rewrite dict_at_insert in Hd. exact Hd.
Qed.

(** *** The run over shared objects on concrete graphs *)

Lemma shared_advance_steps (g : Shared.WorkflowGraph) n : ∀ f,
  Shared.advances n g f = true → Shared.steps g n f (Shared.advance n g f).
Proof.
  induction n as [| n IH]; intros f H; simpl in *.
  - constructor.
  - destruct (truthy (Shared.current_node_id f)) as [cur|] eqn:Hcur;
      [| discriminate].
    destruct (Shared.body g f cur) as [f' | f' e] eqn:Hbody; [| discriminate].
    eapply Shared.steps_S; [exact Hcur | exact Hbody | apply IH, H].
Qed.

(** C5 as stated fails.  Both nodes of [graph_appending] write the key
    [touched] into the state they are given, append to the list the
    state holds under [items], and return an empty mapping.  The output
    state of the first entry holds [touched], which the input state
    merged with the returned mapping does not; its input state shows
    the list with the element appended, where the state before the node
    ran showed it empty; and after the second pass the same entry shows
    the list with two elements. *)
Lemma logged_states_share_their_values :
  let g := graph_appending in
  let f0 := Shared.initial_frame g heap_items 0 in
  let f1 := Shared.advance 1 g f0 in
  let f2 := Shared.advance 2 g f0 in
  ∃ e,
    Shared.logs f1 = [e] ∧ Shared.logs f2 !! 0%nat = Some e
    ∧ Shared.node_id e = "a" ∧ Shared.status e = "success"
    ∧ snd (touch_and_append (Shared.heap (Shared.entered
                                            (shared_node "a" touch_and_append)
                                            f0 "a"))
             (Shared.state f0)) = inr ∅
    ∧ Shared.dict_at (Shared.heap f1) (Shared.output_state e) !! "touched"
      = Some (Shared.Plain (VBool true))
    ∧ ((∅ : gmap string Shared.Value)
         ∪ Shared.dict_at (Shared.heap f1) (Shared.input_state e)) !! "touched"
      = None
    ∧ Shared.list_at (Shared.heap f0) (Shared.state f0) "items" = Some []
    ∧ Shared.list_at (Shared.heap f1) (Shared.input_state e) "items"
      = Some [Shared.Plain (VInt 1)]
    ∧ Shared.list_at (Shared.heap f2) (Shared.input_state e) "items"
      = Some [Shared.Plain (VInt 1); Shared.Plain (VInt 1)].
Proof.
  eexists. split; [vm_compute; reflexivity |].
  repeat split; vm_compute; reflexivity.
Qed.

Lemma one_success_entry_per_pass_witness :
  let g := graph_appending in
  let f2 := Shared.advance 2 g (Shared.initial_frame g heap_items 0) in
  List.length (Shared.logs f2) = 2%nat
  ∧ Shared.visited_sequence f2 = Shared.node_id <$> Shared.logs f2
  ∧ ∀ i e, Shared.logs f2 !! i = Some e →
      ∃ fi, Shared.reached g heap_items 0 i fi
            ∧ Shared.logs fi = take i (Shared.logs f2)
            ∧ Shared.entry_of g fi f2 e.
Proof.
  apply (one_success_entry_per_pass graph_appending heap_items 0 2).
  split; [simpl; eauto |].
  apply shared_advance_steps. vm_compute. reflexivity.
Defined.

(** C6 as stated fails.  After the run of [graph_appending] on the
    caller's dictionary [{"items": []}], the caller's dictionary shows
    the list with two elements; and when the caller then appends to the
    list of its dictionary, the final state the run returned shows the
    new element too. *)
Lemma run_shares_values_with_caller :
  ∃ h' final lg,
    Shared.run 2 graph_appending heap_items 0 = Some (h', inr (final, lg))
    ∧ Shared.list_at heap_items 0 "items" = Some []
    ∧ Shared.list_at h' 0 "items"
      = Some [Shared.Plain (VInt 1); Shared.Plain (VInt 1)]
    ∧ Shared.dict_at h' 0 !! "items" = Some (Shared.At 1)
    ∧ Shared.list_at h' final "items"
      = Some [Shared.Plain (VInt 1); Shared.Plain (VInt 1)]
    ∧ Shared.list_at (Shared.append h' 1 (Shared.Plain (VInt 2)) ∪ h')
        final "items"
      = Some [Shared.Plain (VInt 1); Shared.Plain (VInt 1);
              Shared.Plain (VInt 2)].
Proof.
  eexists _, _, _. split; [vm_compute; reflexivity |].
  repeat split; vm_compute; reflexivity.
Qed.

Lemma run_copies_shallowly_witness :
  ∃ res,
    Shared.run_frame 2 graph_appending heap_items 0 = Some res
    ∧ Shared.heap (Shared.last_frame res) !! 0%nat
      = Some (Shared.Dict {[ "items" := Shared.At 1 ]})
    ∧ Shared.state (Shared.last_frame res) ≠ 0%nat
    ∧ Shared.dict_at (Shared.heap (Shared.initial_frame graph_appending
                                     heap_items 0))
        (Shared.state (Shared.last_frame res))
      = {[ "items" := Shared.At 1 ]}.
Proof.
  destruct (Shared.run_frame 2 graph_appending heap_items 0) as [res|] eqn:Hr;
    [| vm_compute in Hr; discriminate].
  exists res. split; [reflexivity |].
  destruct (run_copies_shallowly 2 graph_appending heap_items 0
              {[ "items" := Shared.At 1 ]} res eq_refl Hr)
    as (_ & Hcaller & Hstate & _).
  destruct Hstate as (_ & Hcontent & _ & Hne & _); [simpl; eauto |].
  split; [| split; [exact Hne | exact Hcontent]].
  apply Hcaller. intros written Hw.
  vm_compute in Hr. inversion Hr; subst res; clear Hr.
  cbn [Shared.last_frame Shared.calls] in Hw.
  apply elem_of_cons in Hw as [-> | Hw]; [vm_compute; reflexivity |].
  apply elem_of_cons in Hw as [-> | Hw]; [vm_compute; reflexivity |].
  inversion Hw.
Defined.

Lemma graph_reading_keeps_keys : Shared.keeps_keys graph_reading.
Proof.
  split; [| split].
  - intros n node h s Hn. unfold graph_reading in Hn. simpl in Hn.
    apply lookup_singleton_Some in Hn as [_ <-]. simpl.
    rewrite map_empty_union. reflexivity.
  - intros n node cond h s Hn Hc. unfold graph_reading in Hn. simpl in Hn.
    apply lookup_singleton_Some in Hn as [_ <-]. discriminate.
  - intros e cond h s [].
Qed.

Lemma run_keeps_every_key_witness :
  ∃ h' final log,
    Shared.run 1 graph_reading heap_items 0 = Some (h', inr (final, log))
    ∧ dom (Shared.dict_at heap_items 0) ⊆ dom (Shared.dict_at h' final).
Proof.
  eexists _, _, _. split; [vm_compute; reflexivity |].
  eapply (run_keeps_every_key graph_reading 1 heap_items _ 0 _ _
            graph_reading_keeps_keys).
  vm_compute. reflexivity.
Defined.

(** A condition that removes a key: the loop condition
    [lambda s: s.pop("again", False)] is true once on [{"again": True}],
    and the run returns a state without the key, though no node function
    wrote anything. *)
Example condition_removes_a_key :
  ∃ h' final log,
    Shared.run 2 graph_popping heap_again 0 = Some (h', inr (final, log))
    ∧ Shared.dict_at heap_again 0 !! "again"
      = Some (Shared.Plain (VBool true))
    ∧ Shared.dict_at h' final = ∅
    ∧ Shared.node_id <$> log = ["l"; "l"].
Proof.
  eexists _, _, _. split; [vm_compute; reflexivity |].
  repeat split; vm_compute; reflexivity.
Qed.

(** *** What a raising pass leaves, and where a pass goes on *)

Section PassFacts.

Context {V : Type}.

Implicit Types (g : WorkflowGraph V) (f : Frame V) (node : WorkflowNode V).
Implicit Types (cur : string).

(** When a node function, a loop condition or an edge condition raises
    during a run, the pass appends an entry for the node with status
    error and the raised message: directly after the log of before when
    the node function raised, and after the success entry of the node
    when a condition raised.  The run stops there, with this entry as
    the last of its log, and lets the exception out. *)
Lemma error_entry_then_reraise g initial_state n f cur msg :
  reached g initial_state n f →
  truthy (current_node_id f) = Some cur →
  raises_at g f cur msg →
  ∃ f' node mutated outcome,
    nodes g !! cur = Some node
    ∧ fn node (state f) = (mutated, outcome)
    ∧ body g f cur = Raise f' (UserExc msg)
    ∧ logs f'
      = (logs f
         ++ match outcome with
            | inl _ => []
            | inr result => [success_entry cur (state f) (result ∪ mutated)]
            end
         ++ [error_entry cur (state f) (state f') msg])%list
    ∧ (∀ m, outcome = inl m → m = msg)
    ∧ ∀ k, run_frame (n + S k) g initial_state = Some (Raise f' (UserExc msg))
           ∧ run (n + S k) g initial_state = Some (inl (UserExc msg)).
Proof.
  intros Hreach Hcur (node & Hn & Hl & H).
  assert (Hbody : ∃ f' mutated outcome,
            fn node (state f) = (mutated, outcome)
            ∧ body g f cur = Raise f' (UserExc msg)
            ∧ logs f'
              = (logs f
                 ++ match outcome with
                    | inl _ => []
                    | inr result =>
                        [success_entry cur (state f) (result ∪ mutated)]
                    end
                 ++ [error_entry cur (state f) (state f') msg])%list
            ∧ (∀ m, outcome = inl m → m = msg)).
  { rewrite (body_unfold _ _ _ _ Hn), Hl.
    destruct (fn node (state f)) as [mutated [m | result]] eqn:Hf.
    - subst m. rewrite (invoke_raises _ _ _ _ mutated msg)
        by (rewrite entered_state; exact Hf).
      eexists _, mutated, (inl msg). split; [reflexivity |].
      split; [reflexivity |]. simpl. rewrite entered_logs.
      split; [reflexivity |]. intros m Hm. congruence.
    - rewrite (invoke_returns _ _ _ _ mutated result)
        by (rewrite entered_state; exact Hf).
      assert (Hroute : ∀ fr,
                state fr = result ∪ mutated →
                logs fr = (logs f ++ [success_entry cur (state f)
                                        (result ∪ mutated)])%list →
                _get_next_nodes g cur (result ∪ mutated) = inl msg →
                ∃ f', route g fr cur (state f) = Raise f' (UserExc msg)
                      ∧ logs f'
                        = (logs f
                           ++ [success_entry cur (state f) (result ∪ mutated)]
                           ++ [error_entry cur (state f) (state f') msg])%list).
      { intros fr Hs Hlg Hg. rewrite (route_raises _ _ _ _ msg)
          by (rewrite Hs; exact Hg).
        eexists. split; [reflexivity |]. simpl.
        rewrite Hlg, <- app_assoc. reflexivity. }
      unfold continue_or_route. simpl state at 1.
      destruct (if is_loop (node_type node) then loop_condition node else None)
        as [cond|].
      + simpl state at 1.
        destruct (cond (result ∪ mutated)) as [m | [|]]; [subst m | tauto |].
        * unfold handler. eexists _, mutated, (inr result).
          split; [reflexivity |]. split; [reflexivity |]. simpl.
          rewrite entered_logs, <- app_assoc.
          split; [reflexivity | discriminate].
        * destruct (Hroute (with_counter
                              (push_log
                                 (with_state
                                    (push_call (with_state (entered node f cur)
                                                  mutated) cur)
                                    (result ∪ mutated))
                                 (success_entry cur (state f) (result ∪ mutated)))
                              cur 0)) as (f' & Hr & Hlg);
            [reflexivity | simpl; rewrite entered_logs; reflexivity | exact H |].
          exists f', mutated, (inr result).
          split; [reflexivity |]. split; [exact Hr |].
          split; [exact Hlg | discriminate].
      + destruct (Hroute (push_log
                            (with_state
                               (push_call (with_state (entered node f cur)
                                             mutated) cur)
                               (result ∪ mutated))
                            (success_entry cur (state f) (result ∪ mutated))))
          as (f' & Hr & Hlg);
          [reflexivity | simpl; rewrite entered_logs; reflexivity | exact H |].
        exists f', mutated, (inr result).
        split; [reflexivity |]. split; [exact Hr |].
        split; [exact Hlg | discriminate]. }
  destruct Hbody as (f' & mutated & outcome & Hf & Hbody & Hlogs & Hm).
  exists f', node, mutated, outcome.
  do 5 (split; [assumption |]). intros k.
  pose proof (run_frame_raise _ _ _ _ _ _ _ k Hreach Hcur Hbody) as Hrun.
  split; [exact Hrun |]. unfold run. rewrite Hrun. reflexivity.
Qed.

(** The eligible destinations of a node are those of the edges of the
    graph, scanned in the order they were added, that leave the node and
    have no condition or a condition true on the state; a pass that
    reaches the edges makes the first of them the current node, whatever
    else the frame holds.  When its id is not the empty string the next
    pass of the run is at that node; when it is, the run returns. *)
Lemma pass_follows_first_eligible_edge g initial_state k f cur node
    mutated result :
  reached g initial_state k f →
  truthy (current_node_id f) = Some cur →
  nodes g !! cur = Some node →
  limit_exceeded node (entered node f cur) cur = false →
  fn node (state f) = (mutated, inr result) →
  leaves_loop node (result ∪ mutated) →
  conditions_evaluate (result ∪ mutated) (outgoing_edges g cur) →
  let next_nodes :=
    to_node <$>
      List.filter (eligible (result ∪ mutated))
        (List.filter (λ e, bool_decide (from_node e = cur)) (edges g)) in
  _get_next_nodes g cur (result ∪ mutated) = inr next_nodes
  ∧ ∃ f', body g f cur = Next f'
          ∧ current_node_id f' = head next_nodes
          ∧ state f' = result ∪ mutated
          ∧ reached g initial_state (S k) f'
          ∧ ∀ d, head next_nodes = Some d →
              (d ≠ EmptyString →
                 ∀ j, run_frame (S k + S j) g initial_state
                      = match body g f' d with
                        | Next f2 => while_loop j g f2
                        | Raise f2 e => Some (Raise f2 e)
                        end)
              ∧ (d = EmptyString →
                   ∀ j, run_frame (S k + j) g initial_state = Some (Next f')).
Proof.
  intros Hreach Hcur Hn Hlim Hf Hleave Hev next_nodes.
  assert (Hnext : _get_next_nodes g cur (result ∪ mutated) = inr next_nodes)
    by (unfold _get_next_nodes; rewrite (collect_next_eligible _ _ _ Hev);
        reflexivity).
  split; [exact Hnext |].
  assert (Hroute : ∀ fr, state fr = result ∪ mutated →
            ∃ f', route g fr cur (state f) = Next f'
                  ∧ current_node_id f' = head next_nodes
                  ∧ state f' = result ∪ mutated).
  { intros fr Hs.
    destruct (route_inv g fr cur (state f))
      as [(f' & nn & Hr & Hg & Hc & Hs' & _) | (msg & Hg & _)];
      rewrite Hs, Hnext in Hg; [| discriminate].
    inversion Hg; subst nn. exists f'. rewrite Hs'. auto. }
  assert (Hbody : ∃ f', body g f cur = Next f'
            ∧ current_node_id f' = head next_nodes
            ∧ state f' = result ∪ mutated).
  { rewrite (body_unfold _ _ _ _ Hn), Hlim.
    rewrite (invoke_returns _ _ _ _ mutated result)
      by (rewrite entered_state; exact Hf).
    unfold continue_or_route. unfold leaves_loop in Hleave.
    destruct (if is_loop (node_type node) then loop_condition node else None)
      as [cond|].
    - simpl state at 1. rewrite Hleave. apply Hroute. reflexivity.
    - apply Hroute. reflexivity. }
  destruct Hbody as (f' & Hbody & Hc & Hs).
  assert (Hreach' : reached g initial_state (S k) f').
  { destruct Hreach as [Hstart Hsteps].
    split; [exact Hstart | eapply steps_snoc; eassumption]. }
  exists f'. do 4 (split; [assumption |]).
  intros d Hd. split.
  - intros Hne j. destruct Hreach' as [[s Hstart] Hsteps].
    unfold run_frame. rewrite Hstart.
    rewrite (while_loop_steps _ _ _ _ Hsteps).
    apply while_loop_pass. rewrite Hc, Hd. apply truthy_nonempty, Hne.
  - intros -> j. apply (run_frame_return _ _ _ _ j Hreach').
    rewrite Hc, Hd. reflexivity.
Qed.

End PassFacts.

(** C1 (the code falls short of it).  In the run of [a → b] on an empty
    state the function of [b] raises: the error entry of [b] is written
    after the success entry of [a], and what leaves [run] is the
    exception alone, the same as from the run of the graph made of [b]
    alone; the log does not reach the caller.  The handler of
    [POST /graph/run] answers with the message, saves nothing, and the
    state and log of the run cannot be asked for. *)
Theorem error_log_is_dropped :
  (∃ f, run_frame 2 graph_ab ∅ = Some (Raise f (UserExc "boom"))
        ∧ (λ e, (node_id e, status e, error e)) <$> logs f
          = [("a", "success", None); ("b", "error", Some "boom")])
  ∧ run 2 graph_ab ∅ = Some (inl (UserExc "boom"))
  ∧ run 2 graph_b ∅ = Some (inl (UserExc "boom"))
  ∧ ∀ value_error run_id,
      let store := GraphStore.save_graph GraphStore.empty "ab" graph_ab in
      run_graph value_error 2 store run_id
        {| GraphRunRequest.graph_id := "ab";
           GraphRunRequest.initial_state := ∅ |}
      = Some (store,
              inl (if value_error "boom"
                   then {| status_code := 400; detail := "boom" |}
                   else {| status_code := 500;
                           detail := "Internal server error: boom" |}))
      ∧ get_graph_state store run_id
        = inl {| status_code := 404;
                 detail := "Run '" ++ run_id ++ "' not found" |}.
Proof.
  split; [eexists; split; vm_compute; reflexivity |].
  split; [vm_compute; reflexivity |]. split; [vm_compute; reflexivity |].
  intros value_error run_id store.
  assert (Hrun : run 2 graph_ab ∅ = Some (inl (UserExc "boom")))
    by (vm_compute; reflexivity).
  split; [| reflexivity].
  unfold run_graph, store, GraphStore.load_graph, GraphStore.save_graph.
  cbn [GraphStore.graphs GraphStore.empty od_set od_get
       GraphRunRequest.graph_id GraphRunRequest.initial_state].
  rewrite bool_decide_eq_true_2 by reflexivity.
  rewrite Hrun. reflexivity.
Qed.


(** [repr] on keys with and without quotes. *)
Example repr_of_keys :
  repr "a" = "'a'"
  ∧ repr "it's" = String "034" ("it's" ++ String "034" EmptyString)
  ∧ repr (String "010" EmptyString) = String "039" (String backslash "n'")
  ∧ repr (String "255" EmptyString) = String "039" (String "255" "'")
  ∧ repr (String "160" EmptyString) = String "039" (String backslash "xa0'").
Proof. repeat split; vm_compute; reflexivity. Qed.
